(** * The Lucky Triple game server: a shallow embedding

    The repository holds two variants of the same Express server:
    - [theluckytriple-server.js], whose session registry [luckyTripleGames]
      is keyed by game id (module [ByGameId] below);
    - a second server file, whose registry [playerGameSessions] is keyed by
      player id and searched by game id (module [ByPlayer] below).
    The hand evaluator, the deck, [processReward] and [sendCardsReward] are
    the same in both and are embedded once. *)

From stdpp Require Import base list strings gmap.
From Stdlib Require Import ZArith Lia.

Local Open Scope Z_scope.

(** ** Cards *)

Inductive Suit := hearts | diamonds | clubs | spades.
Inductive Rank := RA | R2 | R3 | R4 | R5 | R6.

(** A card object [{ suit, rank, hidden: false }]; [hidden] is the constant
    [false] everywhere and is left out. *)
Record Card := mkCard { suit : Suit; rank : Rank }.

#[global] Instance Suit_eq_dec : EqDecision Suit.
Proof. solve_decision. Defined.
#[global] Instance Rank_eq_dec : EqDecision Rank.
Proof. solve_decision. Defined.
#[global] Instance Card_eq_dec : EqDecision Card.
Proof. solve_decision. Defined.

(** [RANK_ORDER]: rank order for straights. *)
Definition RANK_ORDER (r : Rank) : Z :=
  match r with
  | RA => 1 | R2 => 2 | R3 => 3 | R4 => 4 | R5 => 5 | R6 => 6
  end.

Inductive Combination :=
  | LuckyTriple | Triple | StraightFlush | Straight | Flush | NoCombination.

#[global] Instance Combination_eq_dec : EqDecision Combination.
Proof. solve_decision. Defined.

(** [REWARDS]: reward values for each hand combination. *)
Definition REWARDS (c : Combination) : Z :=
  match c with
  | LuckyTriple => 15
  | Triple => 9
  | StraightFlush => 12
  | Straight => 6
  | Flush => 5
  | NoCombination => 0
  end.

Record HandResult := mkHand { combination : Combination; reward : Z }.

(** ** The hand evaluator *)

(** [cards.every(card => card.suit === cards[0].suit)] *)
Definition sameSuitOf (cards : list Card) : bool :=
  match cards with
  | [] => true
  | c0 :: _ => forallb (λ card, bool_decide (suit card = suit c0)) cards
  end.

(** [cards.every(card => card.rank === cards[0].rank)] *)
Definition sameRankOf (cards : list Card) : bool :=
  match cards with
  | [] => true
  | c0 :: _ => forallb (λ card, bool_decide (rank card = rank c0)) cards
  end.

(** [[...cards].sort((a, b) => RANK_ORDER[a.rank] - RANK_ORDER[b.rank])].
    [Array.prototype.sort] is stable: a card moves behind another one only
    when the comparator is positive. [insertByRank c sorted] puts [c], which
    came before the cards of [sorted] in the array, at its place. *)
Fixpoint insertByRank (c : Card) (sorted : list Card) : list Card :=
  match sorted with
  | [] => [c]
  | d :: rest =>
      if RANK_ORDER (rank c) - RANK_ORDER (rank d) >? 0 then d :: insertByRank c rest
      else c :: d :: rest
  end.

Definition sortByRank (cards : list Card) : list Card :=
  foldr insertByRank [] cards.

(** [sortedCards.every((card, index) => index === 0 ||
      RANK_ORDER[card.rank] - RANK_ORDER[sortedCards[index - 1].rank] === 1)] *)
Fixpoint gapsAreOne (previous : Card) (rest : list Card) : bool :=
  match rest with
  | [] => true
  | card :: rest' =>
      (RANK_ORDER (rank card) - RANK_ORDER (rank previous) =? 1)
      && gapsAreOne card rest'
  end.

Definition isStraightOf (sortedCards : list Card) : bool :=
  match sortedCards with
  | [] => true
  | first :: rest => gapsAreOne first rest
  end.

Definition evaluateHandCombination (cards : list Card) : HandResult :=
  if negb (length cards =? 3)%nat then mkHand NoCombination 0
  else
    let sameSuit := sameSuitOf cards in
    let sameRank := sameRankOf cards in
    if sameRank && sameSuit then mkHand LuckyTriple (REWARDS LuckyTriple)
    else if sameRank then mkHand Triple (REWARDS Triple)
    else
      let sortedCards := sortByRank cards in
      let isStraight := isStraightOf sortedCards in
      if isStraight && sameSuit then mkHand StraightFlush (REWARDS StraightFlush)
      else if isStraight then mkHand Straight (REWARDS Straight)
      else if sameSuit then mkHand Flush (REWARDS Flush)
      else mkHand NoCombination (REWARDS NoCombination).

(** The six tests of the if-chain, each taken on its own, in the order in
    which the function tries them. *)
Definition chainTest (c : Combination) (cards : list Card) : bool :=
  match c with
  | LuckyTriple => sameRankOf cards && sameSuitOf cards
  | Triple => sameRankOf cards
  | StraightFlush => isStraightOf (sortByRank cards) && sameSuitOf cards
  | Straight => isStraightOf (sortByRank cards)
  | Flush => sameSuitOf cards
  | NoCombination => true
  end.

(** The rules of the specification, written from its words for a hand of
    three cards, to be compared with [evaluateHandCombination]. *)
Module HandRules.

Definition allSameRank (a b c : Card) : Prop :=
  rank a = rank b ∧ rank b = rank c.

Definition allSameSuit (a b c : Card) : Prop :=
  suit a = suit b ∧ suit b = suit c.

(** Sort the three rank values; consecutive iff each adjacent gap is 1. *)
Definition consecutive (a b c : Card) : Prop :=
  let x := RANK_ORDER (rank a) in
  let y := RANK_ORDER (rank b) in
  let z := RANK_ORDER (rank c) in
  let lo := Z.min x (Z.min y z) in
  let hi := Z.max x (Z.max y z) in
  let mid := x + y + z - lo - hi in
  mid - lo = 1 ∧ hi - mid = 1.

Definition rule (l : Combination) (a b c : Card) : Prop :=
  match l with
  | LuckyTriple => allSameRank a b c ∧ allSameSuit a b c
  | Triple => allSameRank a b c ∧ ¬ allSameSuit a b c
  | StraightFlush => consecutive a b c ∧ allSameSuit a b c
  | Straight => consecutive a b c ∧ ¬ allSameSuit a b c
  | Flush =>
      allSameSuit a b c ∧ ¬ consecutive a b c ∧ ¬ allSameRank a b c
  | NoCombination =>
      ¬ allSameRank a b c ∧ ¬ consecutive a b c ∧ ¬ allSameSuit a b c
  end.

End HandRules.

(** ** The deck *)

Definition suits : list Suit := [hearts; diamonds; clubs; spades].

(** [value === 1 ? 'A' : value.toString()] for [value] from 1 to 6. *)
Definition ranks : list Rank := [RA; R2; R3; R4; R5; R6].

(** The deck before shuffling: for each suit, the cards from Ace to 6. *)
Definition orderedDeck : list Card :=
  flat_map (λ s, map (λ r, mkCard s r) ranks) suits.

(** [[deck[i], deck[j]] = [deck[j], deck[i]]] *)
Definition swap (deck : list Card) (i j : nat) : list Card :=
  match deck !! i, deck !! j with
  | Some ci, Some cj => <[j:=ci]> (<[i:=cj]> deck)
  | _, _ => deck
  end.

(** The Fisher-Yates loop [for (let i = deck.length - 1; i > 0; i--)].
    [rnd i] stands for the random draw made at index [i];
    [Math.floor(Math.random() * (i + 1))] lies in [0..i], which is what
    [rnd i mod (i + 1)] ranges over. *)
Fixpoint fisherYates (rnd : nat → nat) (i : nat) (deck : list Card) : list Card :=
  match i with
  | O => deck
  | S i' => fisherYates rnd i' (swap deck i (rnd i mod (i + 1))%nat)
  end.

Definition createAndShuffleLuckyTripleDeck (rnd : nat → nat) : list Card :=
  fisherYates rnd (length orderedDeck - 1)%nat orderedDeck.

(** [deck.pop()]: removes and returns the last element, [undefined] (here
    [None]) on an empty array. *)
Definition pop (deck : list Card) : option Card * list Card :=
  (last deck, removelast deck).

(** [currentHeldCards.includes(i)] *)
Definition includes (held : list Z) (i : nat) : bool :=
  bool_decide (Z.of_nat i ∈ held).

(** One turn of the loops [for (let i = 0; i < 3; i++)] of the draw handler:
    the slot written to [newCards[i]] and the deck left. *)
Definition dealSlot (firstRound : bool) (held : list Z) (previousCards : list Card)
    (i : nat) (deck : list Card) : option Card * list Card :=
  if firstRound then pop deck
  else if includes held i then (previousCards !! i, deck)
  else pop deck.

Fixpoint dealFrom (firstRound : bool) (held : list Z) (previousCards : list Card)
    (i count : nat) (deck : list Card) : list (option Card) * list Card :=
  match count with
  | O => ([], deck)
  | S count' =>
      let '(slot, deck1) := dealSlot firstRound held previousCards i deck in
      let '(slots, deck2) := dealFrom firstRound held previousCards (S i) count' deck1 in
      (slot :: slots, deck2)
  end.

Definition dealHand (firstRound : bool) (held : list Z) (previousCards : list Card)
    (deck : list Card) : list (option Card) * list Card :=
  dealFrom firstRound held previousCards 0 3 deck.

(** [cards[i]] for an index received in a request. *)
Definition cardAt (cards : list Card) (i : Z) : option Card :=
  if i <? 0 then None else cards !! Z.to_nat i.

(** After the second and the third draw the handler logs
    [currentHeldCards.map(i => formatCardForLog(previousCards[i]))];
    [formatCardForLog] reads [card.rank] and throws on [undefined]. This
    tells whether every held index has a card to print. *)
Definition heldCardsPrintable (held : list Z) (previousCards : list Card) : bool :=
  forallb (λ i, bool_decide (is_Some (cardAt previousCards i))) held.

(** The cards of [newCards] when none of its slots is [undefined]. *)
Fixpoint definedCards (slots : list (option Card)) : option (list Card) :=
  match slots with
  | [] => Some []
  | None :: _ => None
  | Some c :: rest =>
      match definedCards rest with
      | Some cs => Some (c :: cs)
      | None => None
      end
  end.

(** ** Game configuration *)

Module GAME_CONFIG.
Definition MAX_ROUNDS : Z := 3.
Definition GAME_TIMEOUT_MS : Z := 60 * 1000.
End GAME_CONFIG.

(** [Math.ceil(timeRemaining / 1000)] on a whole number of milliseconds. *)
Definition ceilSeconds (ms : Z) : Z := (ms + 999) / 1000.

(** ** Server state *)

(** A [gameState] object. The player-keyed server also stores
    [lastActionTime]; the game-keyed one has no such property ([None]). *)
Record GameState := mkGame {
  gameId : string;
  playerId : string;
  deck : list Card;
  cards : list Card;
  heldCards : list Z;
  timestamp : Z;
  lastActionTime : option Z;
  currentCombination : Combination;
  currentReward : Z;
  roundsPlayed : Z;
  maxRounds : Z;
  isEnded : bool;
  timedOut : bool;
  rewardPaid : bool
}.

Definition set_deck (d : list Card) (g : GameState) : GameState :=
  mkGame (gameId g) (playerId g) d (cards g) (heldCards g) (timestamp g)
    (lastActionTime g) (currentCombination g) (currentReward g)
    (roundsPlayed g) (maxRounds g) (isEnded g) (timedOut g) (rewardPaid g).

Definition set_heldCards (h : list Z) (g : GameState) : GameState :=
  mkGame (gameId g) (playerId g) (deck g) (cards g) h (timestamp g)
    (lastActionTime g) (currentCombination g) (currentReward g)
    (roundsPlayed g) (maxRounds g) (isEnded g) (timedOut g) (rewardPaid g).

Definition set_lastActionTime (t : option Z) (g : GameState) : GameState :=
  mkGame (gameId g) (playerId g) (deck g) (cards g) (heldCards g) (timestamp g)
    t (currentCombination g) (currentReward g)
    (roundsPlayed g) (maxRounds g) (isEnded g) (timedOut g) (rewardPaid g).

Definition set_isEnded (b : bool) (g : GameState) : GameState :=
  mkGame (gameId g) (playerId g) (deck g) (cards g) (heldCards g) (timestamp g)
    (lastActionTime g) (currentCombination g) (currentReward g)
    (roundsPlayed g) (maxRounds g) b (timedOut g) (rewardPaid g).

Definition set_timedOut (b : bool) (g : GameState) : GameState :=
  mkGame (gameId g) (playerId g) (deck g) (cards g) (heldCards g) (timestamp g)
    (lastActionTime g) (currentCombination g) (currentReward g)
    (roundsPlayed g) (maxRounds g) (isEnded g) b (rewardPaid g).

Definition set_rewardPaid (b : bool) (g : GameState) : GameState :=
  mkGame (gameId g) (playerId g) (deck g) (cards g) (heldCards g) (timestamp g)
    (lastActionTime g) (currentCombination g) (currentReward g)
    (roundsPlayed g) (maxRounds g) (isEnded g) (timedOut g) b.

(** The four assignments of the draw handler after the hand is evaluated:
    [cards], [currentCombination], [currentReward], [roundsPlayed += 1]. *)
Definition set_hand (newCards : list Card) (h : HandResult) (g : GameState) : GameState :=
  mkGame (gameId g) (playerId g) (deck g) newCards (heldCards g) (timestamp g)
    (lastActionTime g) (combination h) (reward h)
    (roundsPlayed g + 1) (maxRounds g) (isEnded g) (timedOut g) (rewardPaid g).

Inductive GameResult := win | loss | timeout.

(** An entry of [completedGames]. *)
Record CompletedGame := mkCompleted {
  cg_playerId : string;
  cg_result : GameResult;
  cg_timestamp : Z;
  cg_processed : bool
}.

Inductive PayStatus := pending | completed | failed.

(** A transaction handed to [connection.sendRawTransaction]. *)
Record Submission := mkSubmission {
  sub_receiver : string;
  sub_gameId : string;
  sub_tokenAmount : Z
}.

(** [paidRewards] and the transactions submitted so far. *)
Record Ledger := mkLedger {
  paidRewards : gmap string PayStatus;
  gateway : list Submission
}.

(** Where a running [sendCardsReward] is suspended: before the transaction
    is sent (token accounts, account info and blockhash are awaited), on
    [sendRawTransaction], or on [confirmTransaction]. *)
Inductive SendPhase := AwaitAccounts | AwaitSend | AwaitConfirm.

Record Send := mkSend {
  snd_receiver : string;
  snd_gameId : string;
  snd_amount : Z;
  snd_phase : SendPhase
}.

(** A suspended [processReward]: either [sendCardsReward] has returned
    [null] and the rest of [processReward] is queued, or it waits for the
    [sendCardsReward] it started. [ref] is the [gameState] object it holds. *)
Inductive RewardTask :=
  | AwaitingNull (ref : nat)
  | AwaitingSend (ref : nat) (t : Send).

(** The process state. [heap] holds the [gameState] objects by reference, so
    that an object deleted from the registry is still the one a suspended
    [processReward] writes to. [games] is the session registry in insertion
    order: [luckyTripleGames] (game id to object) or [playerGameSessions]
    (player id to object). The [setTimeout] callbacks, which only delete
    entries of the registry and of [activePlayers] later on, are not part of
    a handler's transition. *)
Record Server := mkServer {
  heap : list GameState;
  games : list (string * nat);
  completedGames : gmap string CompletedGame;
  ledger : Ledger;
  tasks : list RewardTask
}.

Definition set_heap (h : list GameState) (s : Server) : Server :=
  mkServer h (games s) (completedGames s) (ledger s) (tasks s).
Definition set_games (g : list (string * nat)) (s : Server) : Server :=
  mkServer (heap s) g (completedGames s) (ledger s) (tasks s).
Definition set_completedGames (c : gmap string CompletedGame) (s : Server) : Server :=
  mkServer (heap s) (games s) c (ledger s) (tasks s).
Definition set_ledger (l : Ledger) (s : Server) : Server :=
  mkServer (heap s) (games s) (completedGames s) l (tasks s).
Definition set_tasks (t : list RewardTask) (s : Server) : Server :=
  mkServer (heap s) (games s) (completedGames s) (ledger s) t.

(** An in-place update of the object at [ref]. *)
Definition update (ref : nat) (f : GameState → GameState) (s : Server) : Server :=
  set_heap (alter f ref (heap s)) s.

(** [Map.prototype.get], [set] and [delete] on a registry. *)
Fixpoint registryGet (m : list (string * nat)) (k : string) : option nat :=
  match m with
  | [] => None
  | (k', v) :: rest => if bool_decide (k' = k) then Some v else registryGet rest k
  end.

Fixpoint registrySet (m : list (string * nat)) (k : string) (v : nat) : list (string * nat) :=
  match m with
  | [] => [(k, v)]
  | (k', v') :: rest =>
      if bool_decide (k' = k) then (k, v) :: rest else (k', v') :: registrySet rest k v
  end.

Definition registryDelete (m : list (string * nat)) (k : string) : list (string * nat) :=
  filter (λ e, e.1 ≠ k) m.

(** ** Reward payout *)

(** What the server uses of [@solana/web3.js] without computing it itself:
    whether [new PublicKey(address)] accepts an address. *)
Class Web3 := { validPublicKey : string → bool }.

Section Payout.
Context {web3 : Web3}.

(** [`${receiverAddress}-${gameId}`] *)
Definition transactionKey (receiverAddress gameId : string) : string :=
  receiverAddress +:+ "-" +:+ gameId.

Definition setStatus (key : string) (st : PayStatus) (l : Ledger) : Ledger :=
  mkLedger (<[key := st]> (paidRewards l)) (gateway l).

Definition submit (t : Send) (l : Ledger) : Ledger :=
  mkLedger (paidRewards l)
    (gateway l ++ [mkSubmission (snd_receiver t) (snd_gameId t) (snd_amount t * 10 ^ 9)]).

Definition atPhase (p : SendPhase) (t : Send) : Send :=
  mkSend (snd_receiver t) (snd_gameId t) (snd_amount t) p.

(** How the synchronous part of a call to [sendCardsReward] ends: it has
    thrown, it has returned [null], or it is suspended on its first
    [await]. *)
Inductive Started := Threw | ReturnedNull | Awaiting (t : Send).

(** [sendCardsReward] up to its first [await]. *)
Definition sendCardsReward (receiverAddress gameId : string) (rewardAmount : Z)
    (l : Ledger) : Ledger * Started :=
  if negb (validPublicKey receiverAddress) then (l, Threw)
  else
    let key := transactionKey receiverAddress gameId in
    if bool_decide (is_Some (paidRewards l !! key)) then (l, ReturnedNull)
    else (setStatus key pending l,
          Awaiting (mkSend receiverAddress gameId rewardAmount AwaitAccounts)).

Inductive Resumed := StillAwaiting (t : Send) | ReturnedSignature | Thrown.

(** [sendCardsReward] from one [await] to the next. [ok] tells whether the
    awaited calls went through: in phase [AwaitAccounts] the receiver's
    token account exists and the blockhash is obtained, after which the
    transaction is signed and sent; in the other phases
    [sendRawTransaction], then [confirmTransaction], succeeded. Only the
    game-keyed server awaits the confirmation ([confirms]). *)
Definition resumeSend (confirms ok : bool) (t : Send) (l : Ledger) : Ledger * Resumed :=
  let key := transactionKey (snd_receiver t) (snd_gameId t) in
  if negb ok then (setStatus key failed l, Thrown)
  else
    match snd_phase t with
    | AwaitAccounts => (submit t l, StillAwaiting (atPhase AwaitSend t))
    | AwaitSend =>
        if confirms then (l, StillAwaiting (atPhase AwaitConfirm t))
        else (setStatus key completed l, ReturnedSignature)
    | AwaitConfirm => (setStatus key completed l, ReturnedSignature)
    end.

(** [processReward] up to its [await]. *)
Definition processReward (ref : nat) (s : Server) : Server :=
  match heap s !! ref with
  | None => s
  | Some gameState =>
      if rewardPaid gameState then s
      else if currentReward gameState <=? 0 then s
      else
        match sendCardsReward (playerId gameState) (gameId gameState)
                (currentReward gameState) (ledger s) with
        | (l, Threw) => set_ledger l s
        | (l, ReturnedNull) => set_tasks (tasks s ++ [AwaitingNull ref]) (set_ledger l s)
        | (l, Awaiting t) => set_tasks (tasks s ++ [AwaitingSend ref t]) (set_ledger l s)
        end
  end.

(** The suspended [processReward] number [i] runs on: when its
    [sendCardsReward] returns without throwing, it marks the game as paid. *)
Definition resumeTask (confirms : bool) (i : nat) (ok : bool) (s : Server) : Server :=
  match tasks s !! i with
  | None => s
  | Some (AwaitingNull ref) =>
      update ref (set_rewardPaid true) (set_tasks (delete i (tasks s)) s)
  | Some (AwaitingSend ref t) =>
      match resumeSend confirms ok t (ledger s) with
      | (l, StillAwaiting t') =>
          set_tasks (<[i := AwaitingSend ref t']> (tasks s)) (set_ledger l s)
      | (l, ReturnedSignature) =>
          update ref (set_rewardPaid true)
            (set_tasks (delete i (tasks s)) (set_ledger l s))
      | (l, Thrown) => set_tasks (delete i (tasks s)) (set_ledger l s)
      end
  end.

(** *** Any sequence of calls to [sendCardsReward] *)

Inductive DispatchEvent :=
  | Invoke (receiverAddress gameId : string) (rewardAmount : Z)
  | Resume (i : nat) (ok : bool).

(** The ledger with the calls to [sendCardsReward] that are suspended. *)
Record Dispatch := mkDispatch {
  d_ledger : Ledger;
  d_inflight : list Send
}.

Definition dispatchStep (confirms : bool) (d : Dispatch) (e : DispatchEvent) : Dispatch :=
  match e with
  | Invoke receiverAddress gameId rewardAmount =>
      match sendCardsReward receiverAddress gameId rewardAmount (d_ledger d) with
      | (l, Awaiting t) => mkDispatch l (d_inflight d ++ [t])
      | (l, _) => mkDispatch l (d_inflight d)
      end
  | Resume i ok =>
      match d_inflight d !! i with
      | None => d
      | Some t =>
          match resumeSend confirms ok t (d_ledger d) with
          | (l, StillAwaiting t') => mkDispatch l (<[i := t']> (d_inflight d))
          | (l, _) => mkDispatch l (delete i (d_inflight d))
          end
      end
  end.

Definition dispatchRun (confirms : bool) (d : Dispatch) (es : list DispatchEvent) : Dispatch :=
  foldl (dispatchStep confirms) d es.

Definition emptyLedger : Ledger := mkLedger ∅ [].
Definition noDispatch : Dispatch := mkDispatch emptyLedger [].


End Payout.

(** The object at [ref] as it is now ([g] if [ref] were dangling). *)
Definition current (s : Server) (ref : nat) (g : GameState) : GameState :=
  default g (heap s !! ref).

(** ** The player-keyed server *)

Module ByPlayer.

(** The object returned by [verifyTimeRemaining]. *)
Record TimeCheck := mkTimeCheck {
  tc_timeRemaining : Z;
  tc_isTimedOut : bool;
  tc_isEnded : bool;
  tc_serverTime : Z
}.

Record DrawBody := mkDrawBody {
  dr_cards : list Card;
  dr_combination : Combination;
  dr_reward : Z;
  dr_roundsLeft : Z;
  dr_remainingCards : nat;
  dr_isEnded : bool;
  dr_timeRemaining : Z;
  dr_serverTime : Z;
  dr_heldCards : list Z;
  dr_previouslyHeld : list Z;
  dr_playerId : string;
  dr_rewardPaid : bool
}.

Record CheckBody := mkCheckBody {
  ck_gameId : string;
  ck_playerId : string;
  ck_combination : Combination;
  ck_reward : Z;
  ck_gameCompleted : bool;
  ck_isEnded : bool;
  ck_isWin : bool;
  ck_timeRemaining : Z;
  ck_rewardPaid : bool
}.

Record StatusBody := mkStatusBody {
  st_gameId : string;
  st_playerId : string;
  st_isEnded : bool;
  st_timedOut : bool;
  st_timeRemaining : Z;
  st_serverTime : Z;
  st_roundsLeft : Z;
  st_currentCombination : Combination;
  st_currentReward : Z;
  st_rewardPaid : bool
}.

(** What a handler answers. [Error status error] is
    [res.status(status).json({ error })]; [TimedOut] is the 400 answer
    that carries [timeRemaining], [isTimedOut], [isEnded] and
    [serverTime]; [Uncaught] is a [TypeError] escaping the handler, which
    Express answers with status 500. The [message] text of the check
    answer is left out. *)
Inductive Response :=
  | Error (status : Z) (error : string)
  | TimedOut (status : Z) (error : string) (timeRemaining : Z)
      (isTimedOut isEnded : bool) (serverTime : Z)
  | HoldOk (heldCards : list Z)
  | DrawOk (body : DrawBody)
  | CheckOk (body : CheckBody)
  | StatusOk (body : StatusBody)
  | Uncaught.

(** The loop [for (const [pid, state] of playerGameSessions.entries())]
    that stops at the first state whose [gameId] is the requested one. *)
Fixpoint findGame (h : list GameState) (entries : list (string * nat)) (gid : string)
    : option (string * nat * GameState) :=
  match entries with
  | [] => None
  | (pid, ref) :: rest =>
      match h !! ref with
      | Some state =>
          if bool_decide (gameId state = gid) then Some (pid, ref, state)
          else findGame h rest gid
      | None => findGame h rest gid
      end
  end.

(** The object literal built by the start handler. *)
Definition newGameState (gid pid : string) (d : list Card) (startTime : Z) : GameState :=
  mkGame gid pid d [] [] startTime (Some startTime) NoCombination 0 0
    GAME_CONFIG.MAX_ROUNDS false false false.

Section Handlers.
Context {web3 : Web3}.

(** [now] is what [Date.now()] returns during the handler. *)
Definition verifyTimeRemaining (now : Z) (ref : nat) (pid : string) (s : Server)
    : Server * option TimeCheck :=
  match heap s !! ref with
  | None => (s, None)
  | Some gameState =>
      let elapsed := now - timestamp gameState in
      let timeRemaining := Z.max 0 (GAME_CONFIG.GAME_TIMEOUT_MS - elapsed) in
      if (timeRemaining <=? 0) && negb (isEnded gameState) then
        let s1 := update ref (λ g, set_timedOut true (set_isEnded true g)) s in
        let s2 :=
          if bool_decide (pid ≠ "") then
            set_completedGames
              (<[gameId gameState := mkCompleted pid timeout now true]> (completedGames s1)) s1
          else s1 in
        (s2, Some (mkTimeCheck 0 true true now))
      else
        (s, Some (mkTimeCheck (ceilSeconds timeRemaining) false (isEnded gameState) now))
  end.

(** [POST /lucky-triple/hold] *)
Definition hold (now : Z) (gid : string) (cardIndexes : list Z) (s : Server)
    : Server * Response :=
  match findGame (heap s) (games s) gid with
  | None => (s, Error 404 "Game not found")
  | Some (pid, ref, gameState) =>
      if (2 <? length cardIndexes)%nat then
        (s, Error 400 "Cannot hold more than 2 cards")
      else if (roundsPlayed gameState =? 0) || (roundsPlayed gameState >=? 3) then
        (s, Error 400 "Can only hold cards after first and second round")
      else
        let s1 := update ref (λ g, set_lastActionTime (Some now) (set_heldCards cardIndexes g)) s in
        (set_games (registrySet (games s1) pid ref) s1, HoldOk cardIndexes)
  end.

(** [POST /lucky-triple/draw]; [rnd] feeds the shuffle when the deck is
    recreated. The handler throws where it evaluates a hand with an
    [undefined] slot and where it logs a held index that has no card; what
    it has written by then stays. *)
Definition draw (now : Z) (rnd : nat → nat) (gid : string) (s : Server)
    : Server * Response :=
  match findGame (heap s) (games s) gid with
  | None => (s, Error 404 "Game not found")
  | Some (pid, ref, gameState) =>
      if isEnded gameState then (s, Error 400 "Game has already ended")
      else
        match verifyTimeRemaining now ref pid s with
        | (s1, None) => (s1, Error 404 "Game not found")
        | (s1, Some timeCheck) =>
            if tc_isTimedOut timeCheck then
              (set_games (registryDelete (games s1) pid) s1,
               TimedOut 400 "Game has timed out" 0 true true (tc_serverTime timeCheck))
            else
              let g1 := current s1 ref gameState in
              if roundsPlayed g1 >=? maxRounds g1 then
                let s2 := update ref (λ g, set_lastActionTime (Some now) (set_isEnded true g)) s1 in
                (set_games (registrySet (games s2) pid ref) s2,
                 Error 400 "Maximum rounds reached for this game")
              else
                let deck1 :=
                  if (length (deck g1) <? 3)%nat
                  then createAndShuffleLuckyTripleDeck rnd else deck g1 in
                let currentHeldCards := heldCards g1 in
                let previousCards := cards g1 in
                let '(newCards, deck2) :=
                  dealHand (roundsPlayed g1 =? 0) currentHeldCards previousCards deck1 in
                match definedCards newCards with
                | None => (update ref (set_deck deck2) s1, Uncaught)
                | Some newCards =>
                    let handResult := evaluateHandCombination newCards in
                    let s2 :=
                      update ref
                        (λ g, set_heldCards []
                                (set_lastActionTime (Some now)
                                   (set_hand newCards handResult (set_deck deck2 g)))) s1 in
                    let g2 := current s2 ref gameState in
                    let s3 :=
                      if roundsPlayed g2 >=? maxRounds g2 then
                        let s' := update ref (set_isEnded true) s2 in
                        if currentReward g2 >? 0 then
                          processReward ref
                            (set_completedGames
                               (<[gameId g2 := mkCompleted pid win now false]>
                                  (completedGames s')) s')
                        else
                          set_completedGames
                            (<[gameId g2 := mkCompleted pid loss now true]>
                               (completedGames s')) s'
                      else s2 in
                    let s4 := set_games (registrySet (games s3) pid ref) s3 in
                    if (roundsPlayed (current s4 ref gameState) >? 1)
                       && negb (heldCardsPrintable currentHeldCards previousCards)
                    then (s4, Uncaught)
                    else
                      let '(s5, remainingTime) :=
                        if isEnded (current s4 ref gameState) then (s4, 0)
                        else
                          match verifyTimeRemaining now ref pid s4 with
                          | (s', Some timeStatus) => (s', tc_timeRemaining timeStatus)
                          | (s', None) => (s', 0)
                          end in
                      let g5 := current s5 ref gameState in
                      (s5,
                       DrawOk
                         (mkDrawBody newCards (combination handResult) (reward handResult)
                            (maxRounds g5 - roundsPlayed g5) (length (deck g5))
                            (isEnded g5) remainingTime (tc_serverTime timeCheck)
                            [] currentHeldCards pid (rewardPaid g5)))
                end
        end
  end.

(** [POST /lucky-triple/check] *)
Definition check (now : Z) (gid : string) (s : Server) : Server * Response :=
  match findGame (heap s) (games s) gid with
  | None => (s, Error 404 "Game not found")
  | Some (pid, ref, gameState) =>
      match verifyTimeRemaining now ref pid s with
      | (s1, None) => (s1, Error 404 "Game not found")
      | (s1, Some timeCheck) =>
          if tc_isTimedOut timeCheck then
            (set_games (registryDelete (games s1) pid) s1,
             TimedOut 400 "Game has timed out" 0 true true (tc_serverTime timeCheck))
          else
            let s2 := update ref (λ g, set_lastActionTime (Some now) (set_isEnded true g)) s1 in
            let g2 := current s2 ref gameState in
            let s3 :=
              set_completedGames
                (<[gameId g2 :=
                     mkCompleted pid (if currentReward g2 >? 0 then win else loss) now false]>
                   (completedGames s2)) s2 in
            let s4 := if currentReward g2 >? 0 then processReward ref s3 else s3 in
            let s5 := set_games (registrySet (games s4) pid ref) s4 in
            let g5 := current s5 ref gameState in
            (s5,
             CheckOk
               (mkCheckBody (gameId g5) pid (currentCombination g5) (currentReward g5)
                  true true (currentReward g5 >? 0) 0 (rewardPaid g5)))
      end
  end.

(** [GET /lucky-triple/status/:gameId] *)
Definition status (now : Z) (gid : string) (s : Server) : Server * Response :=
  match findGame (heap s) (games s) gid with
  | None => (s, Error 404 "Game not found")
  | Some (pid, ref, gameState) =>
      match verifyTimeRemaining now ref pid s with
      | (s1, None) => (s1, Error 404 "Game not found")
      | (s1, Some timeCheck) =>
          if tc_isTimedOut timeCheck then
            (set_games (registryDelete (games s1) pid) s1,
             TimedOut 400 "Game has timed out" 0 true true (tc_serverTime timeCheck))
          else
            let g1 := current s1 ref gameState in
            (s1,
             StatusOk
               (mkStatusBody (gameId g1) pid
                  (isEnded g1 || tc_isEnded timeCheck)
                  (timedOut g1 || tc_isTimedOut timeCheck)
                  (tc_timeRemaining timeCheck) (tc_serverTime timeCheck)
                  (maxRounds g1 - roundsPlayed g1)
                  (currentCombination g1) (currentReward g1) (rewardPaid g1)))
      end
  end.

End Handlers.

End ByPlayer.

(** ** The game-keyed server *)

Module ByGameId.

(** The two objects [verifyTimeRemaining] can return: the one built by
    [handleTimedOutGame] (with [gameCompleted], [isEnded] and [timedOut]
    all [true], [timeRemaining] 0 and a message), or
    [{ timeRemaining, isTimedOut: false }]. *)
Inductive TimeCheck :=
  | TimedOutGame (gameId : string) (finalCombination : Combination) (reward : Z)
  | TimeLeft (timeRemaining : Z).

(** Reading the property [isTimedOut]: the object of [handleTimedOutGame]
    has a property [timedOut] but none called [isTimedOut], so the read
    gives [undefined] ([None]). *)
Definition isTimedOut (timeCheck : TimeCheck) : option bool :=
  match timeCheck with
  | TimedOutGame _ _ _ => None
  | TimeLeft _ => Some false
  end.

Definition timeRemaining (timeCheck : TimeCheck) : Z :=
  match timeCheck with
  | TimedOutGame _ _ _ => 0
  | TimeLeft t => t
  end.

(** Truthiness of a property that is a boolean or [undefined]. *)
Definition truthy (v : option bool) : bool := default false v.

Record DrawBody := mkDrawBody {
  dr_cards : list Card;
  dr_combination : Combination;
  dr_reward : Z;
  dr_roundsLeft : Z;
  dr_remainingCards : nat;
  dr_isEnded : bool;
  dr_timeRemaining : Z;
  dr_heldCards : list Z;
  dr_previouslyHeld : list Z;
  dr_playerId : string;
  dr_rewardPaid : bool
}.

Record CheckBody := mkCheckBody {
  ck_gameId : string;
  ck_playerId : string;
  ck_combination : Combination;
  ck_reward : Z;
  ck_gameCompleted : bool;
  ck_isEnded : bool;
  ck_isWin : bool;
  ck_timeRemaining : Z;
  ck_rewardPaid : bool
}.

Record StatusBody := mkStatusBody {
  st_gameId : string;
  st_playerId : string;
  st_isEnded : bool;
  st_timedOut : bool;
  st_timeRemaining : Z;
  st_roundsLeft : Z;
  st_currentCombination : Combination;
  st_currentReward : Z;
  st_rewardPaid : bool
}.

(** As in [ByPlayer]; [TimedOut] carries the spread [...timeCheck]. *)
Inductive Response :=
  | Error (status : Z) (error : string)
  | TimedOut (status : Z) (error : string) (timeCheck : TimeCheck)
  | HoldOk (heldCards : list Z)
  | DrawOk (body : DrawBody)
  | CheckOk (body : CheckBody)
  | StatusOk (body : StatusBody)
  | Uncaught.

(** [luckyTripleGames.get(gameId)] *)
Definition getGame (s : Server) (gid : string) : option (nat * GameState) :=
  match registryGet (games s) gid with
  | None => None
  | Some ref =>
      match heap s !! ref with
      | Some gameState => Some (ref, gameState)
      | None => None
      end
  end.

(** The object literal built by the start handler. *)
Definition newGameState (gid pid : string) (d : list Card) (startTime : Z) : GameState :=
  mkGame gid pid d [] [] startTime None NoCombination 0 0
    GAME_CONFIG.MAX_ROUNDS false false false.

Section Handlers.
Context {web3 : Web3}.

Definition handleTimedOutGame (now : Z) (ref : nat) (gameState : GameState) (s : Server)
    : Server * TimeCheck :=
  let s1 := update ref (λ g, set_timedOut true (set_isEnded true g)) s in
  let finalReward := 0 in
  let s2 :=
    if bool_decide (playerId gameState ≠ "") then
      set_completedGames
        (<[gameId gameState := mkCompleted (playerId gameState) timeout now true]>
           (completedGames s1)) s1
    else s1 in
  (s2, TimedOutGame (gameId gameState) (currentCombination gameState) finalReward).

Definition verifyTimeRemaining (now : Z) (ref : nat) (s : Server)
    : Server * option TimeCheck :=
  match heap s !! ref with
  | None => (s, None)
  | Some gameState =>
      let elapsed := now - timestamp gameState in
      let timeRemaining := Z.max 0 (GAME_CONFIG.GAME_TIMEOUT_MS - elapsed) in
      if (timeRemaining <=? 0) && negb (isEnded gameState) then
        let '(s1, timeCheck) := handleTimedOutGame now ref gameState s in
        (s1, Some timeCheck)
      else (s, Some (TimeLeft (ceilSeconds timeRemaining)))
  end.

(** [timeCheck && timeCheck.isTimedOut] *)
Definition timedOutSays (timeCheck : option TimeCheck) : bool :=
  match timeCheck with
  | None => false
  | Some tc => truthy (isTimedOut tc)
  end.

(** [POST /lucky-triple/hold] *)
Definition hold (gid : string) (cardIndexes : list Z) (s : Server) : Server * Response :=
  match getGame s gid with
  | None => (s, Error 404 "Game not found")
  | Some (ref, gameState) =>
      if (2 <? length cardIndexes)%nat then
        (s, Error 400 "Cannot hold more than 2 cards")
      else if (roundsPlayed gameState =? 0) || (roundsPlayed gameState >=? 3) then
        (s, Error 400 "Can only hold cards after first and second round")
      else
        let s1 := update ref (set_heldCards cardIndexes) s in
        (set_games (registrySet (games s1) gid ref) s1, HoldOk cardIndexes)
  end.

(** [POST /lucky-triple/draw] *)
Definition draw (now : Z) (rnd : nat → nat) (gid : string) (s : Server)
    : Server * Response :=
  match getGame s gid with
  | None => (s, Error 404 "Game not found")
  | Some (ref, gameState) =>
      if isEnded gameState then (s, Error 400 "Game has already ended")
      else
        let '(s1, timeCheck) := verifyTimeRemaining now ref s in
        if timedOutSays timeCheck then
          (set_games (registryDelete (games s1) gid) s1,
           match timeCheck with
           | Some tc => TimedOut 400 "Game has timed out" tc
           | None => Error 400 "Game has timed out"
           end)
        else
          let g1 := current s1 ref gameState in
          if roundsPlayed g1 >=? maxRounds g1 then
            let s2 := update ref (set_isEnded true) s1 in
            (set_games (registrySet (games s2) gid ref) s2,
             Error 400 "Maximum rounds reached for this game")
          else
            let deck1 :=
              if (length (deck g1) <? 3)%nat
              then createAndShuffleLuckyTripleDeck rnd else deck g1 in
            let currentHeldCards := heldCards g1 in
            let previousCards := cards g1 in
            let '(newCards, deck2) :=
              dealHand (roundsPlayed g1 =? 0) currentHeldCards previousCards deck1 in
            match definedCards newCards with
            | None => (update ref (set_deck deck2) s1, Uncaught)
            | Some newCards =>
                let handResult := evaluateHandCombination newCards in
                let s2 :=
                  update ref
                    (λ g, set_heldCards []
                            (set_hand newCards handResult (set_deck deck2 g))) s1 in
                let g2 := current s2 ref gameState in
                let s3 :=
                  if roundsPlayed g2 >=? maxRounds g2 then
                    let s' := update ref (set_isEnded true) s2 in
                    if (currentReward g2 >? 0) && bool_decide (playerId g2 ≠ "") then
                      processReward ref
                        (set_completedGames
                           (<[gid := mkCompleted (playerId g2) win now false]>
                              (completedGames s')) s')
                    else if bool_decide (playerId g2 ≠ "") then
                      set_completedGames
                        (<[gid := mkCompleted (playerId g2) loss now true]>
                           (completedGames s')) s'
                    else s'
                  else s2 in
                let s4 := set_games (registrySet (games s3) gid ref) s3 in
                if (roundsPlayed (current s4 ref gameState) >? 1)
                   && negb (heldCardsPrintable currentHeldCards previousCards)
                then (s4, Uncaught)
                else
                  let '(s5, remainingTime) :=
                    if isEnded (current s4 ref gameState) then (s4, 0)
                    else
                      match verifyTimeRemaining now ref s4 with
                      | (s', Some timeStatus) => (s', timeRemaining timeStatus)
                      | (s', None) => (s', 0)
                      end in
                  let g5 := current s5 ref gameState in
                  (s5,
                   DrawOk
                     (mkDrawBody newCards (combination handResult) (reward handResult)
                        (maxRounds g5 - roundsPlayed g5) (length (deck g5))
                        (isEnded g5) remainingTime
                        [] currentHeldCards (playerId g5) (rewardPaid g5)))
            end
  end.

(** [POST /lucky-triple/check] *)
Definition check (now : Z) (gid : string) (s : Server) : Server * Response :=
  match getGame s gid with
  | None => (s, Error 404 "Game not found")
  | Some (ref, gameState) =>
      let '(s1, timeCheck) := verifyTimeRemaining now ref s in
      if timedOutSays timeCheck then
        (set_games (registryDelete (games s1) gid) s1,
         match timeCheck with
         | Some tc => TimedOut 400 "Game has timed out" tc
         | None => Error 400 "Game has timed out"
         end)
      else
        let s2 := update ref (set_isEnded true) s1 in
        let g2 := current s2 ref gameState in
        let s3 :=
          if bool_decide (playerId g2 ≠ "") then
            set_completedGames
              (<[gid := mkCompleted (playerId g2)
                          (if currentReward g2 >? 0 then win else loss) now false]>
                 (completedGames s2)) s2
          else s2 in
        let s4 := if currentReward g2 >? 0 then processReward ref s3 else s3 in
        let g4 := current s4 ref gameState in
        (s4,
         CheckOk
           (mkCheckBody (gameId g4) (playerId g4) (currentCombination g4)
              (currentReward g4) true true (currentReward g4 >? 0) 0 (rewardPaid g4)))
  end.

(** [GET /lucky-triple/status/:gameId] *)
Definition status (now : Z) (gid : string) (s : Server) : Server * Response :=
  match getGame s gid with
  | None => (s, Error 404 "Game not found")
  | Some (ref, gameState) =>
      let '(s1, timeCheck) := verifyTimeRemaining now ref s in
      if timedOutSays timeCheck then
        (set_games (registryDelete (games s1) gid) s1, Error 404 "Game has timed out")
      else
        let g1 := current s1 ref gameState in
        (s1,
         StatusOk
           (mkStatusBody (gameId g1) (playerId g1) (isEnded g1) (timedOut g1)
              (match timeCheck with Some tc => timeRemaining tc | None => 0 end)
              (maxRounds g1 - roundsPlayed g1)
              (currentCombination g1) (currentReward g1) (rewardPaid g1)))
  end.

End Handlers.

End ByGameId.

(** ** Auxiliary definitions for the proofs *)

Definition rankValue (c : Card) : Z := RANK_ORDER (rank c).

(** The sort and the straight test on the rank values alone. *)
Fixpoint insertValue (x : Z) (sorted : list Z) : list Z :=
  match sorted with
  | [] => [x]
  | y :: rest => if x - y >? 0 then y :: insertValue x rest else x :: y :: rest
  end.

Definition sortValues (l : list Z) : list Z := foldr insertValue [] l.

Fixpoint valueGapsAreOne (previous : Z) (rest : list Z) : bool :=
  match rest with
  | [] => true
  | x :: rest' => (x - previous =? 1) && valueGapsAreOne x rest'
  end.

Definition valuesStraight (l : list Z) : bool :=
  match l with
  | [] => true
  | first :: rest => valueGapsAreOne first rest
  end.

#[global] Instance SendPhase_eq_dec : EqDecision SendPhase.
Proof. solve_decision. Defined.
#[global] Instance PayStatus_eq_dec : EqDecision PayStatus.
Proof. solve_decision. Defined.

Definition sendKey (t : Send) : string :=
  transactionKey (snd_receiver t) (snd_gameId t).

Definition submissionKey (sub : Submission) : string :=
  transactionKey (sub_receiver sub) (sub_gameId sub).



(** The task a [processReward] leaves behind, by how its call to
    [sendCardsReward] ended. *)
Definition taskOf (ref : nat) (started : Started) : list RewardTask :=
  match started with
  | Threw => []
  | ReturnedNull => [AwaitingNull ref]
  | Awaiting t => [AwaitingSend ref t]
  end.

(** A [Web3] for the examples: every address is taken as a public key. *)
Definition anyAddress : Web3 := {| validPublicKey := λ _, true |}.

(** Whether the draw handler deals a new card at position [i]: always in the
    first round, otherwise when the position is not held. *)
Definition isFreshAt (firstRound : bool) (held : list Z) (i : nat) : bool :=
  firstRound || negb (includes held i).

(** The new cards of a hand, in the order in which they were popped. *)
Definition freshOf (firstRound : bool) (held : list Z) (newCards : list Card) : list Card :=
  flat_map (λ i, if isFreshAt firstRound held i then option_list (newCards !! i) else [])
    [0; 1; 2]%nat.

(** What a successful draw does to the table, from the game object [g]
    before it to the object [g'] after it. [drawn] lists the cards popped so
    far from the deck of [g]; [rnd] feeds the shuffle if the deck is
    recreated. A position is dealt anew in the first round, and later when
    it is not among the held positions. *)
Definition DealtByDraw (rnd : nat → nat) (drawn : list Card) (g g' : GameState) : Prop :=
  let recreated := (length (deck g) <? 3)%nat in
  let deck0 := if recreated then createAndShuffleLuckyTripleDeck rnd else deck g in
  let drawn0 := if recreated then [] else drawn in
  let anew (i : nat) := roundsPlayed g = 0 ∨ Z.of_nat i ∉ heldCards g in
  let fresh := freshOf (roundsPlayed g =? 0) (heldCards g) (cards g') in
  length (cards g') = 3%nat
  ∧ heldCards g' = []
  ∧ (∀ i, (i < 3)%nat → ¬ anew i → cards g' !! i = cards g !! i)
  ∧ (∀ i, (i < 3)%nat → anew i →
       ∃ c, cards g' !! i = Some c ∧ c ∈ deck0 ∧ (c ∉ deck g') ∧ (c ∉ drawn0)
            ∧ ∀ j, (j < 3)%nat → j ≠ i → anew j → cards g' !! j ≠ Some c)
  ∧ deck0 = deck g' ++ reverse fresh
  ∧ NoDup (deck g' ++ reverse fresh ++ drawn0).

(** Two states of a game object that differ at most in flags and times. *)
Definition sameTable (g1 g : GameState) : Prop :=
  cards g1 = cards g ∧ deck g1 = deck g ∧ heldCards g1 = heldCards g
  ∧ roundsPlayed g1 = roundsPlayed g ∧ maxRounds g1 = maxRounds g.

(** The exchange of two indices. *)
Definition transpose (i j k : nat) : nat :=
  if decide (k = i) then j else if decide (k = j) then i else k.

(** The held positions as the specification words them: at most two
    distinct indices among 0, 1 and 2. *)
Definition wellFormedPositions (positions : list Z) : Prop :=
  (length positions ≤ 2)%nat ∧ NoDup positions ∧ Forall (λ i, 0 ≤ i < 3) positions.

(** Concrete sessions for the examples: a game after its first draw, holding
    a Straight worth 6, created at time 1000. *)
Module Sample.

Definition hand : list Card :=
  [mkCard hearts R2; mkCard spades R3; mkCard clubs R4].

Definition restOfDeck : list Card := filter (λ c, c ∉ hand) orderedDeck.

Definition game (lastAction : option Z) : GameState :=
  mkGame "g1" "P" restOfDeck hand [] 1000 lastAction Straight 6 1
    GAME_CONFIG.MAX_ROUNDS false false false.

Definition byPlayer : Server :=
  mkServer [game (Some 1000)] [("P", 0%nat)] ∅ emptyLedger [].

Definition byGameId : Server :=
  mkServer [game None] [("g1", 0%nat)] ∅ emptyLedger [].

(** The same game once its three rounds are played. *)
Definition finished (lastAction : option Z) : GameState :=
  mkGame "g1" "P" restOfDeck hand [] 1000 lastAction Straight 6 3
    GAME_CONFIG.MAX_ROUNDS true false false.

End Sample.

(** ** Further handlers of the player-keyed server *)

Module Sessions.

(** The answer of the start and reset handlers; the reset handler sends no
    [serverTime]. The [message] text is left out. *)
Record StartBody := mkStartBody {
  sb_gameId : string;
  sb_playerId : string;
  sb_cards : list Card;
  sb_combination : Combination;
  sb_reward : Z;
  sb_roundsLeft : Z;
  sb_isEnded : bool;
  sb_timeRemaining : Z;
  sb_maxRounds : Z;
  sb_serverTime : option Z
}.

Inductive StartResponse :=
  | StartError (status : Z) (error : string)
  | StartOk (body : StartBody).

Inductive TimeResponse :=
  | TimeError (status : Z) (error : string)
  | TimeOk (body : ByPlayer.TimeCheck).

(** [playerGameSessions.has(playerId)] *)
Definition registryHas (m : list (string * nat)) (k : string) : bool :=
  bool_decide (is_Some (registryGet m k)).

(** The registry once the new object is stored in it: an existing game of
    the player is deleted first, the object is allocated, and
    [playerGameSessions.set(playerId, gameState)] puts it last. *)
Definition register (playerId : string) (gameState : GameState) (s : Server) : Server :=
  let s1 :=
    if registryHas (games s) playerId
    then set_games (registryDelete (games s) playerId) s else s in
  let ref := length (heap s1) in
  set_games (registrySet (games s1) playerId ref) (set_heap (heap s1 ++ [gameState]) s1).

Section Handlers.
Context {web3 : Web3}.

(** [POST /lucky-triple/start]. [gid] stands for the fresh
    [`${Date.now()}-${Math.random().toString(36).substr(2, 9)}`], [rnd] for
    the random draws of the shuffle; an absent [playerId] is the empty
    string and [entryFeePaid] is taken by its truthiness. *)
Definition start (now : Z) (gid : string) (rnd : nat → nat)
    (playerId : string) (entryFeePaid : bool) (s : Server) : Server * StartResponse :=
  if bool_decide (playerId = "") then (s, StartError 400 "Player ID is required")
  else if negb (validPublicKey playerId) then
    (s, StartError 400 "Invalid player account. Must be a valid Solana address.")
  else if negb entryFeePaid then
    (s, StartError 400 "Entry fee of 3 CARDS must be paid before creating a game")
  else
    let deck := createAndShuffleLuckyTripleDeck rnd in
    let startTime := now in
    let gameState := ByPlayer.newGameState gid playerId deck startTime in
    (register playerId gameState s,
     StartOk
       (mkStartBody gid playerId [] NoCombination 0 GAME_CONFIG.MAX_ROUNDS false
          (GAME_CONFIG.GAME_TIMEOUT_MS / 1000) GAME_CONFIG.MAX_ROUNDS (Some startTime))).

(** [POST /lucky-triple/reset] *)
Definition reset (now : Z) (gid : string) (rnd : nat → nat)
    (playerId : string) (entryFeePaid : bool) (s : Server) : Server * StartResponse :=
  if bool_decide (playerId = "") then (s, StartError 400 "Player ID is required")
  else if negb (validPublicKey playerId) then
    (s, StartError 400 "Invalid player account. Must be a valid Solana address.")
  else if negb entryFeePaid then
    (s, StartError 400 "Entry fee of 3 CARDS must be paid before resetting a game")
  else
    let deck := createAndShuffleLuckyTripleDeck rnd in
    let gameState := ByPlayer.newGameState gid playerId deck now in
    (register playerId gameState s,
     StartOk
       (mkStartBody gid playerId [] NoCombination 0 GAME_CONFIG.MAX_ROUNDS false
          (ceilSeconds GAME_CONFIG.GAME_TIMEOUT_MS) GAME_CONFIG.MAX_ROUNDS None)).

End Handlers.

(** [GET /lucky-triple/time/:gameId] *)
Definition time (now : Z) (gid : string) (s : Server) : Server * TimeResponse :=
  match ByPlayer.findGame (heap s) (games s) gid with
  | None => (s, TimeError 404 "Game not found")
  | Some (pid, ref, gameState) =>
      let elapsed := now - timestamp gameState in
      let timeRemaining := Z.max 0 (GAME_CONFIG.GAME_TIMEOUT_MS - elapsed) in
      if (timeRemaining <=? 0) && negb (isEnded gameState) then
        let s1 := update ref (λ g, set_timedOut true (set_isEnded true g)) s in
        let s2 :=
          set_completedGames
            (<[gameId gameState := mkCompleted pid timeout now true]> (completedGames s1)) s1 in
        (s2, TimeOk (ByPlayer.mkTimeCheck 0 true true now))
      else
        (s, TimeOk (ByPlayer.mkTimeCheck (ceilSeconds timeRemaining) false
                      (isEnded gameState) now))
  end.

(** [a || b] on numbers, an absent number being 0. *)
Definition orElse (a b : Z) : Z := if a =? 0 then b else a.

(** [gameState.lastActionTime || gameState.timestamp || 0] *)
Definition lastActive (gameState : GameState) : Z :=
  orElse (orElse (default 0 (lastActionTime gameState)) (timestamp gameState)) 0.

(** One turn of the loop of [cleanupInactiveGameSessions]. *)
Definition sweepSession (oneHourAgo : Z) (s : Server) (entry : string * nat) : Server :=
  match heap s !! entry.2 with
  | Some gameState =>
      if lastActive gameState <? oneHourAgo
      then set_games (registryDelete (games s) entry.1) s
      else s
  | None => s
  end.

(** [cleanupInactiveGameSessions], run every 30 minutes. *)
Definition cleanupInactiveGameSessions (now : Z) (s : Server) : Server :=
  let oneHourAgo := now - 60 * 60 * 1000 in
  foldl (sweepSession oneHourAgo) s (games s).

(** [cleanupOldCompletedGames], the same in both servers. *)
Definition cleanupOldCompletedGames (now : Z) (s : Server) : Server :=
  let twentyFourHoursAgo := now - 24 * 60 * 60 * 1000 in
  set_completedGames
    (filter (λ entry, ¬ cg_timestamp entry.2 < twentyFourHoursAgo) (completedGames s)) s.

End Sessions.

(** ** The sweep of the game-keyed server *)

Module Sweeps.

(** One turn of the loop of [cleanupTimedOutGames]; [activePlayers], which
    only the start handler of this server reads, is left out as before. *)
Definition sweepGame (now : Z) (s : Server) (entry : string * nat) : Server :=
  match heap s !! entry.2 with
  | Some gameState =>
      if isEnded gameState then set_games (registryDelete (games s) entry.1) s
      else if now - timestamp gameState >? GAME_CONFIG.GAME_TIMEOUT_MS then
        let '(s1, _) := ByGameId.handleTimedOutGame now entry.2 gameState s in
        set_games (registryDelete (games s1) entry.1) s1
      else s
  | None => s
  end.

(** [cleanupTimedOutGames], run every 20 seconds. *)
Definition cleanupTimedOutGames (now : Z) (s : Server) : Server :=
  foldl (sweepGame now) s (games s).

End Sweeps.

(** ** Auxiliary definitions for the further properties *)

(** The registry is a map (one entry per key) whose references are
    allocated. *)
Definition registryOk (s : Server) : Prop :=
  NoDup (games s).*1 ∧ ∀ k ref, (k, ref) ∈ games s → is_Some (heap s !! ref).

(** Two states of a game object with the same identity, hand, round and
    payment flag: only the held positions, the flags [isEnded] and
    [timedOut] and the time of the last action may differ. *)
Definition samePlay (g' g : GameState) : Prop :=
  gameId g' = gameId g ∧ playerId g' = playerId g ∧ timestamp g' = timestamp g
  ∧ cards g' = cards g ∧ deck g' = deck g
  ∧ currentCombination g' = currentCombination g ∧ currentReward g' = currentReward g
  ∧ roundsPlayed g' = roundsPlayed g ∧ maxRounds g' = maxRounds g
  ∧ rewardPaid g' = rewardPaid g.

(** A handler that reads: it sends nothing, starts no payout, and leaves
    every game object with the same play. *)
Definition onlyReads (s s' : Server) : Prop :=
  ledger s' = ledger s ∧ tasks s' = tasks s
  ∧ length (heap s') = length (heap s)
  ∧ ∀ ref g, heap s !! ref = Some g → ∃ g', heap s' !! ref = Some g' ∧ samePlay g' g.

(** Whether the sweep of the player-keyed server keeps an entry. *)
Definition active (oneHourAgo : Z) (h : list GameState) (e : string * nat) : Prop :=
  ∀ g, h !! e.2 = Some g → ¬ Sessions.lastActive g < oneHourAgo.

(** Whether the sweep of the game-keyed server keeps an entry, and whether
    it flags the object of an entry. *)
Definition running (now : Z) (h : list GameState) (e : string * nat) : Prop :=
  ∀ g, h !! e.2 = Some g →
       isEnded g = false ∧ ¬ GAME_CONFIG.GAME_TIMEOUT_MS < now - timestamp g.

Definition overdue (now : Z) (g : GameState) : bool :=
  negb (isEnded g) && (now - timestamp g >? GAME_CONFIG.GAME_TIMEOUT_MS).

(** The number of transactions sent under a key. *)
Definition sentFor (k : string) (l : Ledger) : nat :=
  length (filter (λ sub, submissionKey sub = k) (gateway l)).

(** What every reachable ledger satisfies beyond [dispatchInv]: a suspended
    [sendCardsReward] has its entry at [pending] and is the only one for its
    key; it has sent its transaction unless it still awaits the accounts; a
    [completed] entry has exactly one transaction; every transaction has an
    entry. *)
Definition settledInv (d : Dispatch) : Prop :=
  Forall (λ t, paidRewards (d_ledger d) !! sendKey t = Some pending) (d_inflight d)
  ∧ NoDup (sendKey <$> d_inflight d)
  ∧ Forall (λ t, sentFor (sendKey t) (d_ledger d)
                 = if decide (snd_phase t = AwaitAccounts) then 0%nat else 1%nat)
      (d_inflight d)
  ∧ (∀ k, paidRewards (d_ledger d) !! k = Some completed → sentFor k (d_ledger d) = 1%nat)
  ∧ Forall (λ sub, is_Some (paidRewards (d_ledger d) !! submissionKey sub))
      (gateway (d_ledger d)).

(** ** Runs of the player-keyed server *)

Module Play.

(** What happens to the server, one event at a time: the requests, a
    suspended [processReward] running on, a [setTimeout] callback deleting
    the session of a player, and the periodic sweeps.
    [cleanupOldPaidRewards] deletes entries of [paidRewards] chosen by
    parsing their keys; here any set of keys may go. *)
Inductive Event :=
  | Start (now : Z) (gid : string) (rnd : nat → nat) (playerId : string) (entryFeePaid : bool)
  | Reset (now : Z) (gid : string) (rnd : nat → nat) (playerId : string) (entryFeePaid : bool)
  | Hold (now : Z) (gid : string) (cardIndexes : list Z)
  | Draw (now : Z) (rnd : nat → nat) (gid : string)
  | Check (now : Z) (gid : string)
  | Status (now : Z) (gid : string)
  | Time (now : Z) (gid : string)
  | RewardResumes (i : nat) (ok : bool)
  | DelayedDelete (playerId : string)
  | SweepSessions (now : Z)
  | SweepCompleted (now : Z)
  | PruneRewards (pruned : string → bool).

Definition pruneRewards (pruned : string → bool) (s : Server) : Server :=
  set_ledger
    (mkLedger (filter (λ entry, pruned entry.1 = false) (paidRewards (ledger s)))
       (gateway (ledger s))) s.

Section Machine.
Context {web3 : Web3}.

Definition step (s : Server) (e : Event) : Server :=
  match e with
  | Start now gid rnd playerId entryFeePaid =>
      (Sessions.start now gid rnd playerId entryFeePaid s).1
  | Reset now gid rnd playerId entryFeePaid =>
      (Sessions.reset now gid rnd playerId entryFeePaid s).1
  | Hold now gid cardIndexes => (ByPlayer.hold now gid cardIndexes s).1
  | Draw now rnd gid => (ByPlayer.draw now rnd gid s).1
  | Check now gid => (ByPlayer.check now gid s).1
  | Status now gid => (ByPlayer.status now gid s).1
  | Time now gid => (Sessions.time now gid s).1
  | RewardResumes i ok => resumeTask false i ok s
  | DelayedDelete playerId => set_games (registryDelete (games s) playerId) s
  | SweepSessions now => Sessions.cleanupInactiveGameSessions now s
  | SweepCompleted now => Sessions.cleanupOldCompletedGames now s
  | PruneRewards pruned => pruneRewards pruned s
  end.

(** The server at launch: the three maps are empty. *)
Definition launched : Server := mkServer [] [] ∅ emptyLedger [].

Definition run (events : list Event) : Server := foldl step launched events.

End Machine.

End Play.

(** ** Auxiliary definitions for the properties of runs *)

(** What holds of every game object the player-keyed server ever has. *)
Definition tableOk (g : GameState) : Prop :=
  maxRounds g = GAME_CONFIG.MAX_ROUNDS
  ∧ 0 ≤ roundsPlayed g ≤ 3
  ∧ (roundsPlayed g = 3 → isEnded g = true)
  ∧ NoDup (deck g ++ cards g)
  ∧ 24 ≤ Z.of_nat (length (deck g)) + 3 * roundsPlayed g
  ∧ length (cards g) = (if roundsPlayed g =? 0 then 0%nat else 3%nat)
  ∧ evaluateHandCombination (cards g) = mkHand (currentCombination g) (currentReward g)
  ∧ playerId g ≠ "".

(** How a game object may differ from an earlier state of itself: identity
    and creation time stay, rounds are only added, a payment mark stays,
    and once the game has ended it stays ended with the same hand. *)
Definition evolves (g g' : GameState) : Prop :=
  gameId g' = gameId g ∧ playerId g' = playerId g ∧ timestamp g' = timestamp g
  ∧ roundsPlayed g ≤ roundsPlayed g'
  ∧ (rewardPaid g = true → rewardPaid g' = true)
  ∧ (isEnded g = true →
     isEnded g' = true ∧ cards g' = cards g ∧ deck g' = deck g
     ∧ currentCombination g' = currentCombination g
     ∧ currentReward g' = currentReward g ∧ roundsPlayed g' = roundsPlayed g).

Definition heapEvolves (s s' : Server) : Prop :=
  ∀ ref g, heap s !! ref = Some g → ∃ g', heap s' !! ref = Some g' ∧ evolves g g'.

(** A payout under way, or the transaction it has sent, pays the reward of
    the ended game [g] to the player of [g]. *)
Definition paysFor (g : GameState) (receiver gid : string) (amount : Z) : Prop :=
  isEnded g = true ∧ 0 < currentReward g
  ∧ receiver = playerId g ∧ gid = gameId g ∧ amount = currentReward g.

Definition taskOk (s : Server) (task : RewardTask) : Prop :=
  match task with
  | AwaitingNull ref => is_Some (heap s !! ref)
  | AwaitingSend ref t =>
      ∃ g, heap s !! ref = Some g
           ∧ paysFor g (snd_receiver t) (snd_gameId t) (snd_amount t)
  end.

Definition submissionOk (s : Server) (sub : Submission) : Prop :=
  ∃ ref g amount, heap s !! ref = Some g
    ∧ paysFor g (sub_receiver sub) (sub_gameId sub) amount
    ∧ sub_tokenAmount sub = amount * 10 ^ 9.

(** What holds of every state the player-keyed server reaches. *)
Definition serverOk (s : Server) : Prop :=
  registryOk s
  ∧ Forall tableOk (heap s)
  ∧ Forall (taskOk s) (tasks s)
  ∧ Forall (submissionOk s) (gateway (ledger s)).

(** A transition that keeps the server sound and lets its game objects
    evolve. *)
Definition advances (s s' : Server) : Prop :=
  heapEvolves s s' ∧ (serverOk s → serverOk s').

(** * Properties *)

(** ** The hand evaluator *)

Section Evaluator.

Lemma sameSuitOf_three a b c :
  sameSuitOf [a; b; c] = true ↔ HandRules.allSameSuit a b c.
Proof.
  unfold sameSuitOf, HandRules.allSameSuit. cbn [forallb].
  rewrite !andb_true_iff, !bool_decide_eq_true.
  split; [intros (_ & H1 & H2 & _) | intros [H1 H2]]; repeat split; congruence.
Qed.

Lemma sameRankOf_three a b c :
  sameRankOf [a; b; c] = true ↔ HandRules.allSameRank a b c.
Proof.
  unfold sameRankOf, HandRules.allSameRank. cbn [forallb].
  rewrite !andb_true_iff, !bool_decide_eq_true.
  split; [intros (_ & H1 & H2 & _) | intros [H1 H2]]; repeat split; congruence.
Qed.

Lemma isStraightOf_three a b c :
  isStraightOf (sortByRank [a; b; c]) = true ↔ HandRules.consecutive a b c.
Proof.
  destruct a as [sa ra], b as [sb rb], c as [sc rc].
  unfold HandRules.consecutive; cbn [rank].
  destruct ra, rb, rc; cbn; split; (lia || discriminate || reflexivity).
Qed.

Lemma sameRank_not_consecutive a b c :
  HandRules.allSameRank a b c → ¬ HandRules.consecutive a b c.
Proof.
  unfold HandRules.allSameRank, HandRules.consecutive.
  intros [-> ->]. lia.
Qed.

Lemma evaluate_three a b c :
  evaluateHandCombination [a; b; c] =
    let l := [a; b; c] in
    if sameRankOf l && sameSuitOf l then mkHand LuckyTriple 15
    else if sameRankOf l then mkHand Triple 9
    else if isStraightOf (sortByRank l) && sameSuitOf l then mkHand StraightFlush 12
    else if isStraightOf (sortByRank l) then mkHand Straight 6
    else if sameSuitOf l then mkHand Flush 5
    else mkHand NoCombination 0.
Proof. reflexivity. Qed.

(** C3. Every hand of three cards satisfies exactly one of the six rules
    of the specification, namely the one [evaluateHandCombination]
    returns; the reward returned is the one tabulated for that label; the
    rewards are 15 > 12 > 9 > 6 > 5 > 0 in the order Lucky Triple,
    Straight Flush, Triple, Straight, Flush, None; and no test of the
    if-chain that the hand passes carries a higher reward than the one
    returned (nothing is shadowed by an earlier test). *)
Theorem evaluateHandCombination_exclusive_ordered (a b c : Card) :
  let result := evaluateHandCombination [a; b; c] in
  (∀ l, HandRules.rule l a b c ↔ l = combination result)
  ∧ reward result = REWARDS (combination result)
  ∧ (REWARDS LuckyTriple = 15 ∧ REWARDS StraightFlush = 12 ∧ REWARDS Triple = 9
     ∧ REWARDS Straight = 6 ∧ REWARDS Flush = 5 ∧ REWARDS NoCombination = 0)
  ∧ (REWARDS LuckyTriple > REWARDS StraightFlush
     ∧ REWARDS StraightFlush > REWARDS Triple
     ∧ REWARDS Triple > REWARDS Straight
     ∧ REWARDS Straight > REWARDS Flush
     ∧ REWARDS Flush > REWARDS NoCombination)
  ∧ (∀ l, chainTest l [a; b; c] = true → REWARDS l ≤ reward result).
Proof.
  intros result. subst result. rewrite evaluate_three. cbv zeta.
  pose proof (sameSuitOf_three a b c) as Hsuit.
  pose proof (sameRankOf_three a b c) as Hrank.
  pose proof (isStraightOf_three a b c) as Hstraight.
  pose proof (sameRank_not_consecutive a b c) as Hexcl.
  unfold chainTest.
  destruct (sameRankOf [a; b; c]), (sameSuitOf [a; b; c]),
    (isStraightOf (sortByRank [a; b; c])); cbn [andb combination reward];
    (split; [| split; [reflexivity | split; [cbn; tauto | split; [cbn; lia |]]]]);
    try (intros []; cbn; (lia || discriminate));
    try (intros []; cbn [HandRules.rule]; split; intros; try discriminate;
         try reflexivity; intuition (discriminate || congruence)).
Qed.

(** The evaluator sees the suits and ranks only through tests that do not
    depend on the order of the cards. *)
Lemma sameSuitOf_all (l : list Card) :
  sameSuitOf l = true ↔ ∀ x y, x ∈ l → y ∈ l → suit x = suit y.
Proof.
  destruct l as [|c0 l']; [split; [intros _ x y Hx; inversion Hx | done]|].
  unfold sameSuitOf. rewrite forallb_forall. split.
  - intros H x y Hx Hy.
    apply list_elem_of_In, H, bool_decide_eq_true in Hx.
    apply list_elem_of_In, H, bool_decide_eq_true in Hy. congruence.
  - intros H x Hx. apply bool_decide_eq_true, H.
    + by apply list_elem_of_In.
    + left.
Qed.

Lemma sameRankOf_all (l : list Card) :
  sameRankOf l = true ↔ ∀ x y, x ∈ l → y ∈ l → rank x = rank y.
Proof.
  destruct l as [|c0 l']; [split; [intros _ x y Hx; inversion Hx | done]|].
  unfold sameRankOf. rewrite forallb_forall. split.
  - intros H x y Hx Hy.
    apply list_elem_of_In, H, bool_decide_eq_true in Hx.
    apply list_elem_of_In, H, bool_decide_eq_true in Hy. congruence.
  - intros H x Hx. apply bool_decide_eq_true, H.
    + by apply list_elem_of_In.
    + left.
Qed.

Lemma bool_eq_of_iff (b1 b2 : bool) : (b1 = true ↔ b2 = true) → b1 = b2.
Proof. destruct b1, b2; intuition congruence. Qed.

Lemma sameSuitOf_Permutation (l l' : list Card) :
  l ≡ₚ l' → sameSuitOf l = sameSuitOf l'.
Proof.
  intros Hp. apply bool_eq_of_iff. rewrite !sameSuitOf_all.
  split; intros H x y Hx Hy; apply H; by (rewrite Hp || rewrite <- Hp).
Qed.

Lemma sameRankOf_Permutation (l l' : list Card) :
  l ≡ₚ l' → sameRankOf l = sameRankOf l'.
Proof.
  intros Hp. apply bool_eq_of_iff. rewrite !sameRankOf_all.
  split; intros H x y Hx Hy; apply H; by (rewrite Hp || rewrite <- Hp).
Qed.

Lemma insertByRank_values c l :
  map rankValue (insertByRank c l) = insertValue (rankValue c) (map rankValue l).
Proof.
  induction l as [|d l IH]; [done|]. cbn [insertByRank map insertValue].
  fold (rankValue c) (rankValue d).
  destruct (rankValue c - rankValue d >? 0); cbn [map]; by rewrite ?IH.
Qed.

Lemma sortByRank_values l :
  map rankValue (sortByRank l) = sortValues (map rankValue l).
Proof.
  induction l as [|c l IH]; [done|]. cbn [sortByRank sortValues foldr map].
  fold (sortByRank l) (sortValues (map rankValue l)).
  by rewrite insertByRank_values, IH.
Qed.

Lemma gapsAreOne_values p l :
  gapsAreOne p l = valueGapsAreOne (rankValue p) (map rankValue l).
Proof.
  revert p. induction l as [|c l IH]; intros p; [done|].
  cbn [gapsAreOne map valueGapsAreOne]. by rewrite IH.
Qed.

Lemma isStraightOf_values l : isStraightOf l = valuesStraight (map rankValue l).
Proof. destruct l; [done|]. apply gapsAreOne_values. Qed.

Lemma insertValue_comm x y l :
  insertValue x (insertValue y l) = insertValue y (insertValue x l).
Proof.
  induction l as [|z l IH]; cbn [insertValue].
  - destruct (x - y >? 0) eqn:Hxy, (y - x >? 0) eqn:Hyx; try done; try lia.
    assert (x = y) by lia. by subst.
  - destruct (y - z >? 0) eqn:Hyz, (x - z >? 0) eqn:Hxz; cbn [insertValue];
      rewrite ?Hyz, ?Hxz; try done.
    + by rewrite IH.
    + assert ((y - x >? 0) = true) as -> by lia. done.
    + assert ((x - y >? 0) = true) as -> by lia. done.
    + destruct (x - y >? 0) eqn:Hxy, (y - x >? 0) eqn:Hyx; rewrite ?Hyz, ?Hxz;
        try done; try lia.
      assert (x = y) by lia. by subst.
Qed.

Lemma sortValues_Permutation (l l' : list Z) : l ≡ₚ l' → sortValues l = sortValues l'.
Proof.
  induction 1 as [|x l l' _ IH|x y l|l l' l'' _ IH1 _ IH2].
  - done.
  - unfold sortValues in *. cbn [foldr]. by rewrite IH.
  - unfold sortValues. cbn [foldr]. apply insertValue_comm.
  - congruence.
Qed.

(** C4. [evaluateHandCombination] gives the same label and the same reward
    on any two arrangements of the same cards. *)
Theorem evaluateHandCombination_permutation (hand permuted : list Card) :
  hand ≡ₚ permuted →
  evaluateHandCombination permuted = evaluateHandCombination hand.
Proof.
  intros Hp. unfold evaluateHandCombination.
  rewrite <- (Permutation_length Hp).
  rewrite <- (sameSuitOf_Permutation _ _ Hp), <- (sameRankOf_Permutation _ _ Hp).
  rewrite !isStraightOf_values, !sortByRank_values.
  by rewrite <- (sortValues_Permutation _ _ (Permutation_map rankValue Hp)).
Qed.

Lemma evaluateHandCombination_permutation_witness :
  let a := mkCard hearts R4 in
  let b := mkCard spades R2 in
  let c := mkCard clubs R3 in
  [a; b; c] ≡ₚ [c; a; b]
  ∧ evaluateHandCombination [c; a; b] = evaluateHandCombination [a; b; c]
  ∧ evaluateHandCombination [a; b; c] = mkHand Straight 6.
Proof.
  intros a b c.
  assert ([a; b; c] ≡ₚ [c; a; b]) as Hp.
  { change ([a; b] ++ [c] ≡ₚ [c] ++ [a; b]). apply Permutation_app_comm. }
  split; [exact Hp|].
  split; [exact (evaluateHandCombination_permutation _ _ Hp) | reflexivity].
Defined.

(** Cards of equal rank keep the order they had in the hand. *)
Example sortByRank_stable :
  sortByRank [mkCard hearts R2; mkCard spades R2; mkCard clubs RA]
  = [mkCard clubs RA; mkCard hearts R2; mkCard spades R2].
Proof. reflexivity. Qed.

End Evaluator.

(** ** Reward payout *)

Section PayoutProperties.
Context {web3 : Web3}.



Lemma filter_length_none {A} (P : A → Prop) `{!∀ x, Decision (P x)} (l : list A) :
  Forall (λ x, ¬ P x) l → length (filter P l) = 0%nat.
Proof.
  induction 1 as [|x l Hx _ IH]; [done|]. by rewrite filter_cons_False.
Qed.

Lemma is_Some_setStatus key st l k :
  is_Some (paidRewards l !! k) → is_Some (paidRewards (setStatus key st l) !! k).
Proof.
  intros H. cbn. destruct (decide (key = k)) as [->|Hne].
  - rewrite lookup_insert_eq. eauto.
  - by rewrite lookup_insert_ne.
Qed.







End PayoutProperties.


(** ** The registry and the heap *)

Section Registry.

Lemma registryGet_set_same (m : list (string * nat)) k v :
  registryGet m k = Some v → registrySet m k v = m.
Proof.
  induction m as [|[k' v'] m IH]; cbn; [done|].
  case_bool_decide as Hk; [by intros [= ->]; subst|].
  intros H. by rewrite IH.
Qed.

Lemma registryGet_delete (m : list (string * nat)) k :
  registryGet (registryDelete m k) k = None.
Proof.
  unfold registryDelete. induction m as [|[k' v'] m IH]; [done|].
  rewrite filter_cons. cbn [fst]. case_decide as Hk; [|exact IH].
  cbn [registryGet]. by rewrite bool_decide_eq_false_2.
Qed.

Lemma registryGet_elem_of (m : list (string * nat)) k v :
  NoDup m.*1 → (k, v) ∈ m → registryGet m k = Some v.
Proof.
  induction m as [|[k' v'] m IH]; [by intros _ ?%elem_of_nil|].
  rewrite fmap_cons, NoDup_cons. cbn [fst]. intros [Hk' Hnd] Hin.
  apply elem_of_cons in Hin as [[= <- <-]|Hin]; cbn [registryGet].
  - by rewrite bool_decide_eq_true_2.
  - rewrite bool_decide_eq_false_2; [by apply IH|].
    intros ->. apply Hk'. apply list_elem_of_fmap. by exists (k, v).
Qed.

Lemma findGame_Some h entries gid pid ref g :
  ByPlayer.findGame h entries gid = Some (pid, ref, g) →
  h !! ref = Some g ∧ gameId g = gid ∧ (pid, ref) ∈ entries.
Proof.
  induction entries as [|[pid' ref'] entries IH]; cbn [ByPlayer.findGame]; [done|].
  destruct (h !! ref') as [state|] eqn:Hh.
  - case_bool_decide as Hg.
    + intros [= <- <- <-]. repeat split; [done..|left].
    + intros (? & ? & ?)%IH. repeat split; [done..|by right].
  - intros (? & ? & ?)%IH. repeat split; [done..|by right].
Qed.

Lemma getGame_Some s gid ref g :
  ByGameId.getGame s gid = Some (ref, g) →
  registryGet (games s) gid = Some ref ∧ heap s !! ref = Some g.
Proof.
  unfold ByGameId.getGame.
  destruct (registryGet (games s) gid) as [r|]; [|done].
  destruct (heap s !! r) as [g'|] eqn:Hh; [|done].
  by intros [= <- <-].
Qed.

End Registry.

(** ** Holding cards *)

Section Hold.

(** C9, as the code has it. For a game that is found, in either server: a
    hold is accepted exactly when at most two positions are sent and one
    or two rounds have been played. More than two positions are refused
    with the hold-count error; otherwise a hold outside the round window
    is refused with the round error. What the positions are is not looked
    at: the list is stored as it was sent. *)
Theorem hold_accepted_iff (now : Z) (gid : string) (cardIndexes : list Z) (s : Server) :
  (∀ pid ref g,
     ByPlayer.findGame (heap s) (games s) gid = Some (pid, ref, g) →
     0 ≤ roundsPlayed g →
     let result := ByPlayer.hold now gid cardIndexes s in
     (result.2 = ByPlayer.HoldOk cardIndexes
      ↔ (length cardIndexes ≤ 2)%nat ∧ 0 < roundsPlayed g < 3)
     ∧ ((2 < length cardIndexes)%nat →
        result = (s, ByPlayer.Error 400 "Cannot hold more than 2 cards"))
     ∧ ((length cardIndexes ≤ 2)%nat → ¬ 0 < roundsPlayed g < 3 →
        result = (s, ByPlayer.Error 400 "Can only hold cards after first and second round"))
     ∧ (result.2 = ByPlayer.HoldOk cardIndexes →
        heap result.1 !! ref
        = Some (set_lastActionTime (Some now) (set_heldCards cardIndexes g))))
  ∧ (∀ ref g,
       ByGameId.getGame s gid = Some (ref, g) →
       0 ≤ roundsPlayed g →
       let result := ByGameId.hold gid cardIndexes s in
       (result.2 = ByGameId.HoldOk cardIndexes
        ↔ (length cardIndexes ≤ 2)%nat ∧ 0 < roundsPlayed g < 3)
       ∧ ((2 < length cardIndexes)%nat →
          result = (s, ByGameId.Error 400 "Cannot hold more than 2 cards"))
       ∧ ((length cardIndexes ≤ 2)%nat → ¬ 0 < roundsPlayed g < 3 →
          result = (s, ByGameId.Error 400 "Can only hold cards after first and second round"))
       ∧ (result.2 = ByGameId.HoldOk cardIndexes →
          heap result.1 !! ref = Some (set_heldCards cardIndexes g))).
Proof.
  split.
  - intros pid ref g Hfind Hrounds result. subst result. unfold ByPlayer.hold.
    rewrite Hfind. apply findGame_Some in Hfind as (Hheap & _ & _).
    destruct (2 <? length cardIndexes)%nat eqn:Hlen;
      [apply Nat.ltb_lt in Hlen | apply Nat.ltb_ge in Hlen].
    { cbn [fst snd]. repeat split; try done; try lia; try (intros [? ?]; lia). }
    destruct ((roundsPlayed g =? 0) || (roundsPlayed g >=? 3)) eqn:Hwin.
    { apply orb_true_iff in Hwin. cbn [fst snd].
      repeat split; try done; try lia; try (intros [? ?]; lia). }
    apply orb_false_iff in Hwin as [H0 H3]. cbn [fst snd].
    repeat split; try done; try lia.
    intros _. cbn. rewrite list_lookup_alter_eq, Hheap. done.
  - intros ref g Hfind Hrounds result. subst result. unfold ByGameId.hold.
    rewrite Hfind. apply getGame_Some in Hfind as (_ & Hheap).
    destruct (2 <? length cardIndexes)%nat eqn:Hlen;
      [apply Nat.ltb_lt in Hlen | apply Nat.ltb_ge in Hlen].
    { cbn [fst snd]. repeat split; try done; try lia; try (intros [? ?]; lia). }
    destruct ((roundsPlayed g =? 0) || (roundsPlayed g >=? 3)) eqn:Hwin.
    { apply orb_true_iff in Hwin. cbn [fst snd].
      repeat split; try done; try lia; try (intros [? ?]; lia). }
    apply orb_false_iff in Hwin as [H0 H3]. cbn [fst snd].
    repeat split; try done; try lia.
    intros _. cbn. rewrite list_lookup_alter_eq, Hheap. done.
Qed.

(** A hold never flags a game as ended or timed out, whatever the time. *)
Lemma hold_never_expires now gid cardIndexes s pid ref g :
  ByPlayer.findGame (heap s) (games s) gid = Some (pid, ref, g) →
  ∃ g', heap (ByPlayer.hold now gid cardIndexes s).1 !! ref = Some g'
        ∧ isEnded g' = isEnded g ∧ timedOut g' = timedOut g.
Proof.
  intros Hfind. pose proof (findGame_Some _ _ _ _ _ _ Hfind) as (Hheap & _ & _).
  unfold ByPlayer.hold. rewrite Hfind.
  destruct (2 <? length cardIndexes)%nat; [by exists g|].
  destruct ((roundsPlayed g =? 0) || (roundsPlayed g >=? 3)); [by exists g|].
  eexists. cbn. rewrite list_lookup_alter_eq, Hheap. done.
Qed.

End Hold.

Lemma hold_accepted_iff_witness :
  let s := Sample.byPlayer in
  let s' := Sample.byGameId in
  ByPlayer.findGame (heap s) (games s) "g1" = Some ("P", 0%nat, Sample.game (Some 1000))
  ∧ ByGameId.getGame s' "g1" = Some (0%nat, Sample.game None)
  ∧ (ByPlayer.hold 2000 "g1" [0; 1] s).2 = ByPlayer.HoldOk [0; 1]
  ∧ (ByGameId.hold "g1" [0; 1] s').2 = ByGameId.HoldOk [0; 1].
Proof.
  intros s s'.
  assert (ByPlayer.findGame (heap s) (games s) "g1"
          = Some ("P", 0%nat, Sample.game (Some 1000))) as Hfind by reflexivity.
  assert (ByGameId.getGame s' "g1" = Some (0%nat, Sample.game None)) as Hget
    by reflexivity.
  split; [exact Hfind|]. split; [exact Hget|].
  destruct (hold_accepted_iff 2000 "g1" [0; 1] s) as [Hp _].
  destruct (hold_accepted_iff 2000 "g1" [0; 1] s') as [_ Hg].
  split.
  - apply (Hp _ _ _ Hfind); cbn; [lia|]. split; [lia|]. lia.
  - apply (Hg _ _ Hget); cbn; [lia|]. split; [lia|]. lia.
Defined.

(** C9 as stated fails: a hold of the positions 0, 0 (a duplicate) and a
    hold of the position 7 are accepted and stored, in both servers. *)
Lemma hold_accepts_malformed_positions :
  ¬ (∀ (now : Z) (gid : string) (cardIndexes : list Z) (s : Server) pid ref g,
       ByPlayer.findGame (heap s) (games s) gid = Some (pid, ref, g) →
       0 ≤ roundsPlayed g →
       (ByPlayer.hold now gid cardIndexes s).2
       = ByPlayer.HoldOk cardIndexes
       ↔ 0 < roundsPlayed g < maxRounds g ∧ wellFormedPositions cardIndexes)
  ∧ (ByPlayer.hold 2000 "g1" [7] Sample.byPlayer).2
    = ByPlayer.HoldOk [7]
  ∧ (ByGameId.hold "g1" [0; 0] Sample.byGameId).2
    = ByGameId.HoldOk [0; 0]
  ∧ (ByGameId.hold "g1" [7] Sample.byGameId).2
    = ByGameId.HoldOk [7].
Proof.
  split; [|by vm_compute].
  intros H.
  specialize (H 2000 "g1" [0; 0] Sample.byPlayer "P" 0%nat (Sample.game (Some 1000))).
  destruct H as [H _]; [reflexivity | cbn; lia |].
  destruct H as (_ & _ & Hnd & _); [reflexivity|].
  apply NoDup_cons in Hnd as [Hnd _]. apply Hnd. left.
Qed.

(** ** Drawing on an ended game *)

Section DrawEnded.
Context {web3 : Web3}.

(** C7, as the code has it. A draw on a game that has ended (after its
    last round or otherwise) is refused with the error "Game has already
    ended" and changes nothing in the server, in both servers. *)
Theorem draw_on_ended_game_rejected (now : Z) (rnd : nat → nat) (gid : string) (s : Server) :
  (∀ pid ref g,
     ByPlayer.findGame (heap s) (games s) gid = Some (pid, ref, g) →
     isEnded g = true →
     ByPlayer.draw now rnd gid s = (s, ByPlayer.Error 400 "Game has already ended"))
  ∧ (∀ ref g,
       ByGameId.getGame s gid = Some (ref, g) →
       isEnded g = true →
       ByGameId.draw now rnd gid s = (s, ByGameId.Error 400 "Game has already ended")).
Proof.
  split.
  - intros pid ref g Hfind Hended. unfold ByPlayer.draw. by rewrite Hfind, Hended.
  - intros ref g Hfind Hended. unfold ByGameId.draw. by rewrite Hfind, Hended.
Qed.

End DrawEnded.

Lemma draw_on_ended_game_rejected_witness :
  let p := mkServer [Sample.finished (Some 1000)] [("P", 0%nat)] ∅ emptyLedger [] in
  let g := mkServer [Sample.finished None] [("g1", 0%nat)] ∅ emptyLedger [] in
  ByPlayer.findGame (heap p) (games p) "g1" = Some ("P", 0%nat, Sample.finished (Some 1000))
  ∧ ByGameId.getGame g "g1" = Some (0%nat, Sample.finished None)
  ∧ ByPlayer.draw (web3 := anyAddress) 2000 (λ _, 0%nat) "g1" p
    = (p, ByPlayer.Error 400 "Game has already ended")
  ∧ ByGameId.draw (web3 := anyAddress) 2000 (λ _, 0%nat) "g1" g
    = (g, ByGameId.Error 400 "Game has already ended").
Proof.
  intros p g.
  assert (ByPlayer.findGame (heap p) (games p) "g1"
          = Some ("P", 0%nat, Sample.finished (Some 1000))) as Hfind by reflexivity.
  assert (ByGameId.getGame g "g1" = Some (0%nat, Sample.finished None)) as Hget
    by reflexivity.
  split; [exact Hfind|]. split; [exact Hget|].
  split.
  - exact (proj1 (draw_on_ended_game_rejected (web3 := anyAddress) 2000 (λ _, 0%nat) "g1" p)
             _ _ _ Hfind eq_refl).
  - exact (proj2 (draw_on_ended_game_rejected (web3 := anyAddress) 2000 (λ _, 0%nat) "g1" g)
             _ _ Hget eq_refl).
Defined.

(** C7 as stated fails on the error returned: for a game whose three rounds
    are played and which is flagged as ended, the draw is not refused with
    "Maximum rounds reached for this game". *)
Lemma draw_after_last_round_not_max_rounds :
  let p := mkServer [Sample.finished (Some 1000)] [("P", 0%nat)] ∅ emptyLedger [] in
  let g := mkServer [Sample.finished None] [("g1", 0%nat)] ∅ emptyLedger [] in
  roundsPlayed (Sample.finished None) = maxRounds (Sample.finished None)
  ∧ isEnded (Sample.finished None) = true
  ∧ (ByPlayer.draw (web3 := anyAddress) 2000 (λ _, 0%nat) "g1" p).2
    ≠ ByPlayer.Error 400 "Maximum rounds reached for this game"
  ∧ (ByGameId.draw (web3 := anyAddress) 2000 (λ _, 0%nat) "g1" g).2
    ≠ ByGameId.Error 400 "Maximum rounds reached for this game".
Proof. intros p g. repeat split; vm_compute; discriminate. Qed.

(** ** Expiry *)

Section Expiry.
Context {web3 : Web3}.

Lemma verifyTimeRemaining_expired now ref pid s g :
  heap s !! ref = Some g →
  isEnded g = false →
  GAME_CONFIG.GAME_TIMEOUT_MS ≤ now - timestamp g →
  ∃ s1, ByPlayer.verifyTimeRemaining now ref pid s
        = (s1, Some (ByPlayer.mkTimeCheck 0 true true now))
        ∧ heap s1 !! ref = Some (set_timedOut true (set_isEnded true g))
        ∧ games s1 = games s ∧ ledger s1 = ledger s ∧ tasks s1 = tasks s
        ∧ (pid ≠ "" →
           completedGames s1 !! gameId g = Some (mkCompleted pid timeout now true)).
Proof.
  intros Hheap Hended Hlate. unfold ByPlayer.verifyTimeRemaining.
  rewrite Hheap, Hended.
  assert ((Z.max 0 (GAME_CONFIG.GAME_TIMEOUT_MS - (now - timestamp g)) <=? 0) = true)
    as -> by lia.
  cbn [andb negb]. eexists. split; [reflexivity|].
  case_bool_decide as Hpid; cbn.
  - rewrite list_lookup_alter_eq, Hheap. repeat split; try done.
    intros _. by rewrite lookup_insert_eq.
  - rewrite list_lookup_alter_eq, Hheap. repeat split; try done.
Qed.

Lemma verifyTimeRemaining_in_time now ref pid s g :
  heap s !! ref = Some g →
  isEnded g = true ∨ now - timestamp g < GAME_CONFIG.GAME_TIMEOUT_MS →
  ∃ remaining, ByPlayer.verifyTimeRemaining now ref pid s
          = (s, Some (ByPlayer.mkTimeCheck remaining false (isEnded g) now)).
Proof.
  intros Hheap Hok. unfold ByPlayer.verifyTimeRemaining. rewrite Hheap.
  destruct Hok as [->|Hlt].
  - rewrite andb_false_r. eauto.
  - assert ((Z.max 0 (GAME_CONFIG.GAME_TIMEOUT_MS - (now - timestamp g)) <=? 0) = false)
      as -> by lia.
    cbn [andb]. eauto.
Qed.



End Expiry.



(** ** Checking twice *)

Section CheckTwice.
Context {web3 : Web3}.

Lemma verifyTimeRemaining_cases now ref pid s g :
  heap s !! ref = Some g →
  (isEnded g = false ∧ GAME_CONFIG.GAME_TIMEOUT_MS ≤ now - timestamp g
   ∧ ∃ s1, ByPlayer.verifyTimeRemaining now ref pid s
           = (s1, Some (ByPlayer.mkTimeCheck 0 true true now)))
  ∨ ((isEnded g = true ∨ now - timestamp g < GAME_CONFIG.GAME_TIMEOUT_MS)
     ∧ ∃ remaining, ByPlayer.verifyTimeRemaining now ref pid s
               = (s, Some (ByPlayer.mkTimeCheck remaining false (isEnded g) now))).
Proof.
  intros Hheap.
  destruct (isEnded g) eqn:Hended.
  { right. split; [by left|].
    destruct (verifyTimeRemaining_in_time now ref pid s g Hheap) as [remaining H]; [by left|].
    rewrite Hended in H. eauto. }
  destruct (decide (GAME_CONFIG.GAME_TIMEOUT_MS ≤ now - timestamp g)) as [Hlate|Hnot].
  - left. repeat split; [done|].
    destruct (verifyTimeRemaining_expired now ref pid s g Hheap Hended Hlate)
      as (s1 & H & _). eauto.
  - right. split; [right; lia|].
    destruct (verifyTimeRemaining_in_time now ref pid s g Hheap) as [remaining H]; [right; lia|].
    rewrite Hended in H. eauto.
Qed.

Lemma processReward_frame ref s :
  heap (processReward ref s) = heap s
  ∧ games (processReward ref s) = games s
  ∧ completedGames (processReward ref s) = completedGames s.
Proof.
  unfold processReward. destruct (heap s !! ref) as [g|]; [|done].
  destruct (rewardPaid g); [done|].
  destruct (currentReward g <=? 0); [done|].
  by destruct (sendCardsReward _ _ _ _) as [l []].
Qed.

Lemma processReward_ledger ref s :
  ledger (processReward ref s)
  = match heap s !! ref with
    | Some g =>
        if rewardPaid g then ledger s
        else if currentReward g <=? 0 then ledger s
        else (sendCardsReward (playerId g) (gameId g) (currentReward g) (ledger s)).1
    | None => ledger s
    end.
Proof.
  unfold processReward. destruct (heap s !! ref) as [g|]; [|done].
  destruct (rewardPaid g); [done|].
  destruct (currentReward g <=? 0); [done|].
  by destruct (sendCardsReward _ _ _ _) as [l []].
Qed.

Lemma processReward_tasks ref s :
  tasks (processReward ref s)
  = match heap s !! ref with
    | Some g =>
        if rewardPaid g then tasks s
        else if currentReward g <=? 0 then tasks s
        else tasks s
             ++ taskOf ref
                  (sendCardsReward (playerId g) (gameId g) (currentReward g) (ledger s)).2
    | None => tasks s
    end.
Proof.
  unfold processReward. destruct (heap s !! ref) as [g|]; [|done].
  destruct (rewardPaid g); [done|].
  destruct (currentReward g <=? 0); [done|].
  destruct (sendCardsReward _ _ _ _) as [l []]; cbn; by rewrite ?app_nil_r.
Qed.



Lemma findGame_alter h entries gid pid ref g (f : GameState → GameState) :
  (∀ x, gameId (f x) = gameId x) →
  ByPlayer.findGame h entries gid = Some (pid, ref, g) →
  ByPlayer.findGame (alter f ref h) entries gid = Some (pid, ref, f g).
Proof.
  intros Hf. induction entries as [|[pid' ref'] entries IH]; cbn [ByPlayer.findGame]; [done|].
  destruct (decide (ref' = ref)) as [->|Hne].
  - rewrite list_lookup_alter_eq. destruct (h !! ref) as [state|] eqn:Hh; cbn [fmap option_fmap option_map].
    + rewrite Hf. case_bool_decide; [|exact IH]. by intros [= <- <-].
    + exact IH.
  - rewrite list_lookup_alter_ne by done.
    destruct (h !! ref') as [state|] eqn:Hh; [|exact IH].
    case_bool_decide; [|exact IH].
    intros [= <- <- <-]. done.
Qed.

Lemma check_accepted now gid s pid ref g :
  ByPlayer.findGame (heap s) (games s) gid = Some (pid, ref, g) →
  NoDup (games s).*1 →
  isEnded g = true ∨ now - timestamp g < GAME_CONFIG.GAME_TIMEOUT_MS →
  ∃ s1,
    ByPlayer.check now gid s
    = (s1, ByPlayer.CheckOk
             (ByPlayer.mkCheckBody (gameId g) pid (currentCombination g) (currentReward g)
                true true (currentReward g >? 0) 0 (rewardPaid g)))
    ∧ heap s1 = alter (λ g, set_lastActionTime (Some now) (set_isEnded true g)) ref (heap s)
    ∧ games s1 = games s
    ∧ completedGames s1
      = <[gameId g := mkCompleted pid (if currentReward g >? 0 then win else loss) now false]>
          (completedGames s)
    ∧ ledger s1
      = (if (currentReward g >? 0) && negb (rewardPaid g)
         then (sendCardsReward (playerId g) (gameId g) (currentReward g) (ledger s)).1
         else ledger s)
    ∧ tasks s1
      = if (currentReward g >? 0) && negb (rewardPaid g)
        then tasks s
             ++ taskOf ref
                  (sendCardsReward (playerId g) (gameId g) (currentReward g) (ledger s)).2
        else tasks s.
Proof.
  intros Hfind Hnodup Htime.
  pose proof (findGame_Some _ _ _ _ _ _ Hfind) as (Hheap & Hgid & Hin).
  destruct (verifyTimeRemaining_in_time now ref pid s g Hheap Htime) as [remaining Hverify].
  unfold ByPlayer.check. rewrite Hfind, Hverify. cbn [ByPlayer.tc_isTimedOut].
  set (F := λ g0 : GameState, set_lastActionTime (Some now) (set_isEnded true g0)).
  assert (current (update ref F s) ref g = F g) as Hcur.
  { unfold current. cbn. by rewrite list_lookup_alter_eq, Hheap. }
  rewrite Hcur.
  change (currentReward (F g)) with (currentReward g).
  change (gameId (F g)) with (gameId g).
  set (s3 := set_completedGames _ (update ref F s)).
  assert (heap s3 !! ref = Some (F g)) as Hheap3.
  { subst s3. cbn. by rewrite list_lookup_alter_eq, Hheap. }
  set (s4 := if currentReward g >? 0 then processReward ref s3 else s3).
  assert (heap s4 = heap s3 ∧ games s4 = games s3 ∧ completedGames s4 = completedGames s3)
    as (Hh4 & Hg4 & Hc4).
  { subst s4. destruct (currentReward g >? 0); [apply processReward_frame|done]. }
  assert (registrySet (games s4) pid ref = games s) as Hset.
  { rewrite Hg4. subst s3. cbn. apply registryGet_set_same.
    by apply registryGet_elem_of. }
  eexists. split.
  { f_equal. f_equal. unfold current. cbn [heap set_games]. rewrite Hh4, Hheap3. done. }
  cbn [heap games completedGames ledger tasks set_games]. rewrite Hh4, Hset, Hc4.
  repeat split; try done.
  - subst s4. destruct (currentReward g >? 0) eqn:Hpos; cbn [andb]; [|done].
    rewrite processReward_ledger, Hheap3.
    change (rewardPaid (F g)) with (rewardPaid g).
    destruct (rewardPaid g); cbn [negb]; [done|].
    assert ((currentReward (F g) <=? 0) = false) as -> by (cbn; lia). done.
  - subst s4. destruct (currentReward g >? 0) eqn:Hpos; cbn [andb]; [|done].
    rewrite processReward_tasks, Hheap3.
    change (rewardPaid (F g)) with (rewardPaid g).
    destruct (rewardPaid g); cbn [negb]; [done|].
    assert ((currentReward (F g) <=? 0) = false) as -> by (cbn; lia). done.
Qed.







(** Whatever the status of the entry under the key, pending or failed
    included, a [processReward] that finds it ends up marking the game as
    paid, and the ledger is left as it was. *)
Lemma processReward_on_existing_entry confirms ok ref s g st :
  heap s !! ref = Some g →
  rewardPaid g = false →
  0 < currentReward g →
  validPublicKey (playerId g) = true →
  paidRewards (ledger s) !! transactionKey (playerId g) (gameId g) = Some st →
  let s1 := processReward ref s in
  let s2 := resumeTask confirms (length (tasks s)) ok s1 in
  tasks s1 = tasks s ++ [AwaitingNull ref]
  ∧ ledger s2 = ledger s
  ∧ heap s2 !! ref = Some (set_rewardPaid true g).
Proof.
  intros Hheap Hpaid Hpos Hvalid Hentry s1 s2.
  assert (s1 = set_tasks (tasks s ++ [AwaitingNull ref]) (set_ledger (ledger s) s)) as Hs1.
  { subst s1. unfold processReward, sendCardsReward.
    rewrite Hheap, Hpaid, Hvalid. cbn [negb].
    assert ((currentReward g <=? 0) = false) as -> by lia.
    rewrite bool_decide_eq_true_2; [done|]. rewrite Hentry. eauto. }
  subst s2. rewrite Hs1. cbn [tasks set_tasks]. split; [done|].
  unfold resumeTask. cbn [tasks set_tasks].
  rewrite lookup_app_r, Nat.sub_diag by lia. cbn.
  by rewrite list_lookup_alter_eq, Hheap.
Qed.


End CheckTwice.



(** ** The deck *)

Section Deck.

Lemma transpose_inj i j : Inj (=) (=) (transpose i j).
Proof. intros x y. unfold transpose. repeat case_decide; congruence. Qed.

Lemma swap_Permutation deck i j : swap deck i j ≡ₚ deck.
Proof.
  unfold swap.
  destruct (deck !! i) as [ci|] eqn:Hi; [|done].
  destruct (deck !! j) as [cj|] eqn:Hj; [|done].
  pose proof (lookup_lt_Some _ _ _ Hi). pose proof (lookup_lt_Some _ _ _ Hj).
  apply Permutation_inj. split; [by rewrite !length_insert|].
  exists (transpose i j). split; [apply transpose_inj|].
  intros k. unfold transpose.
  destruct (decide (k = j)) as [->|Hkj].
  - rewrite list_lookup_insert_eq by (by rewrite length_insert).
    case_decide; congruence.
  - rewrite list_lookup_insert_ne by done.
    destruct (decide (k = i)) as [->|Hki].
    + by rewrite list_lookup_insert_eq.
    + by rewrite list_lookup_insert_ne.
Qed.

Lemma fisherYates_Permutation rnd i deck : fisherYates rnd i deck ≡ₚ deck.
Proof.
  revert deck. induction i as [|i IH]; intros deck; [done|].
  cbn [fisherYates]. rewrite IH. apply swap_Permutation.
Qed.

Lemma NoDup_orderedDeck : NoDup orderedDeck.
Proof. apply (bool_decide_unpack _). by vm_compute. Qed.

(** A shuffled deck holds the 24 cards of the ordered deck, each once. *)
Lemma createAndShuffleLuckyTripleDeck_Permutation rnd :
  createAndShuffleLuckyTripleDeck rnd ≡ₚ orderedDeck.
Proof. apply fisherYates_Permutation. Qed.

Lemma createAndShuffleLuckyTripleDeck_NoDup rnd :
  NoDup (createAndShuffleLuckyTripleDeck rnd).
Proof.
  rewrite createAndShuffleLuckyTripleDeck_Permutation. apply NoDup_orderedDeck.
Qed.

Lemma createAndShuffleLuckyTripleDeck_length rnd :
  length (createAndShuffleLuckyTripleDeck rnd) = 24%nat.
Proof. by rewrite createAndShuffleLuckyTripleDeck_Permutation. Qed.

(** A game starts with a deck from which nothing is drawn and in which no
    card occurs twice, in both servers. *)
Lemma newGameState_deck rnd gid pid startTime :
  NoDup (deck (ByPlayer.newGameState gid pid (createAndShuffleLuckyTripleDeck rnd) startTime)
         ++ [])
  ∧ NoDup (deck (ByGameId.newGameState gid pid (createAndShuffleLuckyTripleDeck rnd) startTime)
           ++ []).
Proof.
  cbn [deck ByPlayer.newGameState ByGameId.newGameState]. rewrite app_nil_r.
  split; apply createAndShuffleLuckyTripleDeck_NoDup.
Qed.

Lemma pop_snoc (d : list Card) c : pop (d ++ [c]) = (Some c, d).
Proof. unfold pop. by rewrite last_snoc, removelast_last. Qed.

Lemma last_three (d : list Card) :
  (3 ≤ length d)%nat → ∃ d' c3 c2 c1, d = d' ++ [c3; c2; c1].
Proof.
  intros Hlen.
  destruct (decide (d = [])) as [->|Hne1]; [cbn in Hlen; lia|].
  destruct (exists_last Hne1) as (d1 & c1 & ->).
  rewrite length_app in Hlen. cbn in Hlen.
  destruct (decide (d1 = [])) as [->|Hne2]; [cbn in Hlen; lia|].
  destruct (exists_last Hne2) as (d2 & c2 & ->).
  rewrite length_app in Hlen. cbn in Hlen.
  destruct (decide (d2 = [])) as [->|Hne3]; [cbn in Hlen; lia|].
  destruct (exists_last Hne3) as (d3 & c3 & ->).
  exists d3, c3, c2, c1. by rewrite <- !app_assoc.
Qed.

Lemma dealHand_three firstRound held previousCards d c3 c2 c1 :
  dealHand firstRound held previousCards (d ++ [c3; c2; c1])
  = match isFreshAt firstRound held 0, isFreshAt firstRound held 1,
          isFreshAt firstRound held 2 with
    | true, true, true => ([Some c1; Some c2; Some c3], d)
    | true, true, false => ([Some c1; Some c2; previousCards !! 2%nat], d ++ [c3])
    | true, false, true => ([Some c1; previousCards !! 1%nat; Some c2], d ++ [c3])
    | false, true, true => ([previousCards !! 0%nat; Some c1; Some c2], d ++ [c3])
    | true, false, false =>
        ([Some c1; previousCards !! 1%nat; previousCards !! 2%nat], d ++ [c3; c2])
    | false, true, false =>
        ([previousCards !! 0%nat; Some c1; previousCards !! 2%nat], d ++ [c3; c2])
    | false, false, true =>
        ([previousCards !! 0%nat; previousCards !! 1%nat; Some c1], d ++ [c3; c2])
    | false, false, false =>
        ([previousCards !! 0%nat; previousCards !! 1%nat; previousCards !! 2%nat],
         d ++ [c3; c2; c1])
    end.
Proof.
  assert (d ++ [c3; c2; c1] = (d ++ [c3; c2]) ++ [c1]) as E1 by (by rewrite <- app_assoc).
  assert (d ++ [c3; c2] = (d ++ [c3]) ++ [c2]) as E2 by (by rewrite <- app_assoc).
  unfold dealHand, isFreshAt. cbn [dealFrom]. unfold dealSlot.
  destruct firstRound; cbn [orb negb].
  - by rewrite E1, pop_snoc, E2, pop_snoc, pop_snoc.
  - destruct (includes held 0), (includes held 1), (includes held 2); cbn [negb];
      rewrite ?E1, ?pop_snoc, ?E2, ?pop_snoc, ?pop_snoc; try done.
Qed.

Lemma dealHand_fresh firstRound held previousCards deck0 drawn slots deck2 newCards :
  (3 ≤ length deck0)%nat →
  NoDup (deck0 ++ drawn) →
  dealHand firstRound held previousCards deck0 = (slots, deck2) →
  definedCards slots = Some newCards →
  length newCards = 3%nat
  ∧ (∀ i, (i < 3)%nat → isFreshAt firstRound held i = false →
          newCards !! i = previousCards !! i)
  ∧ deck0 = deck2 ++ reverse (freshOf firstRound held newCards)
  ∧ NoDup (deck2 ++ reverse (freshOf firstRound held newCards) ++ drawn).
Proof.
  intros Hlen Hnodup Hdeal Hdefined.
  destruct (last_three deck0 Hlen) as (d & c3 & c2 & c1 & ->).
  rewrite dealHand_three in Hdeal.
  assert (∀ deck2' fresh,
            d ++ [c3; c2; c1] = deck2' ++ reverse fresh →
            NoDup (deck2' ++ reverse fresh ++ drawn)) as Hnd.
  { intros deck2' fresh E. by rewrite app_assoc, <- E. }
  unfold freshOf. cbn [flat_map].
  destruct (isFreshAt firstRound held 0) eqn:H0,
           (isFreshAt firstRound held 1) eqn:H1,
           (isFreshAt firstRound held 2) eqn:H2;
    injection Hdeal as <- <-; cbn [definedCards] in Hdefined;
    repeat match type of Hdefined with
      | context [previousCards !! ?k] =>
          destruct (previousCards !! k) as [?|] eqn:?; [|discriminate Hdefined]
      end;
    injection Hdefined as <-;
    (split; [reflexivity|]);
    (split; [intros [|[|[|i]]] Hi Hf; cbn; try lia; congruence|]);
    cbn [lookup list_lookup option_list app];
    (assert (∀ x y z : Card, reverse [x; y; z] = [z; y; x]) as R3 by done);
    (assert (∀ x y : Card, reverse [x; y] = [y; x]) as R2 by done);
    (assert (∀ x : Card, reverse [x] = [x]) as R1 by done);
    (match goal with
     | |- ?E ∧ _ => assert E as Heq;
                    [rewrite ?R3, ?R2, ?R1, <- ?app_assoc; cbn; by rewrite ?app_nil_r
                    |split; [exact Heq | by apply Hnd]]
     end).
Qed.

Lemma fresh_cards_are_new firstRound held newCards deck0 deck2 drawn :
  length newCards = 3%nat →
  deck0 = deck2 ++ reverse (freshOf firstRound held newCards) →
  NoDup (deck2 ++ reverse (freshOf firstRound held newCards) ++ drawn) →
  ∀ i, (i < 3)%nat → isFreshAt firstRound held i = true →
    ∃ c, newCards !! i = Some c ∧ c ∈ deck0 ∧ (c ∉ deck2) ∧ (c ∉ drawn)
         ∧ ∀ j, (j < 3)%nat → j ≠ i → isFreshAt firstRound held j = true →
                newCards !! j ≠ Some c.
Proof.
  intros Hlen -> Hnd.
  apply NoDup_app in Hnd as (_ & Hdeck2 & Hnd).
  apply NoDup_app in Hnd as (Hfresh & Hdrawn & _).
  rewrite reverse_Permutation in Hfresh.
  assert (∀ c, c ∈ freshOf firstRound held newCards → c ∉ deck2) as Hout.
  { intros c Hc Hin. apply (Hdeck2 c Hin). apply elem_of_app. left.
    by apply elem_of_reverse. }
  assert (∀ c, c ∈ freshOf firstRound held newCards → c ∉ drawn) as Hnew.
  { intros c Hc. apply Hdrawn. by apply elem_of_reverse. }
  assert (∀ c, c ∈ freshOf firstRound held newCards →
               c ∈ deck2 ++ reverse (freshOf firstRound held newCards)) as Hin.
  { intros c Hc. apply elem_of_app. right. by apply elem_of_reverse. }
  destruct newCards as [|x0 [|x1 [|x2 [|]]]]; try discriminate Hlen.
  unfold freshOf in *. cbn [flat_map lookup list_lookup option_list] in *.
  intros i Hi Hf.
  destruct i as [|[|[|i]]]; [| | |lia]; rewrite Hf in *; cbn [lookup list_lookup];
    eexists; (split; [reflexivity|]);
    (split; [apply Hin; set_solver|]);
    (split; [apply Hout; set_solver|]);
    (split; [apply Hnew; set_solver|]);
    intros j Hj Hji Hfj; destruct j as [|[|[|j]]]; try lia; try done;
    rewrite Hfj in *; cbn [lookup list_lookup]; intros [= ->];
    repeat match goal with
      | H : context [if ?b then _ else _] |- _ => destruct b
      end;
    cbn in Hfresh;
    repeat match goal with
      | H : NoDup (_ :: _) |- _ => apply NoDup_cons in H as [? ?]
      end;
    set_solver.
Qed.

End Deck.

(** ** Drawing *)

Section Draw.
Context {web3 : Web3}.

Lemma draw_ok_by_player now rnd gid s s' body pid ref g :
  ByPlayer.findGame (heap s) (games s) gid = Some (pid, ref, g) →
  ByPlayer.draw now rnd gid s = (s', ByPlayer.DrawOk body) →
  ∃ slots deck2 newCards g',
    dealHand (roundsPlayed g =? 0) (heldCards g) (cards g)
      (if (length (deck g) <? 3)%nat then createAndShuffleLuckyTripleDeck rnd else deck g)
    = (slots, deck2)
    ∧ definedCards slots = Some newCards
    ∧ heap s' !! ref = Some g'
    ∧ cards g' = newCards ∧ deck g' = deck2 ∧ heldCards g' = []
    ∧ roundsPlayed g' = roundsPlayed g + 1
    ∧ ByPlayer.dr_cards body = newCards
    ∧ ByPlayer.dr_heldCards body = []
    ∧ ByPlayer.dr_previouslyHeld body = heldCards g.
Proof.
  intros Hfind. pose proof (findGame_Some _ _ _ _ _ _ Hfind) as (Hheap & Hgid & _).
  unfold ByPlayer.draw. rewrite Hfind.
  destruct (isEnded g) eqn:Hended; [discriminate|].
  destruct (verifyTimeRemaining_cases now ref pid s g Hheap)
    as [(_ & _ & s1 & ->)|([Hbad|Htime] & remaining & ->)];
    [discriminate|congruence|].
  cbn [ByPlayer.tc_isTimedOut ByPlayer.tc_serverTime].
  assert (current s ref g = g) as -> by (unfold current; by rewrite Hheap).
  destruct (roundsPlayed g >=? maxRounds g) eqn:Hmax; [discriminate|].
  destruct (dealHand _ _ _ _) as [slots deck2] eqn:Hdeal.
  destruct (definedCards slots) as [newCards|] eqn:Hdefined; [|discriminate].
  set (F := λ g0 : GameState,
              set_heldCards []
                (set_lastActionTime (Some now)
                   (set_hand newCards (evaluateHandCombination newCards)
                      (set_deck deck2 g0)))).
  assert (current (update ref F s) ref g = F g) as ->.
  { unfold current. cbn. by rewrite list_lookup_alter_eq, Hheap. }
  set (s3 := if roundsPlayed (F g) >=? maxRounds (F g) then _ else _).
  assert (∃ g3, heap s3 !! ref = Some g3
                ∧ cards g3 = newCards ∧ deck g3 = deck2 ∧ heldCards g3 = []
                ∧ roundsPlayed g3 = roundsPlayed g + 1
                ∧ timestamp g3 = timestamp g) as (g3 & Hheap3 & Hg3).
  { subst s3. destruct (roundsPlayed (F g) >=? maxRounds (F g)).
    - exists (set_isEnded true (F g)). split; [|done].
      destruct (currentReward (F g) >? 0).
      + destruct (processReward_frame ref
                    (set_completedGames
                       (<[gameId (F g) := mkCompleted pid win now false]>
                          (completedGames (update ref (set_isEnded true) (update ref F s))))
                       (update ref (set_isEnded true) (update ref F s)))) as (-> & _).
        cbn. by rewrite !list_lookup_alter_eq, Hheap.
      + cbn. by rewrite !list_lookup_alter_eq, Hheap.
    - exists (F g). split; [|done]. cbn. by rewrite list_lookup_alter_eq, Hheap. }
  set (s4 := set_games _ s3).
  assert (heap s4 !! ref = Some g3) as Hheap4 by exact Hheap3.
  assert (current s4 ref g = g3) as Hcur4 by (unfold current; by rewrite Hheap4).
  rewrite Hcur4.
  destruct ((roundsPlayed g3 >? 1) && negb (heldCardsPrintable (heldCards g) (cards g)));
    [discriminate|].
  destruct (isEnded g3) eqn:Hended3.
  - rewrite Hcur4. intros [= <- <-]. exists slots, deck2, newCards, g3.
    cbn. destruct Hg3 as (? & ? & ? & ? & ?). repeat split; done.
  - destruct (verifyTimeRemaining_in_time now ref pid s4 g3 Hheap4) as [rem ->].
    { right. destruct Hg3 as (_ & _ & _ & _ & ->). exact Htime. }
    rewrite Hcur4. intros [= <- <-]. exists slots, deck2, newCards, g3.
    cbn. destruct Hg3 as (? & ? & ? & ? & ?). repeat split; done.
Qed.

Lemma verifyTimeRemaining_by_game_table now ref s g :
  heap s !! ref = Some g →
  ∃ s1 timeCheck g1,
    ByGameId.verifyTimeRemaining now ref s = (s1, timeCheck)
    ∧ ByGameId.timedOutSays timeCheck = false
    ∧ heap s1 !! ref = Some g1
    ∧ sameTable g1 g.
Proof.
  intros Hheap. unfold ByGameId.verifyTimeRemaining. rewrite Hheap.
  destruct ((Z.max 0 (GAME_CONFIG.GAME_TIMEOUT_MS - (now - timestamp g)) <=? 0)
            && negb (isEnded g)).
  - unfold ByGameId.handleTimedOutGame.
    eexists _, _, (set_timedOut true (set_isEnded true g)).
    split; [reflexivity|]. split; [done|]. split; [|done].
    case_bool_decide; cbn; by rewrite list_lookup_alter_eq, Hheap.
  - eexists _, _, g. by repeat split.
Qed.

Lemma draw_ok_by_game now rnd gid s s' body ref g :
  ByGameId.getGame s gid = Some (ref, g) →
  ByGameId.draw now rnd gid s = (s', ByGameId.DrawOk body) →
  ∃ slots deck2 newCards g',
    dealHand (roundsPlayed g =? 0) (heldCards g) (cards g)
      (if (length (deck g) <? 3)%nat then createAndShuffleLuckyTripleDeck rnd else deck g)
    = (slots, deck2)
    ∧ definedCards slots = Some newCards
    ∧ heap s' !! ref = Some g'
    ∧ cards g' = newCards ∧ deck g' = deck2 ∧ heldCards g' = []
    ∧ roundsPlayed g' = roundsPlayed g + 1
    ∧ ByGameId.dr_cards body = newCards
    ∧ ByGameId.dr_heldCards body = []
    ∧ ByGameId.dr_previouslyHeld body = heldCards g.
Proof.
  intros Hfind. pose proof (getGame_Some _ _ _ _ Hfind) as (Hget & Hheap).
  unfold ByGameId.draw. rewrite Hfind.
  destruct (isEnded g) eqn:Hended; [discriminate|].
  destruct (verifyTimeRemaining_by_game_table now ref s g Hheap)
    as (s1 & timeCheck & g1 & -> & -> & Hheap1 & Hc & Hd & Hh & Hr & Hm).
  assert (current s1 ref g = g1) as -> by (unfold current; by rewrite Hheap1).
  rewrite Hc, Hd, Hh, Hr, Hm.
  destruct (roundsPlayed g >=? maxRounds g) eqn:Hmax; [discriminate|].
  destruct (dealHand _ _ _ _) as [slots deck2] eqn:Hdeal.
  destruct (definedCards slots) as [newCards|] eqn:Hdefined; [|discriminate].
  set (F := λ g0 : GameState,
              set_heldCards []
                (set_hand newCards (evaluateHandCombination newCards) (set_deck deck2 g0))).
  assert (current (update ref F s1) ref g = F g1) as ->.
  { unfold current. cbn. by rewrite list_lookup_alter_eq, Hheap1. }
  set (s3 := if roundsPlayed (F g1) >=? maxRounds (F g1) then _ else _).
  assert (∃ g3, heap s3 !! ref = Some g3
                ∧ cards g3 = newCards ∧ deck g3 = deck2 ∧ heldCards g3 = []
                ∧ roundsPlayed g3 = roundsPlayed g + 1) as (g3 & Hheap3 & Hg3).
  { assert (heap (update ref (set_isEnded true) (update ref F s1)) !! ref
            = Some (set_isEnded true (F g1))) as Hup.
    { cbn. by rewrite !list_lookup_alter_eq, Hheap1. }
    subst s3. destruct (roundsPlayed (F g1) >=? maxRounds (F g1)).
    - exists (set_isEnded true (F g1)). split; [|cbn; by rewrite Hr].
      destruct ((currentReward (F g1) >? 0) && bool_decide (playerId (F g1) ≠ "")).
      + destruct (processReward_frame ref
                    (set_completedGames
                       (<[gid := mkCompleted (playerId (F g1)) win now false]>
                          (completedGames (update ref (set_isEnded true) (update ref F s1))))
                       (update ref (set_isEnded true) (update ref F s1)))) as (-> & _).
        exact Hup.
      + case_bool_decide; exact Hup.
    - exists (F g1). split; [|cbn; by rewrite Hr]. cbn.
      by rewrite list_lookup_alter_eq, Hheap1. }
  set (s4 := set_games _ s3).
  assert (heap s4 !! ref = Some g3) as Hheap4 by exact Hheap3.
  assert (current s4 ref g = g3) as Hcur4 by (unfold current; by rewrite Hheap4).
  rewrite Hcur4.
  destruct ((roundsPlayed g3 >? 1) && negb (heldCardsPrintable (heldCards g) (cards g)));
    [discriminate|].
  destruct (isEnded g3) eqn:Hended3.
  - rewrite Hcur4. intros [= <- <-]. exists slots, deck2, newCards, g3.
    cbn. destruct Hg3 as (? & ? & ? & ?). repeat split; done.
  - destruct (verifyTimeRemaining_by_game_table now ref s4 g3 Hheap4)
      as (s5 & timeCheck5 & g5 & Hverify5 & _ & Hheap5 & Hc5 & Hd5 & Hh5 & Hr5 & _).
    rewrite Hverify5.
    destruct timeCheck5 as [tc5|]; intros [= <- <-];
      exists slots, deck2, newCards, g5;
      destruct Hg3 as (? & ? & ? & ?); repeat split; try done; congruence.
Qed.

Lemma isFreshAt_true (g : GameState) (i : nat) :
  isFreshAt (roundsPlayed g =? 0) (heldCards g) i = true
  ↔ roundsPlayed g = 0 ∨ Z.of_nat i ∉ heldCards g.
Proof.
  unfold isFreshAt, includes.
  rewrite orb_true_iff, negb_true_iff, bool_decide_eq_false, Z.eqb_eq. done.
Qed.

Lemma dealt_by_draw rnd drawn g g' slots deck2 :
  NoDup (deck g ++ drawn) →
  dealHand (roundsPlayed g =? 0) (heldCards g) (cards g)
    (if (length (deck g) <? 3)%nat then createAndShuffleLuckyTripleDeck rnd else deck g)
  = (slots, deck2) →
  definedCards slots = Some (cards g') →
  deck g' = deck2 →
  heldCards g' = [] →
  DealtByDraw rnd drawn g g'.
Proof.
  intros Hnodup Hdeal Hdefined Hdeck Hheld. unfold DealtByDraw.
  set (deck0 := if (length (deck g) <? 3)%nat
                then createAndShuffleLuckyTripleDeck rnd else deck g) in *.
  set (drawn0 := if (length (deck g) <? 3)%nat then [] else drawn).
  assert ((3 ≤ length deck0)%nat ∧ NoDup (deck0 ++ drawn0)) as [Hlen Hnd].
  { subst deck0 drawn0. destruct (length (deck g) <? 3)%nat eqn:Hshort.
    - rewrite createAndShuffleLuckyTripleDeck_length, app_nil_r.
      split; [lia | apply createAndShuffleLuckyTripleDeck_NoDup].
    - apply Nat.ltb_ge in Hshort. done. }
  destruct (dealHand_fresh _ _ _ _ _ _ _ _ Hlen Hnd Hdeal Hdefined)
    as (Hthree & Hkept & Hsplit & Hnd').
  rewrite Hdeck.
  split; [exact Hthree|]. split; [exact Hheld|].
  split.
  { intros i Hi Hanew. apply Hkept; [exact Hi|].
    apply not_true_is_false. by rewrite isFreshAt_true. }
  split; [|by split].
  intros i Hi Hanew. apply isFreshAt_true in Hanew.
  destruct (fresh_cards_are_new _ _ _ _ _ _ Hthree Hsplit Hnd' i Hi Hanew)
    as (c & Hc & Hin & Hout & Hnew & Hothers).
  exists c. repeat split; try done.
  intros j Hj Hji Hjnew. apply Hothers; try done. by apply isFreshAt_true.
Qed.

(** C10. In both servers, after a successful draw: the hand has three
    cards and the held set is empty; in the first round every position,
    and later every position that was not held, carries a card that was
    popped from the deck (recreated first if it had fewer than 3 cards):
    that card is no longer in the deck, differs from every card popped
    from this deck before and from the card dealt at any other such
    position; every held position keeps the card the previous hand had at
    that index. *)
Theorem draw_deals_held_and_fresh
    (now : Z) (rnd : nat → nat) (gid : string) (s : Server) (drawn : list Card) :
  (∀ s' body pid ref g,
     ByPlayer.findGame (heap s) (games s) gid = Some (pid, ref, g) →
     ByPlayer.draw now rnd gid s = (s', ByPlayer.DrawOk body) →
     NoDup (deck g ++ drawn) →
     ∃ g', heap s' !! ref = Some g'
           ∧ ByPlayer.dr_cards body = cards g'
           ∧ ByPlayer.dr_heldCards body = []
           ∧ ByPlayer.dr_previouslyHeld body = heldCards g
           ∧ DealtByDraw rnd drawn g g')
  ∧ (∀ s' body ref g,
       ByGameId.getGame s gid = Some (ref, g) →
       ByGameId.draw now rnd gid s = (s', ByGameId.DrawOk body) →
       NoDup (deck g ++ drawn) →
       ∃ g', heap s' !! ref = Some g'
             ∧ ByGameId.dr_cards body = cards g'
             ∧ ByGameId.dr_heldCards body = []
             ∧ ByGameId.dr_previouslyHeld body = heldCards g
             ∧ DealtByDraw rnd drawn g g').
Proof.
  split.
  - intros s' body pid ref g Hfind Hdraw Hnodup.
    destruct (draw_ok_by_player _ _ _ _ _ _ _ _ _ Hfind Hdraw)
      as (slots & deck2 & newCards & g' & Hdeal & Hdefined & Hheap' & Hcards & Hdeck
          & Hheld & _ & Hbody & Hnone & Hprev).
    exists g'. subst newCards. do 4 (split; [done|]).
    by eapply dealt_by_draw.
  - intros s' body ref g Hfind Hdraw Hnodup.
    destruct (draw_ok_by_game _ _ _ _ _ _ _ _ Hfind Hdraw)
      as (slots & deck2 & newCards & g' & Hdeal & Hdefined & Hheap' & Hcards & Hdeck
          & Hheld & _ & Hbody & Hnone & Hprev).
    exists g'. subst newCards. do 4 (split; [done|]).
    by eapply dealt_by_draw.
Qed.

End Draw.

Lemma draw_deals_held_and_fresh_witness :
  let rnd := λ i : nat, (i * 7 + 3)%nat in
  let g := set_lastActionTime (Some 2000) (set_heldCards [0; 1] (Sample.game (Some 1000))) in
  let s := (ByPlayer.hold 2000 "g1" [0; 1] Sample.byPlayer).1 in
  let after := (ByPlayer.draw (web3 := anyAddress) 3000 rnd "g1" s).1 in
  let g0 := set_heldCards [0; 1] (Sample.game None) in
  let s0 := (ByGameId.hold "g1" [0; 1] Sample.byGameId).1 in
  let after0 := (ByGameId.draw (web3 := anyAddress) 3000 rnd "g1" s0).1 in
  let fresh := ByGameId.newGameState "g2" "P" (createAndShuffleLuckyTripleDeck rnd) 1000 in
  let opened := mkServer [fresh] [("g2", 0%nat)] ∅ emptyLedger [] in
  let first := (ByGameId.draw (web3 := anyAddress) 2000 rnd "g2" opened).1 in
  (ByPlayer.findGame (heap s) (games s) "g1" = Some ("P", 0%nat, g)
   ∧ NoDup (deck g ++ Sample.hand)
   ∧ ∃ g', heap after !! 0%nat = Some g'
           ∧ DealtByDraw rnd Sample.hand g g'
           ∧ cards g' !! 0%nat = Some (mkCard hearts R2)
           ∧ cards g' !! 1%nat = Some (mkCard spades R3)
           ∧ cards g' !! 2%nat = Some (mkCard spades R6))
  ∧ (ByGameId.getGame s0 "g1" = Some (0%nat, g0)
     ∧ NoDup (deck g0 ++ Sample.hand)
     ∧ ∃ body g',
         (ByGameId.draw (web3 := anyAddress) 3000 rnd "g1" s0).2 = ByGameId.DrawOk body
         ∧ heap after0 !! 0%nat = Some g'
         ∧ ByGameId.dr_cards body = cards g'
         ∧ ByGameId.dr_previouslyHeld body = [0; 1]
         ∧ DealtByDraw rnd Sample.hand g0 g'
         ∧ cards g' = [mkCard hearts R2; mkCard spades R3; mkCard spades R6]
         ∧ length (deck g') = 20%nat)
  ∧ (ByGameId.getGame opened "g2" = Some (0%nat, fresh)
     ∧ NoDup (deck fresh ++ [])
     ∧ ∃ body g',
         (ByGameId.draw (web3 := anyAddress) 2000 rnd "g2" opened).2 = ByGameId.DrawOk body
         ∧ heap first !! 0%nat = Some g'
         ∧ ByGameId.dr_cards body = cards g'
         ∧ DealtByDraw rnd [] fresh g'
         ∧ deck fresh = deck g' ++ reverse (cards g')
         ∧ length (deck g') = 21%nat).
Proof.
  intros rnd g s after g0 s0 after0 fresh opened first.
  split; [|split].
  - assert (ByPlayer.findGame (heap s) (games s) "g1" = Some ("P", 0%nat, g)) as Hfind
      by reflexivity.
    assert (NoDup (deck g ++ Sample.hand)) as Hnodup.
    { apply (bool_decide_unpack _). by vm_compute. }
    split; [exact Hfind|]. split; [exact Hnodup|].
    subst after.
    destruct (ByPlayer.draw (web3 := anyAddress) 3000 rnd "g1" s) as [s' r] eqn:Hdraw.
    assert (∃ body, r = ByPlayer.DrawOk body) as [body ->].
    { vm_compute in Hdraw. injection Hdraw as _ <-. eauto. }
    destruct (draw_deals_held_and_fresh (web3 := anyAddress) 3000 rnd "g1" s Sample.hand)
      as [Hplayer _].
    destruct (Hplayer s' body "P" 0%nat g Hfind Hdraw Hnodup)
      as (g' & Hheap' & Hbody & _ & _ & Hdealt).
    exists g'. split; [exact Hheap'|]. split; [exact Hdealt|].
    cbn [fst]. vm_compute in Hdraw. injection Hdraw as <- _.
    vm_compute in Hheap'. injection Hheap' as <-. by vm_compute.
  - assert (ByGameId.getGame s0 "g1" = Some (0%nat, g0)) as Hget by reflexivity.
    assert (NoDup (deck g0 ++ Sample.hand)) as Hnodup.
    { apply (bool_decide_unpack _). by vm_compute. }
    split; [exact Hget|]. split; [exact Hnodup|].
    subst after0.
    destruct (ByGameId.draw (web3 := anyAddress) 3000 rnd "g1" s0) as [s' r] eqn:Hdraw.
    assert (∃ body, r = ByGameId.DrawOk body) as [body ->].
    { vm_compute in Hdraw. injection Hdraw as _ <-. eauto. }
    destruct (draw_deals_held_and_fresh (web3 := anyAddress) 3000 rnd "g1" s0 Sample.hand)
      as [_ Hgame].
    destruct (Hgame s' body 0%nat g0 Hget Hdraw Hnodup)
      as (g' & Hheap' & Hbody & _ & Hprev & Hdealt).
    exists body, g'. split; [reflexivity|]. split; [exact Hheap'|].
    split; [exact Hbody|]. split; [exact Hprev|]. split; [exact Hdealt|].
    cbn [fst]. vm_compute in Hdraw. injection Hdraw as <- _.
    vm_compute in Hheap'. injection Hheap' as <-. by vm_compute.
  - assert (ByGameId.getGame opened "g2" = Some (0%nat, fresh)) as Hget by reflexivity.
    assert (NoDup (deck fresh ++ [])) as Hnodup.
    { apply (bool_decide_unpack _). by vm_compute. }
    split; [exact Hget|]. split; [exact Hnodup|].
    subst first.
    destruct (ByGameId.draw (web3 := anyAddress) 2000 rnd "g2" opened) as [s' r] eqn:Hdraw.
    assert (∃ body, r = ByGameId.DrawOk body) as [body ->].
    { vm_compute in Hdraw. injection Hdraw as _ <-. eauto. }
    destruct (draw_deals_held_and_fresh (web3 := anyAddress) 2000 rnd "g2" opened [])
      as [_ Hgame].
    destruct (Hgame s' body 0%nat fresh Hget Hdraw Hnodup)
      as (g' & Hheap' & Hbody & _ & _ & Hdealt).
    exists body, g'. split; [reflexivity|]. split; [exact Hheap'|].
    split; [exact Hbody|]. split; [exact Hdealt|].
    cbn [fst]. vm_compute in Hdraw. injection Hdraw as <- _.
    vm_compute in Hheap'. injection Hheap' as <-. clear. vm_compute. split; reflexivity.
Defined.

(** ** The handlers on concrete sessions *)

Section Scenarios.
#[local] Existing Instance anyAddress.

(** C2. A game won with 6 is checked; the payout fails (the ledger entry
    becomes [failed], nothing is sent); the game is checked again:
    [sendCardsReward] finds the entry and returns [null], and
    [processReward] then sets [rewardPaid] although the entry is [failed]
    and no transaction was ever sent. *)
Theorem processReward_marks_failed_payout_paid :
  let s1 := (ByGameId.check 2000 "g1" Sample.byGameId).1 in
  let s2 := resumeTask true 0 false s1 in
  let s3 := (ByGameId.check 3000 "g1" s2).1 in
  let s4 := resumeTask true 0 true s3 in
  paidRewards (ledger s1) !! transactionKey "P" "g1" = Some pending
  ∧ paidRewards (ledger s2) !! transactionKey "P" "g1" = Some failed
  ∧ rewardPaid <$> heap s2 !! 0%nat = Some false
  ∧ tasks s3 = [AwaitingNull 0]
  ∧ paidRewards (ledger s4) !! transactionKey "P" "g1" = Some failed
  ∧ gateway (ledger s4) = []
  ∧ rewardPaid <$> heap s4 !! 0%nat = Some true.
Proof. vm_compute. repeat split; reflexivity. Qed.

(** C5. A hold that arrives 61 seconds after the game was created, on a
    game not yet ended, is accepted: the handler does not look at the
    clock, the game is not flagged as ended or timed out, and the held
    positions and [lastActionTime] are written. *)
Theorem hold_ignores_the_timeout :
  let now := 1000 + GAME_CONFIG.GAME_TIMEOUT_MS + 1000 in
  let '(s', response) := ByPlayer.hold now "g1" [0; 1] Sample.byPlayer in
  response = ByPlayer.HoldOk [0; 1]
  ∧ heap s' !! 0%nat
    = Some (set_lastActionTime (Some now) (set_heldCards [0; 1] (Sample.game (Some 1000))))
  ∧ (isEnded <$> heap s' !! 0%nat) = Some false
  ∧ (timedOut <$> heap s' !! 0%nat) = Some false
  ∧ (ByPlayer.check now "g1" Sample.byPlayer).2
    = ByPlayer.TimedOut 400 "Game has timed out" 0 true true now.
Proof. vm_compute. repeat split; reflexivity. Qed.

(** A held index without a card is ignored when the hand is dealt, but the
    log line of the next draw throws on it, after the round has been played
    and recorded. *)
Example draw_after_hold_of_unknown_position_throws :
  let s := (ByPlayer.hold 2000 "g1" [7] Sample.byPlayer).1 in
  let '(s', response) := ByPlayer.draw 3000 (λ i, i) "g1" s in
  response = ByPlayer.Uncaught
  ∧ (roundsPlayed <$> heap s' !! 0%nat) = Some 2
  ∧ (heldCards <$> heap s' !! 0%nat) = Some [].
Proof. vm_compute. repeat split; reflexivity. Qed.

(** In the game-keyed server the object returned by [handleTimedOutGame]
    has no [isTimedOut] property: a check that arrives after the timeout
    flags the game as timed out, then goes on, records a win and starts the
    payout. *)
Example expired_game_checked_through_by_game :
  let '(s', response) := ByGameId.check 61000 "g1" Sample.byGameId in
  (∃ body, response = ByGameId.CheckOk body ∧ ByGameId.ck_isWin body = true)
  ∧ (timedOut <$> heap s' !! 0%nat) = Some true
  ∧ completedGames s' !! "g1" = Some (mkCompleted "P" win 61000 false)
  ∧ paidRewards (ledger s') !! transactionKey "P" "g1" = Some pending.
Proof. vm_compute. repeat split; try reflexivity. eexists. split; reflexivity. Qed.

End Scenarios.

(** * Further properties of the code *)

(** ** Deck and evaluator *)

Lemma every_card_in_orderedDeck (c : Card) : c ∈ orderedDeck.
Proof. destruct c as [[] []]; apply (bool_decide_unpack _); by vm_compute. Qed.

(** X1. Whatever the random draws are, [createAndShuffleLuckyTripleDeck]
    returns the 24 cards of the four suits and six ranks in some order:
    24 cards, none twice, every card present. *)
Theorem shuffled_deck_is_the_24_cards (rnd : nat → nat) :
  createAndShuffleLuckyTripleDeck rnd ≡ₚ orderedDeck
  ∧ length (createAndShuffleLuckyTripleDeck rnd) = 24%nat
  ∧ NoDup (createAndShuffleLuckyTripleDeck rnd)
  ∧ ∀ c : Card, c ∈ createAndShuffleLuckyTripleDeck rnd.
Proof.
  pose proof (createAndShuffleLuckyTripleDeck_Permutation rnd) as Hp.
  split; [exact Hp|]. split; [apply createAndShuffleLuckyTripleDeck_length|].
  split; [apply createAndShuffleLuckyTripleDeck_NoDup|].
  intros c. rewrite Hp. apply every_card_in_orderedDeck.
Qed.

Lemma identical_cards_iff (a b c : Card) :
  a = b ∧ b = c ↔ sameRankOf [a; b; c] = true ∧ sameSuitOf [a; b; c] = true.
Proof.
  rewrite sameRankOf_three, sameSuitOf_three.
  unfold HandRules.allSameSuit, HandRules.allSameRank.
  destruct a, b, c; cbn. split.
  - intros [[= -> ->] [= -> ->]]. done.
  - intros [[-> ->] [-> ->]]. done.
Qed.

Lemma evaluate_three_cases (a b c : Card) :
  (sameRankOf [a; b; c] = true ∧ sameSuitOf [a; b; c] = true
   ∧ evaluateHandCombination [a; b; c] = mkHand LuckyTriple 15)
  ∨ (¬ (sameRankOf [a; b; c] = true ∧ sameSuitOf [a; b; c] = true)
     ∧ evaluateHandCombination [a; b; c]
       ∈ [mkHand Triple 9; mkHand StraightFlush 12; mkHand Straight 6; mkHand Flush 5;
          mkHand NoCombination 0]).
Proof.
  rewrite evaluate_three. cbv zeta.
  destruct (sameRankOf [a; b; c]), (sameSuitOf [a; b; c]); cbn [andb].
  - left. done.
  - right. split; [by intros [_ ?]|]. apply list_elem_of_here.
  - right. split; [by intros [? _]|].
    destruct (isStraightOf (sortByRank [a; b; c])); cbn [andb];
      repeat first [apply list_elem_of_here | apply list_elem_of_further].
  - right. split; [by intros [? _]|].
    destruct (isStraightOf (sortByRank [a; b; c])); cbn [andb];
      repeat first [apply list_elem_of_here | apply list_elem_of_further].
Qed.

Lemma distinct_cards_pay (a b c : Card) :
  NoDup [a; b; c] →
  combination (evaluateHandCombination [a; b; c]) ≠ LuckyTriple
  ∧ reward (evaluateHandCombination [a; b; c]) ∈ [0; 5; 6; 9; 12].
Proof.
  intros Hnd. destruct (evaluate_three_cases a b c) as [(Hr & Hs & _) | [_ Hin]].
  - assert (a = b ∧ b = c) as [-> _] by (by apply identical_cards_iff).
    apply NoDup_cons in Hnd as [Hnd _]. destruct Hnd. left.
  - repeat (apply elem_of_cons in Hin as [-> | Hin]); [..| by apply elem_of_nil in Hin];
      (split; [discriminate|]); cbn;
      repeat first [apply list_elem_of_here | apply list_elem_of_further].
Qed.

(** X2. A hand of three cards is a Lucky Triple exactly when the three cards
    are one and the same card; so three different cards, as dealt from one
    deck, never make the hand that pays 15. *)
Theorem lucky_triple_iff_identical_cards (a b c : Card) :
  (combination (evaluateHandCombination [a; b; c]) = LuckyTriple ↔ a = b ∧ b = c)
  ∧ (reward (evaluateHandCombination [a; b; c]) = 15 ↔ a = b ∧ b = c)
  ∧ (NoDup [a; b; c] → reward (evaluateHandCombination [a; b; c]) ∈ [0; 5; 6; 9; 12]).
Proof.
  split; [|split].
  - rewrite identical_cards_iff.
    destruct (evaluate_three_cases a b c) as [(Hr & Hs & ->) | [Hnot Hin]]; [done|].
    split; [|done]. intros Hc. exfalso.
    repeat (apply elem_of_cons in Hin as [Hin | Hin]; [rewrite Hin in Hc; discriminate Hc|]).
    by apply elem_of_nil in Hin.
  - rewrite identical_cards_iff.
    destruct (evaluate_three_cases a b c) as [(Hr & Hs & ->) | [Hnot Hin]]; [done|].
    split; [|done]. intros Hc. exfalso.
    repeat (apply elem_of_cons in Hin as [Hin | Hin]; [rewrite Hin in Hc; discriminate Hc|]).
    by apply elem_of_nil in Hin.
  - intros Hnd. by apply distinct_cards_pay.
Qed.

Lemma lucky_triple_iff_identical_cards_witness :
  let a := mkCard hearts R2 in
  let b := mkCard hearts R3 in
  let c := mkCard hearts R4 in
  NoDup [a; b; c]
  ∧ reward (evaluateHandCombination [a; b; c]) ∈ [0; 5; 6; 9; 12]
  ∧ reward (evaluateHandCombination [a; b; c]) = 12.
Proof.
  intros a b c.
  assert (NoDup [a; b; c]) as Hnd by (apply (bool_decide_unpack _); by vm_compute).
  split; [exact Hnd|]. split; [|reflexivity].
  exact (proj2 (proj2 (lucky_triple_iff_identical_cards a b c)) Hnd).
Defined.

(** ** The ledger *)

Section Ledger.
Context {web3 : Web3}.

Lemma settledInv_noDispatch : settledInv noDispatch.
Proof.
  repeat split; cbn; auto using NoDup_nil_2.
  intros k. by rewrite lookup_empty.
Qed.

Lemma sentFor_setStatus k key st l : sentFor k (setStatus key st l) = sentFor k l.
Proof. done. Qed.

Lemma sentFor_submit k t l :
  sentFor k (submit t l)
  = (sentFor k l + if decide (sendKey t = k) then 1 else 0)%nat.
Proof.
  unfold sentFor, submit. cbn [gateway].
  rewrite filter_app, length_app, filter_cons, filter_nil.
  assert (submissionKey (mkSubmission (snd_receiver t) (snd_gameId t) (snd_amount t * 10 ^ 9))
          = sendKey t) as -> by reflexivity.
  by case_decide.
Qed.

Lemma sentFor_unknown k l :
  Forall (λ sub, is_Some (paidRewards l !! submissionKey sub)) (gateway l) →
  paidRewards l !! k = None → sentFor k l = 0%nat.
Proof.
  intros Hknown Hnone. unfold sentFor. apply filter_length_none.
  eapply Forall_impl; [exact Hknown|]. cbn. intros sub [v Hv] Heq.
  rewrite Heq in Hv. congruence.
Qed.

Lemma settledInv_invoke confirms d receiverAddress gid amount :
  settledInv d → settledInv (dispatchStep confirms d (Invoke receiverAddress gid amount)).
Proof.
  intros (Hpend & Hnodup & Hsent & Hdone & Hknown).
  cbn [dispatchStep]. unfold sendCardsReward.
  destruct (validPublicKey receiverAddress); cbn [negb]; [|by destruct d].
  case_bool_decide as Hkey; [by destruct d|].
  apply eq_None_not_Some in Hkey.
  set (key := transactionKey receiverAddress gid) in *.
  assert (∀ t, t ∈ d_inflight d → sendKey t ≠ key) as Hfresh.
  { intros t Ht Heq. eapply Forall_forall in Hpend; [|exact Ht].
    rewrite Heq in Hpend. congruence. }
  unfold settledInv. cbn [d_ledger d_inflight].
  split; [|split; [|split; [|split]]].
  - apply Forall_app. split.
    + apply Forall_forall. intros t Ht. cbn.
      rewrite lookup_insert_ne by (by intros E; apply (Hfresh t Ht)).
      eapply Forall_forall in Hpend; eauto.
    + apply Forall_singleton. cbn. unfold sendKey; cbn. fold key.
      apply lookup_insert_eq.
  - rewrite fmap_app. apply NoDup_app. split; [exact Hnodup|]. split.
    + intros k Hk Hin. apply list_elem_of_fmap in Hk as (t & -> & Ht).
      cbn in Hin. apply list_elem_of_singleton in Hin. by apply (Hfresh t Ht).
    + apply NoDup_singleton.
  - apply Forall_app. split.
    + eapply Forall_impl; [exact Hsent|]. intros t Ht. by rewrite sentFor_setStatus.
    + apply Forall_singleton. rewrite sentFor_setStatus. cbn [snd_phase].
      rewrite decide_True by done. by apply sentFor_unknown.
  - intros k Hk. rewrite sentFor_setStatus. apply Hdone.
    cbn in Hk. destruct (decide (key = k)) as [<-|Hne].
    + by rewrite lookup_insert_eq in Hk.
    + by rewrite lookup_insert_ne in Hk.
  - cbn [gateway setStatus]. eapply Forall_impl; [exact Hknown|]. intros sub Hsub.
    by apply (is_Some_setStatus key pending (d_ledger d)).
Qed.

Lemma others_have_other_keys (l : list Send) i t :
  l !! i = Some t → NoDup (sendKey <$> l) →
  Forall (λ t', sendKey t' ≠ sendKey t) (delete i l).
Proof.
  intros Hi Hnd. rewrite delete_take_drop.
  rewrite <- (take_drop_middle l i t Hi), fmap_app, fmap_cons in Hnd.
  apply NoDup_app in Hnd as (_ & Hleft & Hright).
  apply NoDup_cons in Hright as [Hright _].
  apply Forall_app. split; apply Forall_forall; intros t' Ht' Heq.
  - apply (Hleft (sendKey t')); [apply list_elem_of_fmap; eauto|].
    rewrite Heq. left.
  - apply Hright. rewrite <- Heq. apply list_elem_of_fmap; eauto.
Qed.

Lemma Forall_insert_delete {A} (P : A → Prop) (l : list A) i x :
  (i < length l)%nat → P x → Forall P (delete i l) → Forall P (<[i:=x]> l).
Proof.
  intros Hi Hx. rewrite delete_take_drop, insert_take_drop by done.
  rewrite !Forall_app. intros [? ?]. repeat split; try done. by constructor.
Qed.

Lemma NoDup_keys_delete (l : list Send) i :
  NoDup (sendKey <$> l) → NoDup (sendKey <$> delete i l).
Proof.
  intros Hnd. rewrite list_fmap_delete.
  eapply sublist_NoDup; [exact Hnd | apply sublist_delete].
Qed.

Lemma keys_insert_same (l : list Send) i t t' :
  l !! i = Some t → sendKey t' = sendKey t →
  sendKey <$> <[i:=t']> l = sendKey <$> l.
Proof.
  intros Hi Hk. rewrite list_fmap_insert, Hk. apply list_insert_id.
  by rewrite list_lookup_fmap, Hi.
Qed.

Lemma settledInv_resume confirms d i ok :
  settledInv d → settledInv (dispatchStep confirms d (Resume i ok)).
Proof.
  intros (Hpend & Hnodup & Hsent & Hdone & Hknown). cbn [dispatchStep].
  destruct (d_inflight d !! i) as [t|] eqn:Hi; [|done].
  pose proof (lookup_lt_Some _ _ _ Hi) as Hlt.
  pose proof (Forall_lookup_1 _ _ _ _ Hpend Hi) as Hkey. cbn in Hkey.
  pose proof (Forall_lookup_1 _ _ _ _ Hsent Hi) as Hsent_t. cbn in Hsent_t.
  pose proof (others_have_other_keys _ _ _ Hi Hnodup) as Hothers.
  rewrite Forall_forall in Hothers.
  (* the tasks left when [t] ends, under a new status of its key *)
  assert (∀ st,
            Forall (λ t0, paidRewards (setStatus (sendKey t) st (d_ledger d)) !! sendKey t0
                          = Some pending) (delete i (d_inflight d))
            ∧ Forall (λ t0, sentFor (sendKey t0) (setStatus (sendKey t) st (d_ledger d))
                            = if decide (snd_phase t0 = AwaitAccounts) then 0%nat else 1%nat)
                (delete i (d_inflight d))
            ∧ Forall (λ sub, is_Some (paidRewards (setStatus (sendKey t) st (d_ledger d))
                                        !! submissionKey sub)) (gateway (d_ledger d)))
    as Hend.
  { intros st. split; [|split].
    - pose proof (Forall_delete _ _ i Hpend) as Hp.
      apply Forall_forall. intros t0 Ht0. cbn.
      rewrite lookup_insert_ne.
      + rewrite Forall_forall in Hp. by apply Hp.
      + intros E. by apply (Hothers t0 Ht0).
    - apply Forall_delete. eapply Forall_impl; [exact Hsent|]. by intros t0 Ht0.
    - eapply Forall_impl; [exact Hknown|]. intros sub Hsub. by apply is_Some_setStatus. }
  unfold resumeSend. fold (sendKey t).
  destruct ok; cbn [negb].
  2:{ destruct (Hend failed) as (H1 & H3 & H5).
      split; [exact H1|]. split; [by apply NoDup_keys_delete|].
      split; [exact H3|]. split; [|exact H5].
      intros k Hk. cbn in Hk. change (sentFor k (d_ledger d) = 1%nat). apply Hdone.
      destruct (decide (sendKey t = k)) as [<-|Hne].
      - by rewrite lookup_insert_eq in Hk.
      - by rewrite lookup_insert_ne in Hk. }
  assert (∀ l', (∀ k, paidRewards l' !! k
                      = paidRewards (setStatus (sendKey t) completed (d_ledger d)) !! k) →
                (∀ k, sentFor k l' = sentFor k (d_ledger d)) →
                snd_phase t ≠ AwaitAccounts →
                ∀ k, paidRewards l' !! k = Some completed → sentFor k l' = 1%nat) as Hcompleted.
  { intros l' Hpaid Hsame Hphase k Hk. rewrite Hsame. rewrite Hpaid in Hk. cbn in Hk.
    destruct (decide (sendKey t = k)) as [<-|Hne].
    - rewrite Hsent_t. by rewrite decide_False.
    - rewrite lookup_insert_ne in Hk by done. by apply Hdone. }
  destruct (snd_phase t) eqn:Hphase.
  - (* the transaction is sent *)
    rewrite decide_True in Hsent_t by done.
    assert (sendKey (atPhase AwaitSend t) = sendKey t) as Hsame by done.
    split; [|split; [|split; [|split]]]; cbn [d_ledger d_inflight].
    + apply Forall_insert; [exact Hpend | exact Hkey].
    + by erewrite keys_insert_same.
    + apply Forall_insert_delete; [done| |].
      * rewrite sentFor_submit, Hsame, Hsent_t, decide_True by done.
        cbn [atPhase snd_phase]. by rewrite decide_False.
      * pose proof (Forall_delete _ _ i Hsent) as Hs.
        apply Forall_forall. intros t0 Ht0. rewrite sentFor_submit.
        rewrite decide_False.
        -- rewrite Nat.add_0_r. rewrite Forall_forall in Hs. by apply Hs.
        -- intros E. by apply (Hothers t0 Ht0).
    + intros k Hk. cbn [submit paidRewards] in Hk. rewrite sentFor_submit.
      rewrite decide_False; [rewrite Nat.add_0_r; by apply Hdone|].
      intros <-. congruence.
    + cbn [submit gateway paidRewards]. apply Forall_app. split; [exact Hknown|].
      apply Forall_singleton. unfold submissionKey. cbn. fold (sendKey t).
      rewrite Hkey. eauto.
  - destruct confirms.
    + assert (sendKey (atPhase AwaitConfirm t) = sendKey t) as Hsame by done.
      split; [|split; [|split; [|split]]]; cbn [d_ledger d_inflight]; try done.
      * apply Forall_insert; [exact Hpend | exact Hkey].
      * by erewrite keys_insert_same.
      * apply Forall_insert; [exact Hsent|]. rewrite Hsame, Hsent_t.
        cbn [atPhase snd_phase]. by rewrite !decide_False.
    + destruct (Hend completed) as (H1 & H3 & H5).
      split; [exact H1|]. split; [by apply NoDup_keys_delete|].
      split; [exact H3|]. split; [|exact H5].
      apply Hcompleted; done.
  - destruct (Hend completed) as (H1 & H3 & H5).
    split; [exact H1|]. split; [by apply NoDup_keys_delete|].
    split; [exact H3|]. split; [|exact H5].
    apply Hcompleted; done.
Qed.

Lemma settledInv_run confirms events d :
  settledInv d → settledInv (dispatchRun confirms d events).
Proof.
  revert d. induction events as [|e events IH]; intros d Hd; [done|].
  apply IH. destruct e; [by apply settledInv_invoke | by apply settledInv_resume].
Qed.

Lemma settled_entry_step confirms d e key st :
  settledInv d →
  paidRewards (d_ledger d) !! key = Some st →
  paidRewards (d_ledger (dispatchStep confirms d e)) !! key
  = Some (if decide (st = pending)
          then default pending (paidRewards (d_ledger (dispatchStep confirms d e)) !! key)
          else st).
Proof.
  intros (Hpend & _) Hst.
  assert (∀ l, is_Some (paidRewards l !! key) →
               paidRewards l !! key
               = Some (default pending (paidRewards l !! key))) as Hdefault.
  { intros l [v ->]. done. }
  destruct e as [receiverAddress gid amount|i ok]; cbn [dispatchStep].
  - unfold sendCardsReward.
    destruct (validPublicKey receiverAddress); cbn [negb].
    2:{ cbn [d_ledger]. rewrite Hst. by case_decide. }
    case_bool_decide as Hkey.
    { cbn [d_ledger]. rewrite Hst. by case_decide. }
    cbn [d_ledger setStatus paidRewards].
    rewrite lookup_insert_ne; [rewrite Hst; by case_decide|].
    intros E. apply Hkey. rewrite E, Hst. eauto.
  - destruct (d_inflight d !! i) as [t|] eqn:Hi.
    2:{ rewrite Hst. by case_decide. }
    pose proof (Forall_lookup_1 _ _ _ _ Hpend Hi) as Hkey. cbn in Hkey.
    destruct (decide (st = pending)) as [->|Hsettled].
    + apply Hdefault.
      destruct (resumeSend confirms ok t (d_ledger d)) as [l r] eqn:Hresume.
      assert (is_Some (paidRewards l !! key)) as Hsome.
      { unfold resumeSend in Hresume. fold (sendKey t) in Hresume.
        destruct ok; cbn [negb] in Hresume;
          [destruct (snd_phase t); [|destruct confirms|]|];
          injection Hresume as <- _;
          try (apply is_Some_setStatus); rewrite ?Hst; cbn; rewrite ?Hst; eauto. }
      by destruct r.
    + assert (sendKey t ≠ key) as Hne by (intros E; congruence).
      unfold resumeSend. fold (sendKey t).
      destruct ok; cbn [negb];
        [destruct (snd_phase t); [|destruct confirms|]|];
        cbn [d_ledger setStatus submit paidRewards];
        by rewrite ?lookup_insert_ne.
Qed.

(** X3. In any run of calls to [sendCardsReward] and their resumptions, an
    entry of [paidRewards] is never removed, and once it is [completed] or
    [failed] no later call or resumption changes it: a failed payout is not
    tried again and a completed one is not undone. *)
Theorem settled_entries_never_change
    (confirms : bool) (events more : list DispatchEvent) (key : string) (st : PayStatus) :
  paidRewards (d_ledger (dispatchRun confirms noDispatch events)) !! key = Some st →
  is_Some (paidRewards (d_ledger (dispatchRun confirms noDispatch (events ++ more))) !! key)
  ∧ (st ≠ pending →
     paidRewards (d_ledger (dispatchRun confirms noDispatch (events ++ more))) !! key
     = Some st).
Proof.
  unfold dispatchRun. rewrite foldl_app.
  fold (dispatchRun confirms noDispatch events).
  pose proof (settledInv_run confirms events noDispatch settledInv_noDispatch) as Hinv.
  revert Hinv. generalize (dispatchRun confirms noDispatch events). clear events.
  intros d Hinv. revert d st Hinv.
  induction more as [|e more IH]; intros d st Hinv Hst; cbn [foldl].
  - split; [rewrite Hst; eauto | done].
  - pose proof (settled_entry_step confirms d e key st Hinv Hst) as Hstep.
    assert (settledInv (dispatchStep confirms d e)) as Hinv'.
    { destruct e; [by apply settledInv_invoke | by apply settledInv_resume]. }
    destruct (IH _ _ Hinv' Hstep) as [Hsome Hkeep].
    split; [exact Hsome|].
    intros Hsettled. rewrite decide_False in Hkeep by done. by apply Hkeep.
Qed.

(** X4. In any such run: under a key whose entry is [completed] exactly one
    transaction has been sent, and under a key without entry none. *)
Theorem completed_entry_has_one_transaction
    (confirms : bool) (events : list DispatchEvent) (key : string) :
  let l := d_ledger (dispatchRun confirms noDispatch events) in
  (paidRewards l !! key = Some completed → sentFor key l = 1%nat)
  ∧ (paidRewards l !! key = None → sentFor key l = 0%nat).
Proof.
  destruct (settledInv_run confirms events noDispatch settledInv_noDispatch)
    as (_ & _ & _ & Hdone & Hknown).
  split; [apply Hdone | by apply sentFor_unknown].
Qed.

End Ledger.

Lemma settled_entries_never_change_witness :
  let events := [Invoke "P" "g" 6; Resume 0 false] in
  let more := [Invoke "P" "g" 6; Resume 0 true; Invoke "P" "g" 9] in
  paidRewards (d_ledger (dispatchRun (web3 := anyAddress) false noDispatch events))
    !! transactionKey "P" "g" = Some failed
  ∧ paidRewards (d_ledger (dispatchRun (web3 := anyAddress) false noDispatch (events ++ more)))
      !! transactionKey "P" "g" = Some failed.
Proof.
  intros events more.
  assert (paidRewards (d_ledger (dispatchRun (web3 := anyAddress) false noDispatch events))
            !! transactionKey "P" "g" = Some failed) as Hfailed by (by vm_compute).
  split; [exact Hfailed|].
  apply (settled_entries_never_change (web3 := anyAddress) false events more _ _ Hfailed).
  discriminate.
Defined.

Lemma completed_entry_has_one_transaction_witness :
  let events := [Invoke "P" "g" 6; Resume 0 true; Resume 0 true; Invoke "P" "g" 6] in
  let l := d_ledger (dispatchRun (web3 := anyAddress) false noDispatch events) in
  paidRewards l !! transactionKey "P" "g" = Some completed
  ∧ sentFor (transactionKey "P" "g") l = 1%nat
  ∧ paidRewards l !! transactionKey "Q" "g" = None
  ∧ sentFor (transactionKey "Q" "g") l = 0%nat.
Proof.
  intros events l.
  assert (paidRewards l !! transactionKey "P" "g" = Some completed) as Hdone
    by (by vm_compute).
  assert (paidRewards l !! transactionKey "Q" "g" = None) as Hnone by (by vm_compute).
  destruct (completed_entry_has_one_transaction (web3 := anyAddress) false events
              (transactionKey "P" "g")) as [H1 _].
  destruct (completed_entry_has_one_transaction (web3 := anyAddress) false events
              (transactionKey "Q" "g")) as [_ H0].
  split; [exact Hdone|]. split; [by apply H1|]. split; [exact Hnone|]. by apply H0.
Defined.

(** ** Handlers that only read *)

Section Reads.

Lemma samePlay_refl g : samePlay g g.
Proof. by repeat split. Qed.

Lemma onlyReads_refl s : onlyReads s s.
Proof. repeat split; try done. intros ref g Hg. exists g. split; [done | apply samePlay_refl]. Qed.

Lemma onlyReads_update ref (f : GameState → GameState) s :
  (∀ g, samePlay (f g) g) → onlyReads s (update ref f s).
Proof.
  intros Hf. split; [done|]. split; [done|]. split; [cbn; by rewrite length_alter|].
  intros r g Hg. cbn. destruct (decide (r = ref)) as [->|Hne].
  - rewrite list_lookup_alter_eq, Hg. cbn. eauto.
  - rewrite list_lookup_alter_ne by done. exists g. split; [done | apply samePlay_refl].
Qed.

Lemma onlyReads_frame s s' s'' :
  onlyReads s s' → heap s'' = heap s' → ledger s'' = ledger s' → tasks s'' = tasks s' →
  onlyReads s s''.
Proof. intros (? & ? & ? & ?) Hh Hl Ht. unfold onlyReads. rewrite Hh, Hl, Ht. done. Qed.

Lemma verifyTimeRemaining_onlyReads now ref pid s :
  onlyReads s (ByPlayer.verifyTimeRemaining now ref pid s).1.
Proof.
  unfold ByPlayer.verifyTimeRemaining. destruct (heap s !! ref) as [g|]; [|apply onlyReads_refl].
  destruct ((Z.max 0 _ <=? 0) && negb (isEnded g)); [|apply onlyReads_refl].
  cbn [fst]. case_bool_decide.
  - eapply onlyReads_frame; [apply (onlyReads_update ref)|done..]. by intros g0.
  - apply onlyReads_update. by intros g0.
Qed.

Lemma verifyTimeRemaining_by_game_onlyReads now ref s :
  onlyReads s (ByGameId.verifyTimeRemaining now ref s).1.
Proof.
  unfold ByGameId.verifyTimeRemaining. destruct (heap s !! ref) as [g|]; [|apply onlyReads_refl].
  destruct ((Z.max 0 _ <=? 0) && negb (isEnded g)); [|apply onlyReads_refl].
  unfold ByGameId.handleTimedOutGame. cbn [fst]. case_bool_decide.
  - eapply onlyReads_frame; [apply (onlyReads_update ref)|done..]. by intros g0.
  - apply onlyReads_update. by intros g0.
Qed.

(** X5. The status and hold handlers of both servers and the time handler
    never send a transaction, never start a payout and never touch a hand:
    the ledger and the suspended payouts are as before, and every game
    object keeps its identity, cards, deck, combination, reward, round
    counter and [rewardPaid]. *)
Theorem reading_handlers_never_pay (now : Z) (gid : string) (cardIndexes : list Z) (s : Server) :
  onlyReads s (ByPlayer.status now gid s).1
  ∧ onlyReads s (ByPlayer.hold now gid cardIndexes s).1
  ∧ onlyReads s (Sessions.time now gid s).1
  ∧ onlyReads s (ByGameId.status now gid s).1
  ∧ onlyReads s (ByGameId.hold gid cardIndexes s).1.
Proof.
  split; [|split; [|split; [|split]]].
  - unfold ByPlayer.status.
    destruct (ByPlayer.findGame _ _ _) as [[[pid ref] g]|]; [|apply onlyReads_refl].
    pose proof (verifyTimeRemaining_onlyReads now ref pid s) as Hv.
    destruct (ByPlayer.verifyTimeRemaining now ref pid s) as [s1 [tc|]]; [|exact Hv].
    destruct (ByPlayer.tc_isTimedOut tc); [|exact Hv].
    eapply onlyReads_frame; [exact Hv|done..].
  - unfold ByPlayer.hold.
    destruct (ByPlayer.findGame _ _ _) as [[[pid ref] g]|]; [|apply onlyReads_refl].
    destruct (2 <? length cardIndexes)%nat; [apply onlyReads_refl|].
    destruct ((roundsPlayed g =? 0) || (roundsPlayed g >=? 3)); [apply onlyReads_refl|].
    eapply onlyReads_frame; [apply (onlyReads_update ref)|done..]. by intros g0.
  - unfold Sessions.time.
    destruct (ByPlayer.findGame _ _ _) as [[[pid ref] g]|]; [|apply onlyReads_refl].
    destruct ((Z.max 0 _ <=? 0) && negb (isEnded g)); [|apply onlyReads_refl].
    eapply onlyReads_frame; [apply (onlyReads_update ref)|done..]. by intros g0.
  - unfold ByGameId.status.
    destruct (ByGameId.getGame s gid) as [[ref g]|]; [|apply onlyReads_refl].
    pose proof (verifyTimeRemaining_by_game_onlyReads now ref s) as Hv.
    destruct (ByGameId.verifyTimeRemaining now ref s) as [s1 tc].
    destruct (ByGameId.timedOutSays tc); [|exact Hv].
    eapply onlyReads_frame; [exact Hv|done..].
  - unfold ByGameId.hold.
    destruct (ByGameId.getGame s gid) as [[ref g]|]; [|apply onlyReads_refl].
    destruct (2 <? length cardIndexes)%nat; [apply onlyReads_refl|].
    destruct ((roundsPlayed g =? 0) || (roundsPlayed g >=? 3)); [apply onlyReads_refl|].
    eapply onlyReads_frame; [apply (onlyReads_update ref)|done..]. by intros g0.
Qed.

End Reads.

(** ** The registry as a map *)

Section RegistryMap.

Lemma registryGet_set_eq (m : list (string * nat)) k v :
  registryGet (registrySet m k v) k = Some v.
Proof.
  induction m as [|[k' v'] m IH]; cbn.
  - by rewrite bool_decide_eq_true_2.
  - destruct (bool_decide (k' = k)) eqn:Hk; cbn.
    + by rewrite bool_decide_eq_true_2.
    + by rewrite Hk.
Qed.

Lemma registryGet_set_ne (m : list (string * nat)) k k' v :
  k ≠ k' → registryGet (registrySet m k v) k' = registryGet m k'.
Proof.
  intros Hne. induction m as [|[k0 v0] m IH]; cbn.
  - by rewrite bool_decide_eq_false_2.
  - destruct (bool_decide (k0 = k)) eqn:Hk; cbn.
    + apply bool_decide_eq_true in Hk as ->.
      by rewrite !bool_decide_eq_false_2.
    + by rewrite IH.
Qed.

Lemma registryGet_delete_ne (m : list (string * nat)) k k' :
  k ≠ k' → registryGet (registryDelete m k) k' = registryGet m k'.
Proof.
  intros Hne. unfold registryDelete. induction m as [|[k0 v0] m IH]; [done|].
  rewrite filter_cons. cbn. destruct (decide (k0 ≠ k)) as [Hk|Hk]; cbn.
  - by rewrite IH.
  - apply dec_stable in Hk as ->. by rewrite bool_decide_eq_false_2.
Qed.

Lemma registryGet_None (m : list (string * nat)) k :
  registryGet m k = None ↔ k ∉ m.*1.
Proof.
  induction m as [|[k0 v0] m IH]; cbn.
  - split; [intros _; apply not_elem_of_nil | done].
  - rewrite not_elem_of_cons. case_bool_decide as Hk.
    + split; [done|]. intros [Hne _]. by destruct Hne.
    + rewrite IH. split; [by intros ?; split | by intros [_ ?]].
Qed.

Lemma registryGet_Some (m : list (string * nat)) k v :
  registryGet m k = Some v → (k, v) ∈ m.
Proof.
  induction m as [|[k0 v0] m IH]; cbn; [done|].
  case_bool_decide; [|set_solver]. intros [= ->]. subst. set_solver.
Qed.

Lemma registryDelete_elem_of (m : list (string * nat)) k e :
  e ∈ registryDelete m k ↔ e ∈ m ∧ e.1 ≠ k.
Proof. unfold registryDelete. rewrite list_elem_of_filter. tauto. Qed.

Lemma registryDelete_keys (m : list (string * nat)) k :
  NoDup m.*1 → NoDup (registryDelete m k).*1.
Proof.
  intros Hnd. eapply sublist_NoDup; [exact Hnd|].
  apply fmap_sublist, sublist_filter.
Qed.

Lemma registryDelete_absent (m : list (string * nat)) k :
  registryGet m k = None → registryDelete m k = m.
Proof.
  rewrite registryGet_None. intros Hk. unfold registryDelete.
  induction m as [|[k0 v0] m IH]; [done|].
  rewrite filter_cons. cbn in *. rewrite not_elem_of_cons in Hk.
  destruct Hk as [Hne Hk]. rewrite decide_True by (by intros ->). f_equal. by apply IH.
Qed.

Lemma registrySet_absent (m : list (string * nat)) k v :
  registryGet m k = None → registrySet m k v = m ++ [(k, v)].
Proof.
  induction m as [|[k0 v0] m IH]; cbn; [done|].
  case_bool_decide; [done|]. intros Hm. by rewrite IH.
Qed.

Lemma register_registry playerId gameState s :
  games (Sessions.register playerId gameState s)
  = registryDelete (games s) playerId ++ [(playerId, length (heap s))]
  ∧ heap (Sessions.register playerId gameState s) = heap s ++ [gameState]
  ∧ completedGames (Sessions.register playerId gameState s) = completedGames s
  ∧ ledger (Sessions.register playerId gameState s) = ledger s
  ∧ tasks (Sessions.register playerId gameState s) = tasks s.
Proof.
  unfold Sessions.register, Sessions.registryHas.
  case_bool_decide as Hhas; cbn.
  - rewrite registrySet_absent by apply registryGet_delete. done.
  - assert (registryGet (games s) playerId = None) as Hnone.
    { destruct (registryGet (games s) playerId) eqn:E; [|done]. destruct Hhas. eauto. }
    rewrite registrySet_absent, registryDelete_absent by done. done.
Qed.

Lemma registryOk_register playerId gameState s :
  registryOk s → registryOk (Sessions.register playerId gameState s).
Proof.
  intros [Hnd Hrefs].
  destruct (register_registry playerId gameState s) as (Hg & Hh & _).
  unfold registryOk. rewrite Hg, Hh. split.
  - rewrite fmap_app. cbn. apply NoDup_app. split; [by apply registryDelete_keys|].
    split; [|apply NoDup_singleton].
    intros k Hk ->%list_elem_of_singleton.
    apply list_elem_of_fmap in Hk as ([k' v'] & Hk' & [_ Hne]%registryDelete_elem_of).
    cbn in *. by subst.
  - intros k ref [[Hin _]%registryDelete_elem_of | Hnew%list_elem_of_singleton]%elem_of_app.
    + destruct (Hrefs _ _ Hin) as [g Hg0]. exists g. by apply lookup_app_l_Some.
    + injection Hnew as -> ->. exists gameState. by apply list_lookup_middle.
Qed.

End RegistryMap.

(** ** Start and reset *)

Section Start.
Context {web3 : Web3}.

Lemma findGame_None h entries gid :
  ByPlayer.findGame h entries gid = None
  ↔ ∀ p ref g, (p, ref) ∈ entries → h !! ref = Some g → gameId g ≠ gid.
Proof.
  induction entries as [|[p0 r0] entries IH]; cbn.
  - split; [|done]. by intros _ p ref g ?%elem_of_nil.
  - destruct (h !! r0) as [g0|] eqn:Hg0.
    + case_bool_decide as Hgid.
      * split; [done|]. intros Hall. destruct (Hall p0 r0 g0); [left|..]; done.
      * rewrite IH. split.
        -- intros Hall p ref g [[= -> ->]|Hin]%elem_of_cons Hg; [congruence|].
           by eapply Hall.
        -- intros Hall p ref g Hin. apply (Hall p). by right.
    + rewrite IH. split.
      * intros Hall p ref g [[= -> ->]|Hin]%elem_of_cons Hg; [congruence|].
        by eapply Hall.
      * intros Hall p ref g Hin. apply (Hall p). by right.
Qed.

Lemma findGame_app h entries entries' gid :
  ByPlayer.findGame h (entries ++ entries') gid
  = match ByPlayer.findGame h entries gid with
    | Some found => Some found
    | None => ByPlayer.findGame h entries' gid
    end.
Proof.
  induction entries as [|[p0 r0] entries IH]; cbn; [done|].
  destruct (h !! r0) as [g0|]; [case_bool_decide|]; done.
Qed.

(** X6. The start and the reset handler do the same to the server. A
    request without player id, with an invalid address or without the entry
    fee is answered with status 400 and changes nothing. Otherwise a new
    game object (round 0, no cards, a shuffled deck) is allocated and
    becomes the only session of the player: the player's earlier game, in
    whatever state it was, is no longer found by any game id, the sessions
    of the other players, the completed games, the ledger and the running
    payouts are untouched. *)
Theorem start_replaces_the_session_of_the_player
    (now : Z) (gid : string) (rnd : nat → nat) (playerId : string) (entryFeePaid : bool)
    (s : Server) :
  let fresh := ByPlayer.newGameState gid playerId (createAndShuffleLuckyTripleDeck rnd) now in
  let s' := (Sessions.start now gid rnd playerId entryFeePaid s).1 in
  (Sessions.reset now gid rnd playerId entryFeePaid s).1 = s'
  ∧ (playerId = "" ∨ validPublicKey playerId = false ∨ entryFeePaid = false →
     s' = s
     ∧ ∃ error, (Sessions.start now gid rnd playerId entryFeePaid s).2
                = Sessions.StartError 400 error)
  ∧ (playerId ≠ "" → validPublicKey playerId = true → entryFeePaid = true → registryOk s →
     registryOk s'
     ∧ heap s' = heap s ++ [fresh]
     ∧ registryGet (games s') playerId = Some (length (heap s))
     ∧ (∀ other, other ≠ playerId →
          registryGet (games s') other = registryGet (games s) other)
     ∧ completedGames s' = completedGames s
     ∧ ledger s' = ledger s
     ∧ tasks s' = tasks s
     ∧ (∀ gid' p ref g,
          ByPlayer.findGame (heap s') (games s') gid' = Some (p, ref, g) →
          (p = playerId ∧ ref = length (heap s) ∧ g = fresh)
          ∨ (p ≠ playerId ∧ (p, ref) ∈ games s ∧ heap s !! ref = Some g))
     ∧ ((∀ p ref g, (p, ref) ∈ games s → p ≠ playerId → heap s !! ref = Some g →
                    gameId g ≠ gid) →
        ByPlayer.findGame (heap s') (games s') gid
        = Some (playerId, length (heap s), fresh))).
Proof.
  cbn zeta. split; [|split].
  - unfold Sessions.reset, Sessions.start.
    repeat (case_bool_decide || destruct (negb _)); done.
  - unfold Sessions.start. intros [-> | [Hv | ->]].
    + cbn. eauto.
    + rewrite Hv. case_bool_decide; cbn; eauto.
    + case_bool_decide; [cbn; eauto|]. destruct (negb (validPublicKey _)); cbn; eauto.
  - intros Hpid Hvalid -> Hok. unfold Sessions.start.
    rewrite bool_decide_eq_false_2, Hvalid by done. cbn [negb fst].
    set (fresh := ByPlayer.newGameState _ _ _ _).
    destruct (register_registry playerId fresh s) as (Hg & Hh & Hc & Hl & Ht).
    pose proof (registryOk_register playerId fresh s Hok) as Hok'.
    destruct Hok as [Hnd Hrefs].
    assert (∀ p ref, (p, ref) ∈ registryDelete (games s) playerId →
              (heap s ++ [fresh]) !! ref = heap s !! ref) as Hold.
    { intros p ref [Hin _]%registryDelete_elem_of.
      destruct (Hrefs _ _ Hin) as [g0 Hg0]. rewrite Hg0. by apply lookup_app_l_Some. }
    split; [done|]. split; [done|]. split.
    { rewrite Hg. apply registryGet_elem_of; [by rewrite <- Hg; apply Hok'|].
      apply elem_of_app. right. by apply list_elem_of_singleton. }
    split.
    { intros other Hother. rewrite Hg.
      rewrite <- (registrySet_absent _ _ _ (registryGet_delete (games s) playerId)).
      rewrite registryGet_set_ne, registryGet_delete_ne by done. done. }
    do 3 (split; [done|]). split.
    { intros gid' p ref g Hfind. apply findGame_Some in Hfind as (Href & _ & Hin).
      rewrite Hg in Hin. rewrite Hh in Href.
      apply elem_of_app in Hin as [Hin | Hin%list_elem_of_singleton].
      - right. rewrite (Hold _ _ Hin) in Href.
        apply registryDelete_elem_of in Hin as [Hin Hne]. done.
      - left. injection Hin as -> ->. rewrite list_lookup_middle in Href by done.
        by injection Href as <-. }
    intros Hothers. rewrite Hg, Hh, findGame_app.
    assert (ByPlayer.findGame (heap s ++ [fresh]) (registryDelete (games s) playerId) gid
            = None) as ->.
    { apply findGame_None. intros p ref g Hin Href. rewrite (Hold _ _ Hin) in Href.
      apply registryDelete_elem_of in Hin as [Hin Hne]. by eapply Hothers. }
    cbn. rewrite list_lookup_middle by done. cbn.
    by rewrite bool_decide_eq_true_2.
Qed.

End Start.

Lemma registryOk_byPlayer : registryOk Sample.byPlayer.
Proof.
  split; cbn.
  - apply NoDup_singleton.
  - intros k ref [= -> ->]%list_elem_of_singleton. cbn. eauto.
Qed.

Lemma start_replaces_the_session_of_the_player_witness :
  let s := Sample.byPlayer in
  let s' := (Sessions.start (web3 := anyAddress) 5000 "g2" (λ i, i) "P" true s).1 in
  registryOk s
  ∧ ByPlayer.findGame (heap s) (games s) "g1" = Some ("P", 0%nat, Sample.game (Some 1000))
  ∧ registryGet (games s') "P" = Some 1%nat
  ∧ ByPlayer.findGame (heap s') (games s') "g1" = None
  ∧ ledger s' = ledger s.
Proof.
  destruct (start_replaces_the_session_of_the_player (web3 := anyAddress)
              5000 "g2" (λ i, i) "P" true Sample.byPlayer) as (_ & _ & H).
  destruct H as (_ & _ & Hget & _ & _ & Hl & _); [done | done | done | apply registryOk_byPlayer |].
  split; [apply registryOk_byPlayer|]. split; [reflexivity|].
  split; [exact Hget|]. split; [vm_compute; reflexivity | exact Hl].
Defined.

(** ** The deadline *)

Section Deadline.
Context {web3 : Web3}.

Lemma timed_out_answers later gid s pid ref g :
  ByPlayer.findGame (heap s) (games s) gid = Some (pid, ref, g) →
  isEnded g = false →
  GAME_CONFIG.GAME_TIMEOUT_MS ≤ later - timestamp g →
  let rejected := ByPlayer.TimedOut 400 "Game has timed out" 0 true true later in
  (ByPlayer.status later gid s).2 = rejected
  ∧ (ByPlayer.check later gid s).2 = rejected
  ∧ ∀ rnd, (ByPlayer.draw later rnd gid s).2 = rejected.
Proof.
  intros Hfind Hended Hlate rejected.
  pose proof (findGame_Some _ _ _ _ _ _ Hfind) as (Hheap & _ & _).
  destruct (verifyTimeRemaining_expired later ref pid s g Hheap Hended Hlate)
    as (s1 & Hverify & _).
  unfold ByPlayer.status, ByPlayer.check, ByPlayer.draw.
  rewrite Hfind, Hended, Hverify. done.
Qed.

Lemma hold_found now gid cardIndexes s pid ref g :
  ByPlayer.findGame (heap s) (games s) gid = Some (pid, ref, g) →
  NoDup (games s).*1 →
  ∃ g', ByPlayer.findGame (heap (ByPlayer.hold now gid cardIndexes s).1)
          (games (ByPlayer.hold now gid cardIndexes s).1) gid = Some (pid, ref, g')
        ∧ isEnded g' = isEnded g ∧ timestamp g' = timestamp g.
Proof.
  intros Hfind Hnd. unfold ByPlayer.hold. rewrite Hfind.
  destruct (2 <? length cardIndexes)%nat; [by exists g|].
  destruct ((roundsPlayed g =? 0) || (roundsPlayed g >=? 3)); [by exists g|].
  cbn [fst heap games set_games update set_heap].
  pose proof (findGame_Some _ _ _ _ _ _ Hfind) as (_ & _ & Hin).
  rewrite (registryGet_set_same (games s) pid ref) by by apply registryGet_elem_of.
  eexists. split; [|split]; [by apply findGame_alter|done..].
Qed.

(** X7. A hold does not extend the deadline: the time budget of a game runs
    from its creation, so once it has elapsed, status, check and draw answer
    'Game has timed out' also when a hold was accepted in between, whatever
    the time of the hold. *)
Theorem hold_does_not_extend_the_deadline
    (now later : Z) (gid : string) (cardIndexes : list Z) (s : Server) pid ref g :
  ByPlayer.findGame (heap s) (games s) gid = Some (pid, ref, g) →
  NoDup (games s).*1 →
  isEnded g = false →
  GAME_CONFIG.GAME_TIMEOUT_MS ≤ later - timestamp g →
  let s1 := (ByPlayer.hold now gid cardIndexes s).1 in
  let rejected := ByPlayer.TimedOut 400 "Game has timed out" 0 true true later in
  (ByPlayer.status later gid s1).2 = rejected
  ∧ (ByPlayer.check later gid s1).2 = rejected
  ∧ ∀ rnd, (ByPlayer.draw later rnd gid s1).2 = rejected.
Proof.
  intros Hfind Hnd Hended Hlate.
  destruct (hold_found now gid cardIndexes s pid ref g Hfind Hnd) as (g' & Hfind' & He & Ht).
  apply (timed_out_answers later gid _ pid ref g' Hfind'); congruence.
Qed.

(** X8. The time handler flags an expired game as ended and timed out and
    records a timeout, but leaves it in the registry. Until the delayed
    delete runs, the game is an ended game for the other handlers: status
    answers with a snapshot (not with the timed-out error), draw with 'Game
    has already ended', and check goes through: it answers with the hand on
    the table, replaces the timeout record by a win or loss, and starts
    the payout of a reward that is positive and not yet paid. *)
Theorem time_flags_an_expired_game_and_keeps_it
    (now : Z) (gid : string) (s : Server) pid ref g :
  ByPlayer.findGame (heap s) (games s) gid = Some (pid, ref, g) →
  NoDup (games s).*1 →
  isEnded g = false →
  GAME_CONFIG.GAME_TIMEOUT_MS ≤ now - timestamp g →
  ∃ s',
    Sessions.time now gid s = (s', Sessions.TimeOk (ByPlayer.mkTimeCheck 0 true true now))
    ∧ games s' = games s
    ∧ heap s' !! ref = Some (set_timedOut true (set_isEnded true g))
    ∧ completedGames s' !! gid = Some (mkCompleted pid timeout now true)
    ∧ ledger s' = ledger s
    ∧ tasks s' = tasks s
    ∧ (∀ later, ∃ remaining,
         ByPlayer.status later gid s'
         = (s', ByPlayer.StatusOk
                  (ByPlayer.mkStatusBody gid pid true true remaining later
                     (maxRounds g - roundsPlayed g) (currentCombination g)
                     (currentReward g) (rewardPaid g))))
    ∧ (∀ later rnd,
         ByPlayer.draw later rnd gid s' = (s', ByPlayer.Error 400 "Game has already ended"))
    ∧ (∀ later, ∃ s'',
         ByPlayer.check later gid s'
         = (s'', ByPlayer.CheckOk
                   (ByPlayer.mkCheckBody gid pid (currentCombination g) (currentReward g)
                      true true (currentReward g >? 0) 0 (rewardPaid g)))
         ∧ completedGames s'' !! gid
           = Some (mkCompleted pid (if currentReward g >? 0 then win else loss) later false)
         ∧ ledger s''
           = (if (currentReward g >? 0) && negb (rewardPaid g)
              then (sendCardsReward (playerId g) gid (currentReward g) (ledger s)).1
              else ledger s)).
Proof.
  intros Hfind Hnd Hended Hlate.
  pose proof (findGame_Some _ _ _ _ _ _ Hfind) as (Hheap & Hgid & Hin).
  unfold Sessions.time. rewrite Hfind, Hended.
  assert ((Z.max 0 (GAME_CONFIG.GAME_TIMEOUT_MS - (now - timestamp g)) <=? 0) = true) as ->
    by lia.
  cbn [andb negb].
  set (F := λ g0 : GameState, set_timedOut true (set_isEnded true g0)).
  set (s' := set_completedGames _ (update ref F s)).
  assert (ByPlayer.findGame (heap s') (games s') gid = Some (pid, ref, F g)) as Hfind'.
  { subst s'. cbn. by apply findGame_alter. }
  assert (heap s' !! ref = Some (F g)) as Hheap'.
  { subst s'. cbn. by rewrite list_lookup_alter_eq, Hheap. }
  exists s'. split; [done|]. split; [done|]. split; [done|].
  split; [subst s'; cbn; rewrite Hgid; apply lookup_insert_eq|].
  split; [done|]. split; [done|]. split; [|split].
  - intros later.
    destruct (verifyTimeRemaining_in_time later ref pid s' (F g) Hheap') as [remaining Hv];
      [by left|].
    exists remaining. unfold ByPlayer.status. rewrite Hfind', Hv.
    cbn [ByPlayer.tc_isTimedOut]. unfold current. rewrite Hheap'. cbn. by rewrite Hgid.
  - intros later rnd. unfold ByPlayer.draw. by rewrite Hfind'.
  - intros later.
    destruct (check_accepted later gid s' pid ref (F g) Hfind') as (s'' & Hc & _ & _ & Hcg & Hl & _);
      [done | by left |].
    exists s''. cbn in Hc, Hcg, Hl. rewrite Hgid in Hc, Hcg, Hl.
    split; [exact Hc|]. split; [rewrite Hcg; apply lookup_insert_eq | exact Hl].
Qed.

End Deadline.

Lemma hold_does_not_extend_the_deadline_witness :
  let s := Sample.byPlayer in
  let s1 := (ByPlayer.hold 59000 "g1" [0; 1] s).1 in
  ByPlayer.findGame (heap s) (games s) "g1" = Some ("P", 0%nat, Sample.game (Some 1000))
  ∧ (lastActionTime <$> heap s1 !! 0%nat) = Some (Some 59000)
  ∧ (ByPlayer.status 61000 "g1" s1).2
    = ByPlayer.TimedOut 400 "Game has timed out" 0 true true 61000.
Proof.
  split; [reflexivity|]. split; [reflexivity|].
  refine (proj1 (hold_does_not_extend_the_deadline (web3 := anyAddress)
                   59000 61000 "g1" [0; 1] Sample.byPlayer "P" 0%nat
                   (Sample.game (Some 1000)) _ _ _ _)).
  - reflexivity.
  - apply NoDup_singleton.
  - reflexivity.
  - vm_compute. discriminate.
Defined.

Lemma time_flags_an_expired_game_and_keeps_it_witness :
  let s := Sample.byPlayer in
  ByPlayer.findGame (heap s) (games s) "g1" = Some ("P", 0%nat, Sample.game (Some 1000))
  ∧ ∃ s', Sessions.time 61000 "g1" s
          = (s', Sessions.TimeOk (ByPlayer.mkTimeCheck 0 true true 61000))
          ∧ games s' = games s
          ∧ ∃ s'', ByPlayer.check (web3 := anyAddress) 62000 "g1" s'
                   = (s'', ByPlayer.CheckOk
                             (ByPlayer.mkCheckBody "g1" "P" Straight 6 true true true 0 false)).
Proof.
  split; [reflexivity|].
  destruct (time_flags_an_expired_game_and_keeps_it (web3 := anyAddress)
              61000 "g1" Sample.byPlayer "P" 0%nat (Sample.game (Some 1000)))
    as (s' & Ht & Hg & _ & _ & _ & _ & _ & _ & Hcheck).
  - reflexivity.
  - apply NoDup_singleton.
  - reflexivity.
  - vm_compute. discriminate.
  - exists s'. split; [exact Ht|]. split; [exact Hg|].
    destruct (Hcheck 62000) as (s'' & Hc & _). exists s''. exact Hc.
Defined.

(** ** The periodic sweeps *)

Section Sweep.

Lemma registry_functional (m : list (string * nat)) k v v' :
  NoDup m.*1 → (k, v) ∈ m → (k, v') ∈ m → v = v'.
Proof.
  intros Hnd H1 H2.
  apply (registryGet_elem_of _ _ _ Hnd) in H1, H2. congruence.
Qed.

Lemma registryGet_swept (m m' : list (string * nat)) (keep : string * nat → Prop) k v :
  NoDup m.*1 → m' `sublist_of` m →
  (∀ e', e' ∈ m' ↔ e' ∈ m ∧ ∀ e, e ∈ m → e.1 = e'.1 → keep e) →
  registryGet m k = Some v →
  (keep (k, v) → registryGet m' k = Some v)
  ∧ (¬ keep (k, v) → registryGet m' k = None).
Proof.
  intros Hnd Hsub Hin Hget. apply registryGet_Some in Hget.
  assert (NoDup m'.*1) as Hnd'.
  { eapply sublist_NoDup; [exact Hnd|]. by apply fmap_sublist. }
  split.
  - intros Hkeep. apply registryGet_elem_of; [done|]. apply Hin. split; [done|].
    intros [k0 v0] He Hk. cbn in Hk. subst k0.
    by rewrite (registry_functional m k v0 v Hnd He Hget).
  - intros Hkeep. apply registryGet_None. intros Hk.
    apply list_elem_of_fmap in Hk as ([k0 v0] & Hk0 & He). cbn in Hk0. subst k0.
    apply Hin in He as [He Hall]. apply Hkeep.
    rewrite <- (registry_functional m k v0 v Hnd He Hget). by apply (Hall (k, v0)).
Qed.

Lemma sweepSession_fold oneHourAgo es s0 :
  let s1 := foldl (Sessions.sweepSession oneHourAgo) s0 es in
  heap s1 = heap s0 ∧ completedGames s1 = completedGames s0
  ∧ ledger s1 = ledger s0 ∧ tasks s1 = tasks s0
  ∧ games s1 `sublist_of` games s0
  ∧ ∀ e', e' ∈ games s1
          ↔ e' ∈ games s0 ∧ ∀ e, e ∈ es → e.1 = e'.1 → active oneHourAgo (heap s0) e.
Proof.
  revert s0. induction es as [|e es IH]; intros s0; cbn zeta.
  - cbn. do 5 (split; [done|]). intros e'. split; [|tauto].
    intros He'. split; [done|]. by intros e ?%elem_of_nil.
  - cbn [foldl]. specialize (IH (Sessions.sweepSession oneHourAgo s0 e)). cbn zeta in IH.
    destruct IH as (Hh & Hc & Hl & Ht & Hsub & Hin).
    set (s0' := Sessions.sweepSession oneHourAgo s0 e) in *.
    assert (heap s0' = heap s0 ∧ completedGames s0' = completedGames s0
            ∧ ledger s0' = ledger s0 ∧ tasks s0' = tasks s0
            ∧ games s0' `sublist_of` games s0
            ∧ ∀ e', e' ∈ games s0'
                    ↔ e' ∈ games s0 ∧ (e.1 = e'.1 → active oneHourAgo (heap s0) e))
      as (Hh' & Hc' & Hl' & Ht' & Hsub' & Hin').
    { subst s0'. unfold Sessions.sweepSession, active.
      destruct (heap s0 !! e.2) as [g|] eqn:Hg.
      - destruct (Sessions.lastActive g <? oneHourAgo) eqn:Hstale; cbn.
        + do 4 (split; [done|]). split; [apply sublist_filter|].
          intros e'. rewrite registryDelete_elem_of. split.
          * intros [He' Hne]. split; [done|]. intros Heq. by destruct Hne.
          * intros [He' Hact]. split; [done|]. intros Heq. symmetry in Heq.
            specialize (Hact Heq g eq_refl). lia.
        + do 5 (split; [done|]). intros e'. split; [|tauto].
          intros He'. split; [done|]. intros _ g' [= <-]. lia.
      - do 5 (split; [done|]). intros e'. split; [|tauto].
        intros He'. split; [done|]. by intros _ g'. }
    rewrite Hh, Hc, Hl, Ht. do 4 (split; [done|]).
    split; [by etrans|].
    intros e'. rewrite Hin, Hin', Hh'. split.
    + intros [[He' Hact] Hall]. split; [done|].
      intros e0 [->|He0]%elem_of_cons; [done | by apply Hall].
    + intros [He' Hall]. split; [split; [done|]|].
      * apply Hall. by left.
      * intros e0 He0. apply Hall. by right.
Qed.

(** X9. [cleanupInactiveGameSessions] removes from the registry exactly the
    sessions whose last action (or, failing that, creation) is more than
    one hour old; it keeps the other sessions as they are and touches no
    game object, no completed game, no ledger entry and no running
    payout. *)
Theorem inactive_sessions_are_swept (now : Z) (s : Server) :
  registryOk s →
  let s' := Sessions.cleanupInactiveGameSessions now s in
  registryOk s'
  ∧ heap s' = heap s ∧ completedGames s' = completedGames s
  ∧ ledger s' = ledger s ∧ tasks s' = tasks s
  ∧ (∀ pid, registryGet (games s) pid = None → registryGet (games s') pid = None)
  ∧ (∀ pid ref g,
       registryGet (games s) pid = Some ref → heap s !! ref = Some g →
       registryGet (games s') pid
       = if decide (Sessions.lastActive g < now - 60 * 60 * 1000) then None else Some ref).
Proof.
  intros [Hnd Hrefs] s'.
  destruct (sweepSession_fold (now - 60 * 60 * 1000) (games s) s)
    as (Hh & Hc & Hl & Ht & Hsub & Hin).
  fold (Sessions.cleanupInactiveGameSessions now s) in Hh, Hc, Hl, Ht, Hsub, Hin.
  fold s' in Hh, Hc, Hl, Ht, Hsub, Hin.
  split; [|do 4 (split; [done|]); split].
  - split.
    + eapply sublist_NoDup; [exact Hnd|]. by apply fmap_sublist.
    + intros k ref Hk. rewrite Hh. apply (Hrefs k). by apply Hin.
  - intros pid. rewrite !registryGet_None. intros Hpid Hpid'. apply Hpid.
    eapply elem_of_sublist; [exact Hpid'|]. by apply fmap_sublist.
  - intros pid ref g Hget Hg.
    destruct (registryGet_swept (games s) (games s')
                (active (now - 60 * 60 * 1000) (heap s)) pid ref Hnd Hsub Hin Hget)
      as [Hkeep Hdrop].
    destruct (decide _) as [Hstale|Hfresh].
    + apply Hdrop. intros Hact. by apply (Hact g).
    + apply Hkeep. intros g' Hg'. cbn in Hg'. congruence.
Qed.

End Sweep.

Lemma inactive_sessions_are_swept_witness :
  let s := Sample.byPlayer in
  registryOk s
  ∧ registryGet (games (Sessions.cleanupInactiveGameSessions 3601000 s)) "P" = Some 0%nat
  ∧ registryGet (games (Sessions.cleanupInactiveGameSessions 3601001 s)) "P" = None.
Proof.
  split; [apply registryOk_byPlayer|]. split.
  - exact (proj2 (proj2 (proj2 (proj2 (proj2 (proj2
             (inactive_sessions_are_swept 3601000 Sample.byPlayer registryOk_byPlayer))))))
             "P" 0%nat (Sample.game (Some 1000)) eq_refl eq_refl).
  - reflexivity.
Defined.

Section SweepByGame.

Lemma sweepGame_step now s0 e :
  let s0' := Sweeps.sweepGame now s0 e in
  ledger s0' = ledger s0 ∧ tasks s0' = tasks s0
  ∧ games s0' `sublist_of` games s0
  ∧ (∀ e', e' ∈ games s0' ↔ e' ∈ games s0 ∧ (e.1 = e'.1 → running now (heap s0) e))
  ∧ (∀ ref g, heap s0 !! ref = Some g →
       heap s0' !! ref
       = Some (if overdue now g && bool_decide (ref = e.2)
               then set_timedOut true (set_isEnded true g) else g)).
Proof.
  unfold Sweeps.sweepGame, running, overdue. destruct (heap s0 !! e.2) as [g|] eqn:Hg.
  - destruct (isEnded g) eqn:Hended; [|destruct (_ >? _) eqn:Hlate].
    + cbn. do 2 (split; [done|]). split; [apply sublist_filter|]. split.
      * intros e'. rewrite registryDelete_elem_of. split.
        -- intros [He' Hne]. split; [done|]. intros Heq. by destruct Hne.
        -- intros [He' Hrun]. split; [done|]. intros Heq. symmetry in Heq.
           destruct (Hrun Heq g eq_refl). congruence.
      * intros ref g' Hg'. case_bool_decide as Href; [|by rewrite andb_false_r].
        subst ref. assert (g' = g) as -> by congruence. by rewrite Hended.
    + unfold ByGameId.handleTimedOutGame. cbn.
      split; [by case_bool_decide|]. split; [by case_bool_decide|].
      split; [case_bool_decide; apply sublist_filter|]. split.
      * intros e'.
        assert (games (if bool_decide (playerId g ≠ "")
                       then set_completedGames
                              (<[gameId g := mkCompleted (playerId g) timeout now true]>
                                 (completedGames s0))
                              (update e.2 (λ g0, set_timedOut true (set_isEnded true g0)) s0)
                       else update e.2 (λ g0, set_timedOut true (set_isEnded true g0)) s0)
                = games s0) as -> by by case_bool_decide.
        rewrite registryDelete_elem_of. split.
        -- intros [He' Hne]. split; [done|]. intros Heq. by destruct Hne.
        -- intros [He' Hrun]. split; [done|]. intros Heq. symmetry in Heq.
           destruct (Hrun Heq g eq_refl). lia.
      * intros ref g' Hg'.
        assert (heap (if bool_decide (playerId g ≠ "")
                      then set_completedGames
                             (<[gameId g := mkCompleted (playerId g) timeout now true]>
                                (completedGames s0))
                             (update e.2 (λ g0, set_timedOut true (set_isEnded true g0)) s0)
                      else update e.2 (λ g0, set_timedOut true (set_isEnded true g0)) s0)
                = alter (λ g0, set_timedOut true (set_isEnded true g0)) e.2 (heap s0)) as ->
          by by case_bool_decide.
        case_bool_decide as Href.
        -- subst ref. assert (g' = g) as -> by congruence.
           rewrite list_lookup_alter_eq, Hg, Hended, Hlate. done.
        -- rewrite list_lookup_alter_ne, andb_false_r by done. done.
    + do 3 (split; [done|]). split.
      * intros e'. split; [|tauto]. intros He'. split; [done|].
        intros _ g' [= <-]. split; [done | lia].
      * intros ref g' Hg'. case_bool_decide as Href; [|by rewrite andb_false_r].
        subst ref. assert (g' = g) as -> by congruence. by rewrite Hended, Hlate.
  - do 3 (split; [done|]). split.
    + intros e'. split; [|tauto]. intros He'. split; [done|]. by intros _ g'.
    + intros ref g' Hg'. case_bool_decide as Href; [|by rewrite andb_false_r].
      subst ref. congruence.
Qed.

Lemma sweepGame_fold now es s0 :
  let s1 := foldl (Sweeps.sweepGame now) s0 es in
  ledger s1 = ledger s0 ∧ tasks s1 = tasks s0
  ∧ games s1 `sublist_of` games s0
  ∧ (∀ e', e' ∈ games s1
           ↔ e' ∈ games s0 ∧ ∀ e, e ∈ es → e.1 = e'.1 → running now (heap s0) e)
  ∧ (∀ ref g, heap s0 !! ref = Some g →
       heap s1 !! ref
       = Some (if overdue now g && bool_decide (ref ∈ es.*2)
               then set_timedOut true (set_isEnded true g) else g)).
Proof.
  revert s0. induction es as [|e es IH]; intros s0; cbn zeta.
  - cbn. do 3 (split; [done|]). split.
    + intros e'. split; [|tauto]. intros He'. split; [done|]. by intros e ?%elem_of_nil.
    + intros ref g Hg. by rewrite andb_false_r.
  - cbn [foldl]. specialize (IH (Sweeps.sweepGame now s0 e)). cbn zeta in IH.
    destruct IH as (Hl & Ht & Hsub & Hin & Hheap).
    destruct (sweepGame_step now s0 e) as (Hl' & Ht' & Hsub' & Hin' & Hheap').
    set (s0' := Sweeps.sweepGame now s0 e) in *.
    assert (∀ e0, running now (heap s0') e0 ↔ running now (heap s0) e0) as Hrun.
    { intros e0. unfold running. split.
      - intros Hr g Hg. specialize (Hr _ (Hheap' _ _ Hg)). revert Hr.
        destruct (overdue now g && _); [|done]. cbn. intros [? _]. done.
      - intros Hr g' Hg'. destruct (heap s0 !! e0.2) as [g|] eqn:Hg.
        + specialize (Hr g eq_refl). rewrite (Hheap' _ _ Hg) in Hg'.
          assert (overdue now g = false) as Hover.
          { unfold overdue. destruct Hr as [-> Hr]. cbn. lia. }
          rewrite Hover in Hg'. cbn in Hg'. by injection Hg' as <-.
        + apply lookup_ge_None in Hg. 
          assert (length (heap s0') = length (heap s0)) as Hlen.
          { subst s0'. unfold Sweeps.sweepGame. destruct (heap s0 !! e.2) as [g0|]; [|done].
            destruct (isEnded g0); [done|]. destruct (_ >? _); [|done].
            unfold ByGameId.handleTimedOutGame. case_bool_decide; cbn; by rewrite length_alter. }
          apply lookup_lt_Some in Hg'. lia. }
    rewrite Hl, Ht. do 2 (split; [done|]). split; [by etrans|]. split.
    + intros e'. rewrite Hin, Hin'. split.
      * intros [[He' Hact] Hall]. split; [done|].
        intros e0 [->|He0]%elem_of_cons; [done|]. intros Heq. apply Hrun. by apply Hall.
      * intros [He' Hall]. split; [split; [done|]|].
        -- apply Hall. by left.
        -- intros e0 He0 Heq. apply Hrun. apply Hall; [by right | done].
    + intros ref g Hg. rewrite (Hheap ref _ (Hheap' ref g Hg)). f_equal.
      rewrite fmap_cons.
      destruct (overdue now g) eqn:Hover; cbn [andb]; [|by rewrite Hover].
      destruct (decide (ref = e.2)) as [->|Hne].
      * rewrite bool_decide_eq_true_2 by done.
        rewrite (bool_decide_eq_true_2 (e.2 ∈ e.2 :: es.*2)) by by left. done.
      * rewrite (bool_decide_eq_false_2 (ref = e.2)) by done. rewrite Hover. cbn [andb].
        destruct (decide (ref ∈ es.*2)) as [Hin0|Hin0].
        -- rewrite !bool_decide_eq_true_2; [done | by right | done].
        -- rewrite !bool_decide_eq_false_2; [done | | done].
           by intros [?|?]%elem_of_cons.
Qed.

(** X10. [cleanupTimedOutGames] removes from the registry of the game-keyed
    server exactly the games that have ended or are more than the time
    budget old, and flags the latter as ended and timed out; a game that is
    still running within its budget stays registered and unchanged. The
    sweep starts no payout and leaves the ledger alone. *)
Theorem timed_out_games_are_swept (now : Z) (s : Server) :
  registryOk s →
  let s' := Sweeps.cleanupTimedOutGames now s in
  NoDup (games s').*1
  ∧ ledger s' = ledger s ∧ tasks s' = tasks s
  ∧ (∀ gid, registryGet (games s) gid = None → registryGet (games s') gid = None)
  ∧ (∀ gid ref g,
       registryGet (games s) gid = Some ref → heap s !! ref = Some g →
       if isEnded g then
         registryGet (games s') gid = None ∧ heap s' !! ref = Some g
       else if now - timestamp g >? GAME_CONFIG.GAME_TIMEOUT_MS then
         registryGet (games s') gid = None
         ∧ heap s' !! ref = Some (set_timedOut true (set_isEnded true g))
       else
         registryGet (games s') gid = Some ref ∧ heap s' !! ref = Some g).
Proof.
  intros [Hnd Hrefs] s'.
  destruct (sweepGame_fold now (games s) s) as (Hl & Ht & Hsub & Hin & Hheap).
  fold (Sweeps.cleanupTimedOutGames now s) in Hl, Ht, Hsub, Hin, Hheap.
  fold s' in Hl, Ht, Hsub, Hin, Hheap.
  split; [|do 2 (split; [done|]); split].
  - eapply sublist_NoDup; [exact Hnd|]. by apply fmap_sublist.
  - intros gid. rewrite !registryGet_None. intros Hgid Hgid'. apply Hgid.
    eapply elem_of_sublist; [exact Hgid'|]. by apply fmap_sublist.
  - intros gid ref g Hget Hg.
    destruct (registryGet_swept (games s) (games s') (running now (heap s)) gid ref
                Hnd Hsub Hin Hget) as [Hkeep Hdrop].
    rewrite (Hheap ref g Hg). unfold overdue.
    assert (bool_decide (ref ∈ (games s).*2) = true) as ->.
    { apply bool_decide_eq_true_2. apply list_elem_of_fmap. exists (gid, ref).
      split; [done | by apply registryGet_Some]. }
    rewrite andb_true_r.
    destruct (isEnded g) eqn:Hended; [|destruct (_ >? _) eqn:Hlate]; cbn [negb andb].
    + split; [|done]. apply Hdrop. intros Hrun. destruct (Hrun g Hg). congruence.
    + split; [|done]. apply Hdrop. intros Hrun. destruct (Hrun g Hg). lia.
    + split; [|done]. apply Hkeep. intros g' Hg'. cbn in Hg'.
      assert (g' = g) as -> by congruence. split; [done | lia].
Qed.

End SweepByGame.

Lemma registryOk_byGameId : registryOk Sample.byGameId.
Proof.
  split; cbn.
  - apply NoDup_singleton.
  - intros k ref [= -> ->]%list_elem_of_singleton. cbn. eauto.
Qed.

Lemma timed_out_games_are_swept_witness :
  let s := Sample.byGameId in
  registryOk s
  ∧ registryGet (games (Sweeps.cleanupTimedOutGames 61000 s)) "g1" = Some 0%nat
  ∧ registryGet (games (Sweeps.cleanupTimedOutGames 61001 s)) "g1" = None
  ∧ (timedOut <$> heap (Sweeps.cleanupTimedOutGames 61001 s) !! 0%nat) = Some true.
Proof.
  split; [apply registryOk_byGameId|].
  pose proof (proj2 (proj2 (proj2 (proj2
                (timed_out_games_are_swept 61001 Sample.byGameId registryOk_byGameId))))
                "g1" 0%nat (Sample.game None) eq_refl eq_refl) as [Hgone Hflag].
  split; [reflexivity|]. split; [exact Hgone|]. rewrite Hflag. reflexivity.
Defined.

(** ** Every state the player-keyed server reaches *)

Section Reachable.
Context {web3 : Web3}.

Lemma evolves_refl g : evolves g g.
Proof. unfold evolves. repeat split; (done || lia). Qed.

Lemma evolves_trans g1 g2 g3 : evolves g1 g2 → evolves g2 g3 → evolves g1 g3.
Proof.
  intros (Hi & Hp & Ht & Hr & Hpaid & He) (Hi' & Hp' & Ht' & Hr' & Hpaid' & He').
  unfold evolves. split; [congruence|]. split; [congruence|]. split; [congruence|].
  split; [lia|]. split; [tauto|]. intros Hended.
  destruct (He Hended) as (E1 & E2 & E3 & E4 & E5 & E6).
  destruct (He' E1) as (F1 & F2 & F3 & F4 & F5 & F6).
  repeat split; congruence.
Qed.

Lemma heapEvolves_refl s : heapEvolves s s.
Proof. intros ref g Hg. exists g. split; [done | apply evolves_refl]. Qed.

Lemma heapEvolves_trans s1 s2 s3 : heapEvolves s1 s2 → heapEvolves s2 s3 → heapEvolves s1 s3.
Proof.
  intros H12 H23 ref g Hg. destruct (H12 ref g Hg) as (g2 & Hg2 & He2).
  destruct (H23 ref g2 Hg2) as (g3 & Hg3 & He3). exists g3. split; [done|].
  by eapply evolves_trans.
Qed.

Lemma heapEvolves_same_heap s s' : heap s' = heap s → heapEvolves s s'.
Proof. intros Hh r g Hr. rewrite Hh. exists g. split; [done | apply evolves_refl]. Qed.

Lemma advances_refl s : advances s s.
Proof. split; [apply heapEvolves_refl | done]. Qed.

Lemma advances_trans s1 s2 s3 : advances s1 s2 → advances s2 s3 → advances s1 s3.
Proof.
  intros [H12 K12] [H23 K23]. split; [by eapply heapEvolves_trans | tauto].
Qed.

Lemma paysFor_evolves g g' receiver gid amount :
  evolves g g' → paysFor g receiver gid amount → paysFor g' receiver gid amount.
Proof.
  intros (Hi & Hp & _ & _ & _ & He) (Hended & Hpos & -> & -> & ->).
  destruct (He Hended) as (E1 & _ & _ & _ & E5 & _).
  unfold paysFor. rewrite E1, E5, Hi, Hp. done.
Qed.

Lemma taskOk_evolves s s' task : heapEvolves s s' → taskOk s task → taskOk s' task.
Proof.
  intros Hev. destruct task as [ref|ref t]; cbn.
  - intros [g Hg]. destruct (Hev ref g Hg) as (g' & Hg' & _). eauto.
  - intros (g & Hg & Hpays). destruct (Hev ref g Hg) as (g' & Hg' & He).
    exists g'. split; [done|]. by eapply paysFor_evolves.
Qed.

Lemma submissionOk_evolves s s' sub :
  heapEvolves s s' → submissionOk s sub → submissionOk s' sub.
Proof.
  intros Hev (ref & g & amount & Hg & Hpays & Hamount).
  destruct (Hev ref g Hg) as (g' & Hg' & He).
  exists ref, g', amount. split; [done|]. split; [by eapply paysFor_evolves | done].
Qed.

(** An in-place update of one object. *)
Lemma advances_update ref (f : GameState → GameState) s :
  (∀ g, heap s !! ref = Some g → evolves g (f g) ∧ (tableOk g → tableOk (f g))) →
  advances s (update ref f s).
Proof.
  intros Hf.
  assert (heapEvolves s (update ref f s)) as Hev.
  { intros r g Hg. cbn. destruct (decide (r = ref)) as [->|Hne].
    - rewrite list_lookup_alter_eq, Hg. cbn. eexists. split; [done|]. by apply Hf.
    - rewrite list_lookup_alter_ne by done. exists g. split; [done | apply evolves_refl]. }
  split; [done|]. intros ([Hnd Hrefs] & Htables & Htasks & Hsubs).
  split; [|split; [|split]].
  - split; [done|]. intros k r Hk. cbn.
    destruct (Hrefs k r Hk) as [g Hg]. destruct (Hev r g Hg) as (g' & Hg' & _). eauto.
  - cbn. apply Forall_alter; [done|]. intros g Hg Hok. by apply Hf.
  - eapply Forall_impl; [exact Htasks|]. intros task. by apply taskOk_evolves.
  - eapply Forall_impl; [exact Hsubs|]. intros sub. by apply submissionOk_evolves.
Qed.

(** A transition that touches neither the objects nor the payouts, and at
    most removes entries from the registry. *)
Lemma advances_frame s s' :
  heap s' = heap s → games s' `sublist_of` games s → tasks s' = tasks s →
  gateway (ledger s') = gateway (ledger s) →
  advances s s'.
Proof.
  intros Hh Hg Ht Hl.
  assert (heapEvolves s s') as Hev.
  { intros r g Hr. rewrite Hh. exists g. split; [done | apply evolves_refl]. }
  split; [done|]. intros ([Hnd Hrefs] & Htables & Htasks & Hsubs).
  split; [|split; [|split]].
  - split.
    + eapply sublist_NoDup; [exact Hnd|]. by apply fmap_sublist.
    + intros k r Hk. rewrite Hh. apply (Hrefs k). by eapply elem_of_sublist.
  - by rewrite Hh.
  - rewrite Ht. eapply Forall_impl; [exact Htasks|]. intros task. by apply taskOk_evolves.
  - rewrite Hl. eapply Forall_impl; [exact Hsubs|]. intros sub. by apply submissionOk_evolves.
Qed.

(** Entries leave the registry. *)
Lemma advances_forget (m : list (string * nat)) s :
  m `sublist_of` games s → advances s (set_games m s).
Proof. intros Hsub. by apply advances_frame. Qed.

(** [playerGameSessions.set(playerId, gameState)] for the object the
    player's entry holds already. *)
Lemma advances_set_again pid ref s :
  (pid, ref) ∈ games s → advances s (set_games (registrySet (games s) pid ref) s).
Proof.
  intros Hin. split; [intros r g Hr; exists g; split; [done | apply evolves_refl]|].
  intros Hok. destruct Hok as ([Hnd Hrefs] & Htables & Htasks & Hsubs).
  rewrite (registryGet_set_same (games s) pid ref) by by apply registryGet_elem_of.
  by destruct s.
Qed.


(** *** Field updates that keep a table sound *)

Lemma tableOk_flags g : tableOk g → tableOk (set_timedOut true (set_isEnded true g)).
Proof. unfold tableOk. cbn. tauto. Qed.

Lemma evolves_flags g :
  isEnded g = false → evolves g (set_timedOut true (set_isEnded true g)).
Proof. intros He. unfold evolves. cbn. rewrite He. repeat split; (done || lia). Qed.

Lemma tableOk_ended now g :
  tableOk g → tableOk (set_lastActionTime (Some now) (set_isEnded true g)).
Proof. unfold tableOk. cbn. tauto. Qed.

Lemma evolves_ended now g :
  evolves g (set_lastActionTime (Some now) (set_isEnded true g)).
Proof. unfold evolves. cbn. repeat split; (done || lia). Qed.

Lemma tableOk_held now held g :
  tableOk g → tableOk (set_lastActionTime (Some now) (set_heldCards held g)).
Proof. unfold tableOk. cbn. tauto. Qed.

Lemma evolves_held now held g :
  evolves g (set_lastActionTime (Some now) (set_heldCards held g)).
Proof. unfold evolves. cbn. repeat split; (done || lia). Qed.

Lemma tableOk_paid g : tableOk g → tableOk (set_rewardPaid true g).
Proof. unfold tableOk. cbn. tauto. Qed.

Lemma evolves_paid g : evolves g (set_rewardPaid true g).
Proof. unfold evolves. cbn. repeat split; (done || lia). Qed.

(** *** The handlers *)

Lemma advances_verifyTimeRemaining now ref pid s :
  advances s (ByPlayer.verifyTimeRemaining now ref pid s).1.
Proof.
  unfold ByPlayer.verifyTimeRemaining.
  destruct (heap s !! ref) as [g|] eqn:Hg; [|apply advances_refl].
  destruct (Z.max 0 _ <=? 0); [|apply advances_refl].
  destruct (isEnded g) eqn:Hended; [apply advances_refl|]. cbn [andb negb fst].
  assert (advances s (update ref (λ g0, set_timedOut true (set_isEnded true g0)) s)) as Hup.
  { apply advances_update. intros g' Hg'. assert (g' = g) as -> by congruence.
    split; [by apply evolves_flags | apply tableOk_flags]. }
  case_bool_decide; [|exact Hup].
  eapply advances_trans; [exact Hup|]. by apply advances_frame.
Qed.

Lemma verifyTimeRemaining_registry now ref pid s :
  games (ByPlayer.verifyTimeRemaining now ref pid s).1 = games s.
Proof.
  unfold ByPlayer.verifyTimeRemaining.
  destruct (heap s !! ref) as [g|]; [|done].
  destruct (_ && _); [|done]. cbn. by case_bool_decide.
Qed.

Lemma advances_hold now gid cardIndexes s :
  advances s (ByPlayer.hold now gid cardIndexes s).1.
Proof.
  unfold ByPlayer.hold.
  destruct (ByPlayer.findGame _ _ _) as [[[pid ref] g]|] eqn:Hfind; [|apply advances_refl].
  destruct (2 <? length cardIndexes)%nat; [apply advances_refl|].
  destruct (_ || _); [apply advances_refl|]. cbn [fst].
  apply findGame_Some in Hfind as (_ & _ & Hin).
  eapply advances_trans; [|by apply advances_set_again].
  apply advances_update. intros g' _. split; [apply evolves_held | apply tableOk_held].
Qed.

Lemma advances_status now gid s : advances s (ByPlayer.status now gid s).1.
Proof.
  unfold ByPlayer.status.
  destruct (ByPlayer.findGame _ _ _) as [[[pid ref] g]|] eqn:Hfind; [|apply advances_refl].
  pose proof (advances_verifyTimeRemaining now ref pid s) as Hv.
  destruct (ByPlayer.verifyTimeRemaining now ref pid s) as [s1 [tc|]]; [|exact Hv].
  destruct (ByPlayer.tc_isTimedOut tc); [|exact Hv]. cbn [fst] in *.
  eapply advances_trans; [exact Hv|]. apply advances_forget, sublist_filter.
Qed.

Lemma advances_time now gid s : advances s (Sessions.time now gid s).1.
Proof.
  unfold Sessions.time.
  destruct (ByPlayer.findGame _ _ _) as [[[pid ref] g]|] eqn:Hfind; [|apply advances_refl].
  apply findGame_Some in Hfind as (Hg & _ & _).
  destruct (Z.max 0 _ <=? 0); [|apply advances_refl].
  destruct (isEnded g) eqn:Hended; [apply advances_refl|]. cbn [andb negb fst].
  eapply advances_trans; [|by apply advances_frame].
  apply advances_update. intros g' Hg'. assert (g' = g) as -> by congruence.
  split; [by apply evolves_flags | apply tableOk_flags].
Qed.


Lemma sendCardsReward_started receiverAddress gid amount l :
  gateway (sendCardsReward receiverAddress gid amount l).1 = gateway l
  ∧ ∀ t, (sendCardsReward receiverAddress gid amount l).2 = Awaiting t →
         t = mkSend receiverAddress gid amount AwaitAccounts.
Proof.
  unfold sendCardsReward. destruct (negb _); [done|].
  case_bool_decide; [done|]. cbn. split; [done|]. by intros t [= <-].
Qed.

(** [processReward] is called on a game that has ended. *)
Lemma advances_processReward ref s :
  (∀ g, heap s !! ref = Some g → isEnded g = true) →
  advances s (processReward ref s).
Proof.
  intros Hended. destruct (processReward_frame ref s) as (Hh & Hg & _).
  assert (heapEvolves s (processReward ref s)) as Hev.
  { intros r g Hr. rewrite Hh. exists g. split; [done | apply evolves_refl]. }
  split; [done|]. intros ([Hnd Hrefs] & Htables & Htasks & Hsubs).
  assert (gateway (ledger (processReward ref s)) = gateway (ledger s)) as Hgw.
  { rewrite processReward_ledger. destruct (heap s !! ref) as [g|]; [|done].
    destruct (rewardPaid g); [done|]. destruct (_ <=? _); [done|].
    apply sendCardsReward_started. }
  split; [|split; [|split]].
  - unfold registryOk. by rewrite Hg, Hh.
  - by rewrite Hh.
  - rewrite processReward_tasks.
    assert (Forall (taskOk (processReward ref s)) (tasks s)) as Hold.
    { eapply Forall_impl; [exact Htasks|]. intros task. by apply taskOk_evolves. }
    destruct (heap s !! ref) as [g|] eqn:Hobj; [|done].
    destruct (rewardPaid g); [done|].
    destruct (currentReward g <=? 0) eqn:Hpos; [done|].
    apply Forall_app. split; [done|].
    destruct (sendCardsReward_started (playerId g) (gameId g) (currentReward g) (ledger s))
      as [_ Hsend].
    destruct (sendCardsReward _ _ _ _) as [l [| |t]]; cbn [taskOf snd] in *.
    + constructor.
    + constructor; [|constructor]. cbn. rewrite Hh, Hobj. eauto.
    + constructor; [|constructor]. cbn. rewrite Hh. exists g. split; [done|].
      rewrite (Hsend t eq_refl). cbn. unfold paysFor.
      split; [by apply Hended|]. split; [lia | done].
  - rewrite Hgw. eapply Forall_impl; [exact Hsubs|]. intros sub.
    by apply submissionOk_evolves.
Qed.

Lemma advances_check now gid s : advances s (ByPlayer.check now gid s).1.
Proof.
  unfold ByPlayer.check.
  destruct (ByPlayer.findGame _ _ _) as [[[pid ref] g]|] eqn:Hfind; [|apply advances_refl].
  apply findGame_Some in Hfind as (Hg & _ & Hin).
  pose proof (advances_verifyTimeRemaining now ref pid s) as Hv.
  pose proof (verifyTimeRemaining_registry now ref pid s) as Hreg.
  destruct (ByPlayer.verifyTimeRemaining now ref pid s) as [s1 [tc|]]; [|exact Hv].
  cbn [fst] in *.
  destruct (ByPlayer.tc_isTimedOut tc).
  { eapply advances_trans; [exact Hv|]. apply advances_forget, sublist_filter. }
  eapply advances_trans; [exact Hv|].
  set (F := λ g0 : GameState, set_lastActionTime (Some now) (set_isEnded true g0)).
  set (s2 := update ref F s1).
  assert (advances s1 s2) as H2.
  { apply advances_update. intros g' _. split; [apply evolves_ended | apply tableOk_ended]. }
  eapply advances_trans; [exact H2|].
  set (s3 := set_completedGames _ s2).
  assert (advances s2 s3) as H3 by by apply advances_frame.
  eapply advances_trans; [exact H3|].
  set (s4 := if _ >? 0 then processReward ref s3 else s3).
  assert (advances s3 s4) as H4.
  { subst s4. destruct (_ >? 0); [|apply advances_refl].
    apply advances_processReward. subst s3 s2. cbn. intros g'.
    rewrite list_lookup_alter_eq. destruct (heap s1 !! ref); [|done]. by intros [= <-]. }
  eapply advances_trans; [exact H4|]. cbn [fst].
  apply advances_set_again.
  assert (games s4 = games s1) as ->; [|by rewrite Hreg].
  subst s4. destruct (_ >? 0); [|done].
  destruct (processReward_frame ref s3) as (_ & -> & _). done.
Qed.

Lemma advances_resumeTask i ok s : advances s (resumeTask false i ok s).
Proof.
  unfold resumeTask. destruct (tasks s !! i) as [[ref|ref t]|] eqn:Hi; [| |apply advances_refl].
  - assert (heapEvolves s (update ref (set_rewardPaid true) (set_tasks (delete i (tasks s)) s)))
      as Hev.
    { intros r g Hg. cbn. destruct (decide (r = ref)) as [->|Hne].
      - rewrite list_lookup_alter_eq, Hg. cbn. eexists. split; [done | apply evolves_paid].
      - rewrite list_lookup_alter_ne by done. exists g. split; [done | apply evolves_refl]. }
    split; [done|]. intros ([Hnd Hrefs] & Htables & Htasks & Hsubs).
    split; [|split; [|split]].
    + split; [done|]. intros k r Hk. cbn.
      destruct (Hrefs k r Hk) as [g Hg]. destruct (Hev r g Hg) as (g' & Hg' & _). eauto.
    + cbn. apply Forall_alter; [done|]. intros g _. apply tableOk_paid.
    + cbn [tasks update set_heap set_tasks]. apply Forall_delete.
      eapply Forall_impl; [exact Htasks|]. intros task. by apply taskOk_evolves.
    + eapply Forall_impl; [exact Hsubs|]. intros sub. by apply submissionOk_evolves.
  - unfold resumeSend. destruct ok; cbn [negb].
    + destruct (snd_phase t) eqn:Hphase.
      * (* the transaction is sent *)
        assert (heapEvolves s (set_tasks (<[i:=AwaitingSend ref (atPhase AwaitSend t)]> (tasks s))
                                 (set_ledger (submit t (ledger s)) s))) as Hev
          by by apply heapEvolves_same_heap.
        split; [done|]. intros ([Hnd Hrefs] & Htables & Htasks & Hsubs).
        assert (taskOk s (AwaitingSend ref t)) as Htask.
        { eapply Forall_lookup_1; [exact Htasks | exact Hi]. }
        split; [done|]. split; [done|]. split.
        -- cbn [tasks set_tasks]. apply Forall_insert; [done | exact Htask].
        -- cbn [ledger set_tasks set_ledger submit gateway]. apply Forall_app.
           split; [done|]. constructor; [|constructor].
           destruct Htask as (g & Hg & Hpays). exists ref, g, (snd_amount t).
           split; [done|]. split; [exact Hpays | done].
      * (* the player-keyed server does not await the confirmation *)
        assert (heapEvolves s (update ref (set_rewardPaid true)
                                 (set_tasks (delete i (tasks s))
                                    (set_ledger (setStatus (transactionKey (snd_receiver t)
                                                              (snd_gameId t)) completed
                                                   (ledger s)) s)))) as Hev.
        { intros r g Hg. cbn. destruct (decide (r = ref)) as [->|Hne].
          - rewrite list_lookup_alter_eq, Hg. cbn. eexists. split; [done | apply evolves_paid].
          - rewrite list_lookup_alter_ne by done. exists g.
            split; [done | apply evolves_refl]. }
        split; [done|]. intros ([Hnd Hrefs] & Htables & Htasks & Hsubs).
        split; [|split; [|split]].
        -- split; [done|]. intros k r Hk. cbn.
           destruct (Hrefs k r Hk) as [g Hg]. destruct (Hev r g Hg) as (g' & Hg' & _). eauto.
        -- cbn. apply Forall_alter; [done|]. intros g _. apply tableOk_paid.
        -- cbn [tasks update set_heap set_tasks]. apply Forall_delete.
           eapply Forall_impl; [exact Htasks|]. intros task. by apply taskOk_evolves.
        -- cbn [ledger update set_heap set_tasks set_ledger setStatus gateway].
           eapply Forall_impl; [exact Hsubs|]. intros sub. by apply submissionOk_evolves.
      * assert (heapEvolves s (update ref (set_rewardPaid true)
                                 (set_tasks (delete i (tasks s))
                                    (set_ledger (setStatus (transactionKey (snd_receiver t)
                                                              (snd_gameId t)) completed
                                                   (ledger s)) s)))) as Hev.
        { intros r g Hg. cbn. destruct (decide (r = ref)) as [->|Hne].
          - rewrite list_lookup_alter_eq, Hg. cbn. eexists. split; [done | apply evolves_paid].
          - rewrite list_lookup_alter_ne by done. exists g.
            split; [done | apply evolves_refl]. }
        split; [done|]. intros ([Hnd Hrefs] & Htables & Htasks & Hsubs).
        split; [|split; [|split]].
        -- split; [done|]. intros k r Hk. cbn.
           destruct (Hrefs k r Hk) as [g Hg]. destruct (Hev r g Hg) as (g' & Hg' & _). eauto.
        -- cbn. apply Forall_alter; [done|]. intros g _. apply tableOk_paid.
        -- cbn [tasks update set_heap set_tasks]. apply Forall_delete.
           eapply Forall_impl; [exact Htasks|]. intros task. by apply taskOk_evolves.
        -- cbn [ledger update set_heap set_tasks set_ledger setStatus gateway].
           eapply Forall_impl; [exact Hsubs|]. intros sub. by apply submissionOk_evolves.
    + split; [by apply heapEvolves_same_heap|].
      intros ([Hnd Hrefs] & Htables & Htasks & Hsubs).
      split; [done|]. split; [done|]. split; [|done].
      cbn [tasks set_tasks]. by apply Forall_delete.
Qed.


(** *** The deal *)

Lemma NoDup_submseteq_inv (l1 l2 : list Card) : l1 ⊆+ l2 → NoDup l2 → NoDup l1.
Proof.
  intros [k Hk]%submseteq_Permutation Hnd. rewrite Hk in Hnd.
  by apply NoDup_app in Hnd as [? _].
Qed.

Lemma evaluate_result (l : list Card) :
  evaluateHandCombination l
  = mkHand (combination (evaluateHandCombination l)) (reward (evaluateHandCombination l)).
Proof. by destruct (evaluateHandCombination l). Qed.

(** On a sound table that has rounds left, the loop of the draw handler
    fills the three slots, from the deck the game has, and the object
    written afterwards is sound again. *)
Lemma deal_next_table rnd now g slots deck2 :
  tableOk g → roundsPlayed g < 3 →
  dealHand (roundsPlayed g =? 0) (heldCards g) (cards g)
    (if (length (deck g) <? 3)%nat then createAndShuffleLuckyTripleDeck rnd else deck g)
  = (slots, deck2) →
  ∃ newCards,
    definedCards slots = Some newCards
    ∧ (length (deck g) <? 3)%nat = false
    ∧ let g' := set_heldCards []
                  (set_lastActionTime (Some now)
                     (set_hand newCards (evaluateHandCombination newCards)
                        (set_deck deck2 g))) in
      (roundsPlayed g + 1 < 3 → tableOk g') ∧ tableOk (set_isEnded true g').
Proof.
  intros (Hmax & Hrounds & Hlast & Hnd & Hsize & Hhand & Heval & Hpid) Hleft.
  assert ((length (deck g) <? 3)%nat = false) as Hfull by (apply Nat.ltb_ge; lia).
  rewrite Hfull. destruct (last_three (deck g)) as (d & c3 & c2 & c1 & Hdeck); [lia|].
  rewrite Hdeck, dealHand_three. rewrite Hdeck in Hnd, Hsize.
  rewrite length_app in Hsize. cbn [length] in Hsize.
  assert (∀ newCards deck2,
            length newCards = 3%nat → NoDup (deck2 ++ newCards) →
            (length d ≤ length deck2)%nat →
            let g' := set_heldCards []
                        (set_lastActionTime (Some now)
                           (set_hand newCards (evaluateHandCombination newCards)
                              (set_deck deck2 g))) in
            (roundsPlayed g + 1 < 3 → tableOk g') ∧ tableOk (set_isEnded true g')) as Hok.
  { intros newCards deck2' Hthree Hnd' Hlen. unfold tableOk. cbn.
    assert ((roundsPlayed g + 1 =? 0) = false) as -> by lia.
    rewrite <- evaluate_result.
    split; [intros Hmore|]; repeat split; try (done || lia). }
  destruct (roundsPlayed g =? 0) eqn:Hfirst.
  - cbn. intros [= <- <-]. eexists. split; [reflexivity|]. split; [done|].
    apply Hok; [done| |lia].
    eapply NoDup_submseteq_inv; [|exact Hnd]. solve_submseteq.
  - destruct (cards g) as [|p0 [|p1 [|p2 [|]]]]; try discriminate Hhand.
    unfold isFreshAt. cbn [orb].
    destruct (negb (includes (heldCards g) 0)), (negb (includes (heldCards g) 1)),
      (negb (includes (heldCards g) 2)); cbn; intros [= <- <-];
      (eexists; split; [reflexivity|]; split; [done|];
       apply Hok; [done| |rewrite ?length_app; cbn; lia];
       eapply NoDup_submseteq_inv; [|exact Hnd]; solve_submseteq).
Qed.


Lemma update_update ref (f1 f2 : GameState → GameState) s :
  update ref f2 (update ref f1 s) = update ref (f2 ∘ f1) s.
Proof. unfold update, set_heap. cbn. by rewrite list_alter_alter_eq. Qed.

Lemma evolves_dealt now newCards handResult deck2 ended g :
  isEnded g = false →
  evolves g (mkGame (gameId g) (playerId g) deck2 newCards [] (timestamp g) (Some now)
               (combination handResult) (reward handResult) (roundsPlayed g + 1)
               (maxRounds g) ended (timedOut g) (rewardPaid g)).
Proof. intros He. unfold evolves. cbn. rewrite He. repeat split; (done || lia). Qed.

Lemma advances_draw now rnd gid s : advances s (ByPlayer.draw now rnd gid s).1.
Proof.
  unfold ByPlayer.draw.
  destruct (ByPlayer.findGame _ _ _) as [[[pid ref] g]|] eqn:Hfind; [|apply advances_refl].
  apply findGame_Some in Hfind as (Hg & _ & Hin).
  destruct (isEnded g) eqn:Hended; [apply advances_refl|].
  pose proof (advances_verifyTimeRemaining now ref pid s) as Hv.
  destruct (verifyTimeRemaining_cases now ref pid s g Hg)
    as [(_ & _ & s1 & Hverify) | (_ & remaining & Hverify)];
    rewrite Hverify in Hv |- *; cbn [fst ByPlayer.tc_isTimedOut] in *.
  { eapply advances_trans; [exact Hv|]. apply advances_forget, sublist_filter. }
  clear Hv Hverify.
  assert (current s ref g = g) as Hcur by (unfold current; by rewrite Hg).
  rewrite Hcur.
  destruct (roundsPlayed g >=? maxRounds g) eqn:Hmax.
  { cbn [fst]. eapply advances_trans; [|by apply advances_set_again].
    apply advances_update. intros g' _. split; [apply evolves_ended | apply tableOk_ended]. }
  destruct (dealHand _ _ _ _) as [slots deck2] eqn:Hdeal.
  assert (∀ g', heap s !! ref = Some g' → tableOk g' → g' = g ∧ roundsPlayed g < 3)
    as Hsound.
  { intros g' Hg' Hok. assert (g' = g) as -> by congruence. split; [done|].
    destruct Hok as (Hm & _). rewrite Hm in Hmax. unfold GAME_CONFIG.MAX_ROUNDS in Hmax. lia. }
  destruct (definedCards slots) as [newCards|] eqn:Hdefined.
  2:{ cbn [fst]. apply advances_update. intros g' Hg'. assert (g' = g) as -> by congruence.
      split.
      - unfold evolves. cbn. rewrite Hended. repeat split; (done || lia).
      - intros Hok. destruct (Hsound g Hg Hok) as [_ Hleft].
        destruct (deal_next_table rnd now g slots deck2 Hok Hleft Hdeal)
          as (newCards & Hsome & _). congruence. }
  set (handResult := evaluateHandCombination newCards).
  set (F := λ g0 : GameState,
              set_heldCards []
                (set_lastActionTime (Some now) (set_hand newCards handResult (set_deck deck2 g0)))).
  set (s2 := update ref F s).
  assert (current s2 ref g = F g) as Hcur2.
  { unfold current. subst s2. cbn. by rewrite list_lookup_alter_eq, Hg. }
  rewrite Hcur2.
  set (s3 := if roundsPlayed (F g) >=? maxRounds (F g) then _ else s2).
  assert (advances s s3 ∧ games s3 = games s) as [H3 Hgames3].
  { subst s3. destruct (roundsPlayed (F g) >=? maxRounds (F g)) eqn:Hlastround.
    - subst s2. rewrite update_update.
      set (s' := update ref (set_isEnded true ∘ F) s).
      assert (advances s s') as Hs'.
      { apply advances_update. intros g' Hg'. assert (g' = g) as -> by congruence.
        split; [exact (evolves_dealt now newCards handResult deck2 true g Hended)|].
        intros Hok. destruct (Hsound g Hg Hok) as [_ Hleft].
        destruct (deal_next_table rnd now g slots deck2 Hok Hleft Hdeal)
          as (newCards' & Hsome & _ & _ & Hgood).
        assert (newCards' = newCards) as -> by congruence. exact Hgood. }
      assert (∀ cg, advances s (set_completedGames cg s')) as Hrec.
      { intros cg. eapply advances_trans; [exact Hs'|]. by apply advances_frame. }
      destruct (currentReward (F g) >? 0).
      + split.
        * eapply advances_trans; [apply Hrec|]. apply advances_processReward.
          subst s'. cbn. intros g'. rewrite list_lookup_alter_eq, Hg. by intros [= <-].
        * destruct (processReward_frame ref
                      (set_completedGames
                         (<[gameId (F g) := mkCompleted pid win now false]>
                            (completedGames s')) s')) as (_ & -> & _). done.
      + split; [apply Hrec | done].
    - split; [|done]. apply advances_update. intros g' Hg'.
      assert (g' = g) as -> by congruence.
      split; [exact (evolves_dealt now newCards handResult deck2 (isEnded g) g Hended)|].
      intros Hok. destruct (Hsound g Hg Hok) as [_ Hleft].
      destruct (deal_next_table rnd now g slots deck2 Hok Hleft Hdeal)
        as (newCards' & Hsome & _ & Hgood & _).
      assert (newCards' = newCards) as -> by congruence. apply Hgood.
      destruct Hok as (Hm & _). cbn in Hlastround. rewrite Hm in Hlastround.
      unfold GAME_CONFIG.MAX_ROUNDS in Hlastround. lia. }
  set (s4 := set_games (registrySet (games s3) pid ref) s3).
  assert (advances s s4) as H4.
  { eapply advances_trans; [exact H3|]. apply advances_set_again. by rewrite Hgames3. }
  destruct (_ && _); [exact H4|].
  destruct (isEnded (current s4 ref g)); [exact H4|].
  pose proof (advances_verifyTimeRemaining now ref pid s4) as Hv.
  destruct (ByPlayer.verifyTimeRemaining now ref pid s4) as [s5 [timeStatus|]];
    cbn [fst] in *; by eapply advances_trans.
Qed.


(** *** New sessions, sweeps, and runs *)

Lemma tableOk_newGameState gid pid rnd now :
  pid ≠ "" →
  tableOk (ByPlayer.newGameState gid pid (createAndShuffleLuckyTripleDeck rnd) now).
Proof.
  intros Hpid. unfold tableOk.
  split; [reflexivity|]. split; [cbn; lia|]. split; [cbn; lia|]. split.
  { change (NoDup (createAndShuffleLuckyTripleDeck rnd ++ [])).
    rewrite app_nil_r. apply createAndShuffleLuckyTripleDeck_NoDup. }
  split.
  { change (24 ≤ Z.of_nat (length (createAndShuffleLuckyTripleDeck rnd)) + 3 * 0).
    rewrite createAndShuffleLuckyTripleDeck_length. lia. }
  split; [reflexivity|]. split; [reflexivity | exact Hpid].
Qed.

Lemma advances_register pid fresh s :
  tableOk fresh → advances s (Sessions.register pid fresh s).
Proof.
  intros Hfresh. destruct (register_registry pid fresh s) as (Hg & Hh & _ & Hl & Ht).
  assert (heapEvolves s (Sessions.register pid fresh s)) as Hev.
  { intros r g Hr. rewrite Hh. exists g. split; [by apply lookup_app_l_Some|].
    apply evolves_refl. }
  split; [done|]. intros (Hreg & Htables & Htasks & Hsubs).
  split; [by apply registryOk_register|]. split; [|split].
  - rewrite Hh. apply Forall_app. split; [done|]. by constructor.
  - rewrite Ht. eapply Forall_impl; [exact Htasks|]. intros task. by apply taskOk_evolves.
  - rewrite Hl. eapply Forall_impl; [exact Hsubs|]. intros sub. by apply submissionOk_evolves.
Qed.

Lemma advances_start now gid rnd pid fee s :
  advances s (Sessions.start now gid rnd pid fee s).1
  ∧ advances s (Sessions.reset now gid rnd pid fee s).1.
Proof.
  unfold Sessions.start, Sessions.reset.
  case_bool_decide as Hpid; [split; apply advances_refl|].
  destruct (negb (validPublicKey pid)); [split; apply advances_refl|].
  destruct (negb fee); [split; apply advances_refl|].
  cbn [fst]. split; by apply advances_register, tableOk_newGameState.
Qed.

Lemma advances_step s e : advances s (Play.step s e).
Proof.
  destruct e; cbn [Play.step].
  - apply advances_start.
  - apply advances_start.
  - apply advances_hold.
  - apply advances_draw.
  - apply advances_check.
  - apply advances_status.
  - apply advances_time.
  - apply advances_resumeTask.
  - apply advances_forget, sublist_filter.
  - destruct (sweepSession_fold (now - 60 * 60 * 1000) (games s) s)
      as (Hh & _ & Hl & Ht & Hsub & _).
    apply advances_frame; try done. unfold Sessions.cleanupInactiveGameSessions.
    cbv zeta. by rewrite Hl.
  - by apply advances_frame.
  - by apply advances_frame.
Qed.

Lemma advances_steps events s : advances s (foldl Play.step s events).
Proof.
  revert s. induction events as [|e events IH]; intros s; cbn [foldl].
  - apply advances_refl.
  - eapply advances_trans; [apply advances_step | apply IH].
Qed.

Lemma serverOk_launched : serverOk Play.launched.
Proof.
  split; [|split; [|split]]; cbn; try by constructor.
  split; cbn; [constructor|]. by intros k ref ?%elem_of_nil.
Qed.

Lemma serverOk_run events : serverOk (Play.run events).
Proof. apply (advances_steps events Play.launched), serverOk_launched. Qed.

Lemma tableOk_hand g :
  tableOk g →
  currentCombination g ≠ LuckyTriple ∧ currentReward g ∈ [0; 5; 6; 9; 12].
Proof.
  intros (_ & _ & _ & Hnd & _ & Hlen & Heval & _).
  apply NoDup_app in Hnd as (_ & _ & Hnd).
  destruct (cards g) as [|a [|b [|c [|]]]];
    try (destruct (roundsPlayed g =? 0); discriminate Hlen).
  - cbn in Heval. injection Heval as <- <-. split; [done | apply list_elem_of_here].
  - destruct (distinct_cards_pay a b c Hnd) as [Hno Hpay].
    rewrite Heval in Hno, Hpay. done.
Qed.

(** X11. Whatever requests, payout resumptions, delayed deletes and sweeps
    the player-keyed server goes through from its launch, every game object
    it holds is sound: at most 3 rounds are played and a game with 3 rounds
    has ended; the hand is empty before the first draw and has 3 cards
    afterwards, all different and none of them still in the deck; the deck
    never runs short (so the draw handler never recreates it); the stored
    combination and reward are those of the hand on the table; and no game
    ever holds a Lucky Triple: the reward is 0, 5, 6, 9 or 12. Each player
    has at most one session. *)
Theorem reachable_games_are_sound (events : list Play.Event) :
  let s := Play.run events in
  NoDup (games s).*1
  ∧ ∀ ref g, heap s !! ref = Some g →
      maxRounds g = 3
      ∧ 0 ≤ roundsPlayed g ≤ 3
      ∧ (roundsPlayed g = 3 → isEnded g = true)
      ∧ (roundsPlayed g = 0 → cards g = [])
      ∧ (0 < roundsPlayed g → length (cards g) = 3%nat)
      ∧ NoDup (deck g ++ cards g)
      ∧ (roundsPlayed g < 3 → (3 ≤ length (deck g))%nat)
      ∧ evaluateHandCombination (cards g) = mkHand (currentCombination g) (currentReward g)
      ∧ currentCombination g ≠ LuckyTriple
      ∧ currentReward g ∈ [0; 5; 6; 9; 12].
Proof.
  intros s. destruct (serverOk_run events) as ([Hnd _] & Htables & _). fold s in Hnd, Htables.
  split; [exact Hnd|]. intros ref g Hg.
  pose proof (Forall_lookup_1 _ _ _ _ Htables Hg) as Hok.
  destruct (tableOk_hand g Hok) as [Hno Hpay].
  destruct Hok as (Hmax & Hrounds & Hlast & Hdistinct & Hsize & Hlen & Heval & _).
  split; [exact Hmax|]. split; [exact Hrounds|]. split; [exact Hlast|].
  split; [|split].
  - intros H0. rewrite H0 in Hlen. cbn in Hlen. by apply nil_length_inv.
  - intros Hpos. destruct (roundsPlayed g =? 0) eqn:E; [lia | done].
  - split; [exact Hdistinct|]. split; [lia|]. done.
Qed.

(** X12. A game object only moves forward. Whatever happens to the server
    between two moments, the object keeps its game id, its player and its
    creation time (so its deadline never moves), its round counter does not
    go down, a set [rewardPaid] stays set, and once the game has ended it
    stays ended with the same cards, deck, combination, reward and round
    counter. *)
Theorem game_objects_only_move_forward (events more : list Play.Event) (ref : nat) g :
  heap (Play.run events) !! ref = Some g →
  ∃ g', heap (Play.run (events ++ more)) !! ref = Some g'
        ∧ gameId g' = gameId g ∧ playerId g' = playerId g ∧ timestamp g' = timestamp g
        ∧ roundsPlayed g ≤ roundsPlayed g'
        ∧ (rewardPaid g = true → rewardPaid g' = true)
        ∧ (isEnded g = true →
           isEnded g' = true ∧ cards g' = cards g ∧ deck g' = deck g
           ∧ currentCombination g' = currentCombination g
           ∧ currentReward g' = currentReward g ∧ roundsPlayed g' = roundsPlayed g).
Proof.
  intros Hg. unfold Play.run. rewrite foldl_app. fold (Play.run events).
  destruct (advances_steps more (Play.run events)) as [Hev _].
  destruct (Hev ref g Hg) as (g' & Hg' & He). exists g'. split; [exact Hg'|]. exact He.
Qed.

(** X13. Every transaction the player-keyed server ever sends pays a
    finished win: there is an ended game whose player is the receiver,
    whose id is the one the transaction was sent for, and whose final
    three-card hand evaluates to the reward paid, which is 5, 6, 9 or 12
    CARDS (in units of 10^-9). *)
Theorem transactions_pay_finished_wins (events : list Play.Event) (sub : Submission) :
  sub ∈ gateway (ledger (Play.run events)) →
  ∃ ref g,
    heap (Play.run events) !! ref = Some g
    ∧ isEnded g = true
    ∧ sub_receiver sub = playerId g
    ∧ sub_gameId sub = gameId g
    ∧ sub_tokenAmount sub = currentReward g * 10 ^ 9
    ∧ currentReward g = reward (evaluateHandCombination (cards g))
    ∧ length (cards g) = 3%nat
    ∧ currentReward g ∈ [5; 6; 9; 12].
Proof.
  intros Hsub. destruct (serverOk_run events) as (_ & Htables & _ & Hsubs).
  rewrite Forall_forall in Hsubs.
  destruct (Hsubs sub Hsub) as (ref & g & amount & Hg & Hpays & Hamount).
  destruct Hpays as (Hended & Hpos & Hr & Hgid & ->).
  pose proof (Forall_lookup_1 _ _ _ _ Htables Hg) as Hok.
  destruct (tableOk_hand g Hok) as [_ Hpay].
  destruct Hok as (_ & _ & _ & _ & _ & Hlen & Heval & _).
  exists ref, g. do 5 (split; [done|]). split; [by rewrite Heval|]. split.
  - destruct (roundsPlayed g =? 0); [|done].
    apply nil_length_inv in Hlen. rewrite Hlen in Heval. cbn in Heval.
    injection Heval as _ Hzero. lia.
  - apply elem_of_cons in Hpay as [Hzero|Hpay]; [lia | exact Hpay].
Qed.

End Reachable.

Lemma reachable_games_are_sound_witness :
  let rnd := λ i : nat, (i * 7 + 3)%nat in
  let events := [Play.Start 1000 "g1" rnd "P" true; Play.Draw 2000 rnd "g1"] in
  ∃ g, heap (Play.run (web3 := anyAddress) events) !! 0%nat = Some g
       ∧ roundsPlayed g = 1
       ∧ length (cards g) = 3%nat
       ∧ length (deck g) = 21%nat
       ∧ currentCombination g = StraightFlush
       ∧ currentReward g ∈ [0; 5; 6; 9; 12].
Proof.
  intros rnd events.
  eassert (heap (Play.run (web3 := anyAddress) events) !! 0%nat = Some _) as Hg
    by (vm_compute; reflexivity).
  eexists. split; [exact Hg|].
  destruct (reachable_games_are_sound (web3 := anyAddress) events) as [_ Hsound].
  destruct (Hsound 0%nat _ Hg) as (_ & _ & _ & _ & _ & _ & _ & _ & _ & Hpay).
  split; [reflexivity|]. split; [reflexivity|]. split; [reflexivity|].
  split; [reflexivity | exact Hpay].
Defined.

Lemma game_objects_only_move_forward_witness :
  let rnd := λ i : nat, (i * 7 + 3)%nat in
  let events :=
    [Play.Start 1000 "g1" rnd "P" true; Play.Draw 2000 rnd "g1"; Play.Check 3000 "g1"] in
  let more :=
    [Play.Draw 4000 rnd "g1"; Play.Start 5000 "g2" rnd "P" true;
     Play.RewardResumes 0 true; Play.RewardResumes 0 true] in
  ∃ g g', heap (Play.run (web3 := anyAddress) events) !! 0%nat = Some g
          ∧ heap (Play.run (web3 := anyAddress) (events ++ more)) !! 0%nat = Some g'
          ∧ isEnded g = true ∧ rewardPaid g = false
          ∧ cards g' = cards g ∧ currentReward g' = 12 ∧ rewardPaid g' = true.
Proof.
  intros rnd events more.
  eassert (heap (Play.run (web3 := anyAddress) events) !! 0%nat = Some _) as Hg
    by (vm_compute; reflexivity).
  eassert (heap (Play.run (web3 := anyAddress) (events ++ more)) !! 0%nat = Some _) as Hg'
    by (vm_compute; reflexivity).
  destruct (game_objects_only_move_forward (web3 := anyAddress) events more 0%nat _ Hg)
    as (g' & Hlater & _ & _ & _ & _ & _ & Hfinal).
  destruct (Hfinal eq_refl) as (_ & Hcards & _ & _ & Hreward & _).
  rewrite Hg' in Hlater. injection Hlater as <-.
  eexists _, _. split; [exact Hg|]. split; [exact Hg'|].
  split; [reflexivity|]. split; [reflexivity|]. split; [exact Hcards|].
  split; [exact Hreward | reflexivity].
Defined.

Lemma transactions_pay_finished_wins_witness :
  let rnd := λ i : nat, (i * 7 + 3)%nat in
  let events :=
    [Play.Start 1000 "g1" rnd "P" true; Play.Draw 2000 rnd "g1"; Play.Check 3000 "g1";
     Play.RewardResumes 0 true] in
  let sub := mkSubmission "P" "g1" (12 * 10 ^ 9) in
  gateway (ledger (Play.run (web3 := anyAddress) events)) = [sub]
  ∧ ∃ ref g, heap (Play.run (web3 := anyAddress) events) !! ref = Some g
             ∧ isEnded g = true
             ∧ sub_receiver sub = playerId g
             ∧ currentReward g ∈ [5; 6; 9; 12].
Proof.
  intros rnd events sub.
  assert (gateway (ledger (Play.run (web3 := anyAddress) events)) = [sub]) as Hsent
    by (vm_compute; reflexivity).
  split; [exact Hsent|].
  destruct (transactions_pay_finished_wins (web3 := anyAddress) events sub)
    as (ref & g & Hg & Hended & Hreceiver & _ & _ & _ & _ & Hpay).
  - exact (eq_ind_r (λ l, sub ∈ l) (list_elem_of_here sub []) Hsent).
  - exists ref, g. split; [exact Hg|]. split; [exact Hended|].
    split; [exact Hreceiver | exact Hpay].
Defined.

(** ** A round of the game *)

Section Round.
Context {web3 : Web3}.




End Round.


